(** * Exodusify: playlist reconciliation workflow

    A shallow embedding of [exedusify_workflow_script.py]: the
    canonicalizer and path sanitizer, the matcher ([match_tracks]), the
    reconciliation reporters, the playlist exporter and the import
    pipeline, followed by the properties stated about them.

    - Python [str] values are sequences of Unicode code points and are
      modelled as [list N].
    - pandas tables are lists of records in row order; a missing cell
      ([None], [NaN], [pd.NA]) is [None].  Where the type of a column
      decides what an operator does (line 206), the type is computed from
      the cells.
    - A text file is the string written to it.
    - The music library is a state that the import pipeline reads and
      changes; the staging tree and the tag reader are answers of the
      environment.
    - The tables of the [unidecode] package are a parameter. *)

From Stdlib Require Import ZArith NArith QArith Lia List Bool Ascii String DecimalString.
From Stdlib Require Import Sorted Permutation.
From stdpp Require Import base decidable option list gmap.
Import ListNotations.

Local Open Scope N_scope.

(** ** Strings *)

Definition str : Type := list N.

(** [lit] turns an ASCII literal into a Python string. *)
Definition lit (s : string) : str :=
  List.map N_of_ascii (list_ascii_of_string s).

Definition is_upper (c : N) : bool := (65 <=? c) && (c <=? 90).
Definition is_lower (c : N) : bool := (97 <=? c) && (c <=? 122).
Definition is_digit (c : N) : bool := (48 <=? c) && (c <=? 57).
Definition is_ascii (c : N) : bool := c <? 128.

(** [str.isspace] on one code point; also the class [\s] of [re] on
    [str] patterns. *)
Definition is_space (c : N) : bool :=
  ((9 <=? c) && (c <=? 13)) || ((28 <=? c) && (c <=? 32))
  || (c =? 133) || (c =? 160) || (c =? 5760)
  || ((8192 <=? c) && (c <=? 8202))
  || (c =? 8232) || (c =? 8233) || (c =? 8239) || (c =? 8287) || (c =? 12288).

(** [str.lower] on the ASCII letters.  The case tables of the other code
    points are not part of the source; they are left unchanged here.  In
    [canonicalize_string] the argument of [lower] is always ASCII (it is
    the result of [unidecode]). *)
Definition lower_char (c : N) : N := if is_upper c then c + 32 else c.
Definition lower (s : str) : str := List.map lower_char s.

Definition str_eqb (a b : str) : bool := bool_decide (a = b).

Fixpoint startswith (s p : str) : bool :=
  match p, s with
  | [], _ => true
  | _ :: _, [] => false
  | pc :: p', sc :: s' => (sc =? pc) && startswith s' p'
  end.

(** [s.lstrip()], [s.rstrip()], [s.strip()] without argument. *)
Fixpoint lstrip (s : str) : str :=
  match s with
  | c :: t => if is_space c then lstrip t else s
  | [] => []
  end.

Fixpoint rstrip (s : str) : str :=
  match s with
  | [] => []
  | c :: t =>
      match rstrip t with
      | [] => if is_space c then [] else [c]
      | r => c :: r
      end
  end.

Definition strip (s : str) : str := rstrip (lstrip s).

(** [sep.join(parts)] *)
Fixpoint join (sep : str) (parts : list str) : str :=
  match parts with
  | [] => []
  | [p] => p
  | p :: ps => p ++ sep ++ join sep ps
  end.

(** Order of Python strings: lexicographic on code points. *)
Fixpoint str_compare (a b : str) : comparison :=
  match a, b with
  | [], [] => Eq
  | [], _ :: _ => Lt
  | _ :: _, [] => Gt
  | x :: a', y :: b' =>
      match N.compare x y with
      | Eq => str_compare a' b'
      | r => r
      end
  end.

Definition str_leb (a b : str) : bool :=
  match str_compare a b with Gt => false | _ => true end.

(** ** Regular expressions of the helper section

    Each pattern is matched at the head of the remaining text and gives
    the number of characters the match consumes.  [re_sub] is
    [pattern.sub(repl, text)] for a pattern whose matches are never
    empty: leftmost matches, not overlapping, the text between them
    copied. *)

Section Sub.
Variable match_len : str -> option nat.
Variable repl : str.

Fixpoint re_sub_from (skip : nat) (s : str) : str :=
  match s with
  | [] => []
  | c :: t =>
      match skip with
      | S k => re_sub_from k t
      | O =>
          match match_len s with
          | Some (S k) => repl ++ re_sub_from k t
          | _ => c :: re_sub_from O t
          end
      end
  end.

Definition re_sub (s : str) : str := re_sub_from O s.
End Sub.

(** Case-insensitive literal prefix (flag [re.IGNORECASE]; the pattern
    text is in lower case, the text matched is the ASCII result of
    [unidecode]).  Gives the text after the prefix. *)
Fixpoint match_literal_ci (p s : str) : option str :=
  match p with
  | [] => Some s
  | pc :: p' =>
      match s with
      | [] => None
      | sc :: s' => if lower_char sc =? pc then match_literal_ci p' s' else None
      end
  end.

(** The lazy tail of [FEAT_PATTERN]: the shortest run of characters other than a line feed that
    is followed by a closing parenthesis; the count includes the
    parenthesis. *)
Fixpoint lazy_until_close (s : str) : option nat :=
  match s with
  | [] => None
  | c :: t =>
      if c =? 41 then Some 1%nat
      else if c =? 10 then None
      else option_map S (lazy_until_close t)
  end.

(** [FEAT_PATTERN]: the literal text (feat. without regard to case,
    then the lazy run up to the first closing parenthesis. *)
Definition feat_open : str := Eval cbv in lit "(feat.".

Definition FEAT_PATTERN (s : str) : option nat :=
  match match_literal_ci feat_open s with
  | Some rest => option_map (fun n => (6 + n)%nat) (lazy_until_close rest)
  | None => None
  end.

(** [.*]: up to the next line feed or the end of the text. *)
Fixpoint line_length (s : str) : nat :=
  match s with
  | [] => O
  | c :: t => if c =? 10 then O else S (line_length t)
  end.

(** The alternation [(remaster(ed)?|remix|edit|mix)]. *)
Definition remix_words : list str :=
  Eval cbv in List.map lit ["remastered"; "remaster"; "remix"; "edit"; "mix"]%string.

Definition remix_word (s : str) : bool :=
  existsb (fun w => match match_literal_ci w s with Some _ => true | None => false end)
          remix_words.

(** [REMIX_PATTERN]: a hyphen, white space ([\s*]), one of the words
    without regard to case, then the rest of the line.  [\s*] is greedy
    and the words start with a letter, so the word has to follow the
    whole run of white space. *)
Definition REMIX_PATTERN (s : str) : option nat :=
  match s with
  | c :: t =>
      if c =? 45 then
        let r := lstrip t in
        if remix_word r
        then Some (1 + (List.length t - List.length r) + line_length r)%nat
        else None
      else None
  | [] => None
  end.

(** [NON_ALNUM] (a run of characters outside a-z and 0-9) and the
    white-space pattern of the last step: a maximal run of characters of
    a class.  [sub_runs cls repl] is the substitution
    of every such run by [repl]. *)
Definition non_alnum (c : N) : bool := negb (is_lower c || is_digit c).

Fixpoint sub_runs_from (cls : N -> bool) (repl : str) (in_run : bool) (s : str) : str :=
  match s with
  | [] => []
  | c :: t =>
      if cls c then
        if in_run then sub_runs_from cls repl true t
        else repl ++ sub_runs_from cls repl true t
      else c :: sub_runs_from cls repl false t
  end.

Definition sub_runs (cls : N -> bool) (repl : str) (s : str) : str :=
  sub_runs_from cls repl false s.

Definition NON_ALNUM_sub (repl s : str) : str := sub_runs non_alnum repl s.

(** [INVALID_PATH_CHARS]: the class of the characters less-than,
    greater-than, colon, double quote, slash, backslash, bar, question
    mark and star.  The pattern is substituted by the empty string: the
    characters are dropped. *)
Definition invalid_path_char (c : N) : bool :=
  (c =? 60) || (c =? 62) || (c =? 58) || (c =? 34) || (c =? 47)
  || (c =? 92) || (c =? 124) || (c =? 63) || (c =? 42).

(** [s.replace(old, new)] for a one-character [old]. *)
Definition replace_char (old : N) (new : str) (s : str) : str :=
  flat_map (fun c => if c =? old then new else [c]) s.

Section Helpers.

(** The transliteration table of the [unidecode] package for the code
    points from 128 on, which is not part of the source.  The package
    returns an ASCII string; ASCII code points are returned as they
    are. *)
Variable unidecode_table : N -> str.

Definition unidecode (s : str) : str :=
  flat_map (fun c => if is_ascii c then [c] else unidecode_table c) s.

(** [canonicalize_string(value)]; [None] is the absent value. *)
Definition canonicalize_string (value : option str) : str :=
  match value with
  | None | Some [] => []
  | Some v =>
      let normalized := unidecode v in
      let normalized := re_sub FEAT_PATTERN [] normalized in
      let normalized := re_sub REMIX_PATTERN [] normalized in
      let normalized := lower normalized in
      let normalized := NON_ALNUM_sub (lit " ") normalized in
      let normalized := strip normalized in
      sub_runs is_space (lit " ") normalized
  end.

(** [safe_path_component(value, fallback)] *)
Definition safe_path_component (value : option str) (fallback : str) : str :=
  let candidate :=
    match value with
    | None | Some [] => fallback
    | Some v => strip v
    end in
  let candidate := unidecode candidate in
  let candidate := List.filter (fun c => negb (invalid_path_char c)) candidate in
  let candidate := replace_char 92 (lit "-") (replace_char 47 (lit "-") candidate) in
  let candidate := strip candidate in
  match candidate with
  | [] => fallback
  | _ => candidate
  end.

End Helpers.

(** A few rows of the transliteration table (Latin-1 letters), enough to
    run the examples; every other code point is dropped. *)
Definition latin1_table (c : N) : str :=
  if (192 <=? c) && (c <=? 197) then lit "A"
  else if c =? 199 then lit "C"
  else if (200 <=? c) && (c <=? 203) then lit "E"
  else if (224 <=? c) && (c <=? 229) then lit "a"
  else if c =? 231 then lit "c"
  else if (232 <=? c) && (c <=? 235) then lit "e"
  else if c =? 241 then lit "n"
  else if (242 <=? c) && (c <=? 246) then lit "o"
  else if (249 <=? c) && (c <=? 252) then lit "u"
  else [].


(** ** Tables *)

Local Open Scope Z_scope.

Definition key : Type := (str * str)%type.

(** Modelled from the spec: the record shape of the manifest loader, whose
    code is not in the source (section 3 of the specification, with the
    column names that the matcher, the reporters and the exporter read).
    The optional cells are the album and the duration. *)
Record ManifestRecord := {
  m_playlist_name : str;
  m_Artist_Names : str;
  m_primary_artist : str;
  m_Track_Name : str;
  m_Album_Name : option str;
  m_Duration_ms : option Z;
  m_is_liked : bool;
  m_is_top_songs : bool;
  m_artist_canonical : str;
  m_title_canonical : str
}.

(** One record of [scan_music_library]. *)
Record InventoryRecord := {
  lib_file_path : str;
  lib_artist_raw : str;
  lib_title_raw : str;
  lib_album_raw : option str;
  lib_artist_canonical : str;
  lib_title_canonical : str;
  lib_duration_ms : option Z
}.

(** One row of the merged table: the manifest columns and the inventory
    columns ([duration_ms] renamed to [duration_ms_local]). *)
Record MatchedRecord := {
  mr_manifest : ManifestRecord;
  mr_file_path : option str;
  mr_artist_raw : option str;
  mr_title_raw : option str;
  mr_album_raw : option str;
  mr_duration_ms_local : option Z
}.

Definition m_key (m : ManifestRecord) : key := (m_artist_canonical m, m_title_canonical m).
Definition lib_key (l : InventoryRecord) : key := (lib_artist_canonical l, lib_title_canonical l).
Definition mr_key (r : MatchedRecord) : key := m_key (mr_manifest r).

Definition DURATION_TOLERANCE_MS : Z := 3000.

(** *** The matcher *)

Definition same_key (m : ManifestRecord) (l : InventoryRecord) : bool :=
  bool_decide (m_key m = lib_key l).

Definition unmatched_row (m : ManifestRecord) : MatchedRecord :=
  {| mr_manifest := m; mr_file_path := None; mr_artist_raw := None;
     mr_title_raw := None; mr_album_raw := None; mr_duration_ms_local := None |}.

Definition joined_row (m : ManifestRecord) (l : InventoryRecord) : MatchedRecord :=
  {| mr_manifest := m;
     mr_file_path := Some (lib_file_path l);
     mr_artist_raw := Some (lib_artist_raw l);
     mr_title_raw := Some (lib_title_raw l);
     mr_album_raw := lib_album_raw l;
     mr_duration_ms_local := lib_duration_ms l |}.

(** [spotify_df.merge(lib_cols, how='left', on=[artist_canonical,
    title_canonical])]: the left rows in their order, each one repeated
    for every right row with its key (in the order of the right table),
    and kept once with missing right columns when there is none. *)
Definition merge_left (spotify_df : list ManifestRecord)
    (library_df : list InventoryRecord) : list MatchedRecord :=
  flat_map (fun m =>
    match List.filter (same_key m) library_df with
    | [] => [unmatched_row m]
    | ls => List.map (joined_row m) ls
    end) spotify_df.

(** The type of a numeric column: [int64] when no cell is missing, a
    floating type (or object) otherwise. *)
Inductive dtype := int64 | float64.

Definition is_present {A} (o : option A) : bool :=
  match o with Some _ => true | None => false end.

Definition column_dtype (col : list (option Z)) : dtype :=
  if forallb is_present col then int64 else float64.

Definition sub_dtype (a b : dtype) : dtype :=
  match a, b with int64, int64 => int64 | _, _ => float64 end.

(** [(merged['Duration (ms)'] - merged['duration_ms_local']).abs()],
    cell by cell; a missing operand gives a missing result. *)
Definition abs_difference (a b : option Z) : option Z :=
  match a, b with
  | Some x, Some y => Some (Z.abs (x - y))
  | _, _ => None
  end.

(** [mask & difference]: in Python [&] binds tighter than [>], so line
    206 computes this conjunction first and compares it with the
    tolerance afterwards.  pandas gives a Boolean column: against an
    integer column the bitwise and of the 0/1 mask with the number, cast
    to bool; against a floating column the number is cast to bool first
    (missing is false, non-zero is true). *)
Definition mask_and (dt : dtype) (mask : bool) (difference : option Z) : bool :=
  match difference with
  | None => false
  | Some d =>
      match dt with
      | int64 => mask && Z.odd d
      | float64 => mask && negb (d =? 0)
      end
  end.

(** [... > duration_tolerance_ms] on the Boolean column: [True] is 1. *)
Definition mismatched_cell (dt : dtype) (tolerance : Z) (r : MatchedRecord) : bool :=
  let mask := is_present (mr_duration_ms_local r)
              && is_present (m_Duration_ms (mr_manifest r)) in
  let difference := abs_difference (m_Duration_ms (mr_manifest r)) (mr_duration_ms_local r) in
  Z.b2z (mask_and dt mask difference) >? tolerance.

(** [merged.loc[mismatched, ['file_path', 'duration_ms_local']] = pd.NA] *)
Definition clear_match (r : MatchedRecord) : MatchedRecord :=
  {| mr_manifest := mr_manifest r; mr_file_path := None;
     mr_artist_raw := mr_artist_raw r; mr_title_raw := mr_title_raw r;
     mr_album_raw := mr_album_raw r; mr_duration_ms_local := None |}.

Definition difference_dtype (spotify_df : list ManifestRecord)
    (library_df : list InventoryRecord) : dtype :=
  sub_dtype
    (column_dtype (List.map m_Duration_ms spotify_df))
    (if forallb (fun m => existsb (same_key m) library_df) spotify_df
     then column_dtype (List.map lib_duration_ms library_df)
     else float64).

Definition match_tracks (spotify_df : list ManifestRecord)
    (library_df : list InventoryRecord) (duration_tolerance_ms : Z)
    : list MatchedRecord :=
  match spotify_df with
  | [] => []
  | _ :: _ =>
      match library_df with
      | [] => List.map unmatched_row spotify_df
      | _ :: _ =>
          let merged := merge_left spotify_df library_df in
          let dt := difference_dtype spotify_df library_df in
          List.map (fun r => if mismatched_cell dt duration_tolerance_ms r
                             then clear_match r else r) merged
      end
  end.

(** What section 4.5 of the specification asks of the matcher: a joined
    row is rejected when both durations are known and differ by more than
    the tolerance.  Used to state the property, not part of the code. *)
Definition spec_rejects (tolerance : Z) (manifest_ms local_ms : option Z) : bool :=
  match manifest_ms, local_ms with
  | Some a, Some b => Z.abs (a - b) >? tolerance
  | _, _ => false
  end.

(** ** Sorting and grouping *)

Section Sorting.
Context {A : Type}.
Variable leb : A -> A -> bool.

Fixpoint insert_sorted (x : A) (l : list A) : list A :=
  match l with
  | [] => [x]
  | y :: t => if leb x y then x :: l else y :: insert_sorted x t
  end.

(** A stable sort: equal rows keep their order. *)
Definition sort_by (l : list A) : list A := fold_right insert_sorted [] l.
End Sorting.

(** The sorted distinct values of a column: the group keys of [groupby]
    (with [sort=True]) and [sorted(set(col))]. *)
Definition sorted_distinct `{EqDecision K} (leb : K -> K -> bool) (l : list K) : list K :=
  sort_by leb (remove_dups l).

Definition key_leb (a b : key) : bool :=
  match str_compare (fst a) (fst b) with
  | Lt => true
  | Gt => false
  | Eq => str_leb (snd a) (snd b)
  end.

(** [df.groupby(col)]: the groups in the order of their keys, the rows of
    a group in the order of the table. *)
Definition groupby `{EqDecision K} {R : Type} (leb : K -> K -> bool)
    (col : R -> K) (df : list R) : list (K * list R) :=
  List.map (fun k => (k, List.filter (fun r => bool_decide (col r = k)) df))
           (sorted_distinct leb (List.map col df)).

(** ** Reconciliation reporters *)

Definition first_present {A} (col : list (option A)) : option A :=
  List.hd None (List.filter is_present col).

Definition nonempty (s : str) : bool :=
  match s with [] => false | _ => true end.

(** The aggregation of the album column:
    [col.dropna().iloc[0] if col.dropna().any() else pd.NA]. *)
Definition agg_album (col : list (option str)) : option str :=
  let present := omap id col in
  if existsb nonempty present then List.hd None (List.map Some present) else None.

(** One row of [grouped], before the key columns are dropped. *)
Record GroupedRow := {
  g_key : key;
  g_primary_artist : str;
  g_Track_Name : str;
  g_Album_Name : option str;
  g_Duration_ms : option Z;
  g_playlist_name : list str;
  g_is_liked : bool;
  g_is_top_songs : bool
}.

Record ShoppingListRow := {
  sl_Artist : str;
  sl_Title : str;
  sl_Album : option str;
  sl_Duration_ms : option Z;
  sl_Playlists_Count : nat;
  sl_Playlists : str;
  sl_Is_Liked : bool;
  sl_Is_Top_Songs : bool
}.

Definition missing_rows (matched_df : list MatchedRecord) : list MatchedRecord :=
  List.filter (fun r => negb (is_present (mr_file_path r))) matched_df.

Definition aggregate (g : key * list MatchedRecord) : GroupedRow :=
  let rows := List.map mr_manifest (snd g) in
  {| g_key := fst g;
     g_primary_artist := List.hd [] (List.map m_primary_artist rows);
     g_Track_Name := List.hd [] (List.map m_Track_Name rows);
     g_Album_Name := agg_album (List.map m_Album_Name rows);
     g_Duration_ms := first_present (List.map m_Duration_ms rows);
     g_playlist_name := sorted_distinct str_leb (List.map m_playlist_name rows);
     g_is_liked := existsb m_is_liked rows;
     g_is_top_songs := existsb m_is_top_songs rows |}.

(** [missing.groupby([artist_canonical, title_canonical]).agg(...)] *)
Definition grouped_missing (matched_df : list MatchedRecord) : list GroupedRow :=
  List.map aggregate (groupby key_leb mr_key (missing_rows matched_df)).

Definition shopping_columns (g : GroupedRow) : ShoppingListRow :=
  {| sl_Artist := g_primary_artist g;
     sl_Title := g_Track_Name g;
     sl_Album := g_Album_Name g;
     sl_Duration_ms := g_Duration_ms g;
     sl_Playlists_Count := List.length (g_playlist_name g);
     sl_Playlists := join (lit "; ") (g_playlist_name g);
     sl_Is_Liked := g_is_liked g;
     sl_Is_Top_Songs := g_is_top_songs g |}.

(** The order of [sort_values([Playlists_Count, Is_Liked, Artist, Title],
    ascending=[False, False, True, True])]. *)
Definition shopping_leb (a b : ShoppingListRow) : bool :=
  if (sl_Playlists_Count b <? sl_Playlists_Count a)%nat then true
  else if (sl_Playlists_Count a <? sl_Playlists_Count b)%nat then false
  else if sl_Is_Liked a && negb (sl_Is_Liked b) then true
  else if sl_Is_Liked b && negb (sl_Is_Liked a) then false
  else match str_compare (sl_Artist a) (sl_Artist b) with
       | Lt => true
       | Gt => false
       | Eq => str_leb (sl_Title a) (sl_Title b)
       end.

Definition build_shopping_list (matched_df : list MatchedRecord) : list ShoppingListRow :=
  sort_by shopping_leb (List.map shopping_columns (grouped_missing matched_df)).

(** The keys of the shopping list: the key columns of [grouped], which
    the final column selection drops. *)
Definition shopping_keys (matched_df : list MatchedRecord) : list key :=
  List.map g_key (grouped_missing matched_df).

Record OrphanRow := {
  o_Artist : str;
  o_Title : str;
  o_Album : option str;
  o_Duration_ms : option Z;
  o_file_path : str
}.

(** [set(zip(matched_df[artist_canonical], matched_df[title_canonical]))] *)
Definition playlist_keys (matched_df : list MatchedRecord) : gset key :=
  list_to_set (List.map mr_key matched_df).

(** The rows of [library_df[mask]]. *)
Definition orphaned (matched_df : list MatchedRecord)
    (library_df : list InventoryRecord) : list InventoryRecord :=
  List.filter (fun l => bool_decide (lib_key l ∉ playlist_keys matched_df)) library_df.

Definition orphan_columns (l : InventoryRecord) : OrphanRow :=
  {| o_Artist := lib_artist_raw l; o_Title := lib_title_raw l;
     o_Album := lib_album_raw l; o_Duration_ms := lib_duration_ms l;
     o_file_path := lib_file_path l |}.

Definition build_orphaned_tracks (matched_df : list MatchedRecord)
    (library_df : list InventoryRecord) : list OrphanRow :=
  List.map orphan_columns (orphaned matched_df library_df).

(** *** Playlist statistics *)

(** [a / b] rounded to the nearest integer, ties to the even one: the
    rounding of [round] and of [Series.round]. *)
Definition round_half_even (a b : Z) : Z :=
  let q := a / b in
  let r := a mod b in
  if 2 * r <? b then q
  else if b <? 2 * r then q + 1
  else if Z.even q then q else q + 1.

Record StatsRow := {
  st_playlist_name : str;
  st_Total_Tracks : Z;
  st_Matched_Tracks : Z;
  st_Liked_Snapshot : bool;
  st_Top_Songs_Snapshot : bool;
  st_Missing_Tracks : Z;
  st_Percent_Complete : Q
}.

(** [Matched_Tracks / Total_Tracks * 100] rounded to one decimal, as the
    exact decimal number (tenths over ten). *)
Definition percent_complete (matched total : Z) : Q :=
  Qmake (round_half_even (matched * 1000) total) 10.

Definition stats_row (g : str * list MatchedRecord) : StatsRow :=
  let total := Z.of_nat (List.length (snd g)) in
  let matched :=
    Z.of_nat (List.length (List.filter (fun r => is_present (mr_file_path r)) (snd g))) in
  {| st_playlist_name := fst g;
     st_Total_Tracks := total;
     st_Matched_Tracks := matched;
     st_Liked_Snapshot := existsb (fun r => m_is_liked (mr_manifest r)) (snd g);
     st_Top_Songs_Snapshot := existsb (fun r => m_is_top_songs (mr_manifest r)) (snd g);
     st_Missing_Tracks := total - matched;
     st_Percent_Complete := percent_complete matched total |}.

(** [sort_values([Percent_Complete, playlist_name], ascending=[False,
    True])] *)
Definition stats_leb (a b : StatsRow) : bool :=
  match Qcompare (st_Percent_Complete b) (st_Percent_Complete a) with
  | Lt => true
  | Gt => false
  | Eq => str_leb (st_playlist_name a) (st_playlist_name b)
  end.

(** The statistics cell; [None] when [matched_df] is empty and the cell
    only prints a message. *)
Definition stats (matched_df : list MatchedRecord) : option (list StatsRow) :=
  match matched_df with
  | [] => None
  | _ :: _ =>
      Some (sort_by stats_leb
              (List.map stats_row
                 (groupby str_leb (fun r => m_playlist_name (mr_manifest r)) matched_df)))
  end.

(** ** Playlist exporter *)


(** [str(n)] for an integer, as in a format string. *)
Definition str_of_Z (n : Z) : str := lit (NilZero.string_of_int (Z.to_int n)).

Definition newline : str := [10%N].

(** [s.lstrip('/')] *)
Fixpoint lstrip_slash (s : str) : str :=
  match s with
  | c :: t => if (c =? 47)%N then lstrip_slash t else s
  | [] => []
  end.

(** Lines 377 to 382: the duration of the manifest, the local one when
    that is missing, in whole seconds; -1 when both are missing. *)
Definition duration_seconds (r : MatchedRecord) : Z :=
  let duration_ms :=
    match m_Duration_ms (mr_manifest r) with
    | Some d => Some d
    | None => mr_duration_ms_local r
    end in
  match duration_ms with
  | Some d => round_half_even d 1000
  | None => -1
  end.

(** [a or b] on strings: the first one that is not empty. *)
Definition str_or (a b : str) : str :=
  match a with [] => b | _ => a end.

Definition extinf_line (r : MatchedRecord) : str :=
  let artist := str_or (m_primary_artist (mr_manifest r))
                  (str_or (m_Artist_Names (mr_manifest r)) (lit "Unknown Artist")) in
  let title := str_or (m_Track_Name (mr_manifest r)) (lit "Unknown Title") in
  lit "#EXTINF:" ++ str_of_Z (duration_seconds r) ++ lit "," ++ artist
    ++ lit " - " ++ title ++ newline.

(** Lines 386 to 389. *)
Definition normalized_rel (music_folder_name track_rel : str) : str :=
  let normalized_rel := lstrip_slash (replace_char 92 (lit "/") track_rel) in
  let music_prefix := lower music_folder_name ++ lit "/" in
  if startswith (lower normalized_rel) music_prefix
  then skipn (List.length music_prefix) normalized_rel
  else normalized_rel.

Definition path_line (music_folder_name track_rel : str) : str :=
  lit "../" ++ music_folder_name ++ lit "/"
    ++ normalized_rel music_folder_name track_rel ++ newline.

(** What the loop over the rows of one group writes after the header. *)
Definition track_entry (music_folder_name : str) (r : MatchedRecord) : str :=
  match mr_file_path r with
  | None => []
  | Some track_rel => extinf_line r ++ path_line music_folder_name track_rel
  end.

Definition playlist_content (music_folder_name : str) (group : list MatchedRecord) : str :=
  lit "#EXTM3U" ++ newline ++ flat_map (track_entry music_folder_name) group.

Definition written_count (group : list MatchedRecord) : nat :=
  List.length (List.filter (fun r => is_present (mr_file_path r)) group).

Definition missing_count (group : list MatchedRecord) : nat :=
  List.length (List.filter (fun r => negb (is_present (mr_file_path r))) group).

Record ExportLogRow := {
  el_playlist_name : str;
  el_playlist_file : list str;
  el_tracks_written : nat
}.

(** The result of [export_playlists]: the files written, in the order of
    the writes (a later write to the same name replaces the file), the
    returned log and the counter [missing_tracks]. *)
Record ExportResult := {
  files_written : list (str * str);
  export_log : list ExportLogRow;
  missing_tracks : nat
}.

Section Exporter.
Variable unidecode_table : N -> str.

Definition playlist_file_name (playlist_name : str) : str :=
  let human_name := replace_char 95 (lit " ") playlist_name in
  safe_path_component unidecode_table (Some human_name) (lit "Playlist") ++ lit ".m3u8".

(** [export_dir_name] and [music_folder_name] are the last components
    of [export_dir] and [music_root]. *)
Definition export_playlists (matched_df : list MatchedRecord)
    (export_dir_name music_folder_name : str) : ExportResult :=
  let groups := groupby str_leb (fun r => m_playlist_name (mr_manifest r)) matched_df in
  {| files_written :=
       List.map (fun g => (playlist_file_name (fst g),
                           playlist_content music_folder_name (snd g))) groups;
     export_log :=
       List.map (fun g =>
         {| el_playlist_name := replace_char 95 (lit " ") (fst g);
            el_playlist_file := [export_dir_name; playlist_file_name (fst g)];
            el_tracks_written := written_count (snd g) |}) groups;
     missing_tracks :=
       fold_left (fun n g => (n + missing_count (snd g))%nat) groups O |}.
End Exporter.

(** The number of lines of a text file: the number of line feeds. *)
Definition line_count (content : str) : nat :=
  List.length (List.filter (fun c => (c =? 10)%N) content).

(** ** Import pipeline *)

(** A [pathlib] path: its parts.  Joining drops a part that is a single
    dot, as [pathlib] does; the parts joined here hold no separator. *)
Definition Path : Type := list str.

Definition path_join (p : Path) (part : str) : Path :=
  if bool_decide (part = lit ".") then p else p ++ [part].

Definition as_posix (p : Path) : str := join (lit "/") p.

(** [name.rfind('.')] *)
Fixpoint rfind_dot (name : str) : option nat :=
  match name with
  | [] => None
  | c :: t =>
      match rfind_dot t with
      | Some i => Some (S i)
      | None => if (c =? 46)%N then Some O else None
      end
  end.

(** [PurePath.suffix] and [PurePath.stem] of the last part. *)
Definition dot_index (name : str) : option nat :=
  match rfind_dot name with
  | Some i => if (0 <? i)%nat && (i <? List.length name - 1)%nat then Some i else None
  | None => None
  end.

Definition suffix (name : str) : str :=
  match dot_index name with Some i => skipn i name | None => [] end.

Definition stem (name : str) : str :=
  match dot_index name with Some i => firstn i name | None => name end.

Definition path_name (p : Path) : str := List.last p [].

Definition SUPPORTED_IMPORT_SUFFIXES : list str :=
  Eval cbv in List.map lit [".mp3"; ".flac"; ".m4a"; ".aac"; ".ogg"; ".wav"]%string.

Definition PLAYLIST_STAGE_FOLDER : str := Eval cbv in lit "To Playlist".

(** A tag as [mutagen] hands it out: a frame with a [text] list, a plain
    string, or any other object. *)
Inductive raw_tag :=
| TextFrame (text : list str)
| PlainStr (s : str)
| OtherTag.

(** The answer of [MutagenFile(file_path)]: an exception with its text,
    or the three tags looked up at lines 488 to 490 ([None] when the file
    has no tags or the tag is missing). *)
Inductive read_result :=
| ReadError (message : str)
| ReadOk (artist_tag title_tag album_tag : option raw_tag).

Definition tag_value (raw : option raw_tag) : option str :=
  match raw with
  | Some (TextFrame (t :: _)) => Some (strip t)
  | Some (PlainStr s) => Some (strip s)
  | _ => None
  end.

(** Truth value of an optional string: [None] and the empty string are
    false. *)
Definition truthy (v : option str) : bool :=
  match v with Some (_ :: _) => true | _ => false end.

Inductive import_status :=
| moved
| skipped_missing_source
| error_read
| skipped_unknown_artist
| skipped_unknown_album
| skipped_missing_tags
| skipped_exists
| skipped_duplicate_title
| error_move.

#[global] Instance import_status_eq_dec : EqDecision import_status.
Proof. solve_decision. Defined.

Record ImportAction := {
  a_source : str;
  a_destination : option str;
  a_playlist_target : option str;
  a_status : import_status;
  a_reason : option str;
  a_artist : option str;
  a_album : option str;
  a_title : option str
}.


(** The music library on disk: the entries below [music_root] in the
    order in which a directory listing gives them, each a regular file or
    a directory. *)
Inductive node := RegularFile | Directory.

#[global] Instance node_eq_dec : EqDecision node.
Proof. solve_decision. Defined.

Definition Library : Type := list (Path * node).

Definition lib_exists (fs : Library) (p : Path) : bool :=
  match p with
  | [] => true
  | _ => existsb (fun e => bool_decide (fst e = p)) fs
  end.

Definition lib_is_file (fs : Library) (p : Path) : bool :=
  existsb (fun e => bool_decide (e = (p, RegularFile))) fs.

Definition lib_is_dir (fs : Library) (p : Path) : bool :=
  match p with
  | [] => true
  | _ => existsb (fun e => bool_decide (e = (p, Directory))) fs
  end.

(** [dest_dir.iterdir()]: the entries directly below [d]; [None] when [d]
    is not a directory (the listing raises). *)
Definition child_of (d : Path) (p : Path) : bool :=
  match p with
  | [] => false
  | _ => bool_decide (removelast p = d)
  end.

Definition lib_iterdir (fs : Library) (d : Path) : option (list (Path * node)) :=
  if lib_is_dir fs d
  then Some (List.filter (fun e => child_of d (fst e)) fs)
  else None.

(** All the directories on the way to [d], the shortest first. *)
Definition ancestors_and_self (d : Path) : list Path :=
  List.map (fun n => firstn n d) (seq 1 (List.length d)).

(** [dest_dir.mkdir(parents=True, exist_ok=True)]: [None] when a regular
    file is in the way (the call raises). *)
Definition mkdir_parents (fs : Library) (d : Path) : option Library :=
  if existsb (lib_is_file fs) (ancestors_and_self d) then None
  else Some (fs ++ List.map (fun q => (q, Directory))
                     (List.filter (fun q => negb (lib_exists fs q)) (ancestors_and_self d))).

(** The staging tree and the tag reader, as the pipeline sees them.  The
    staging tree is shared with whoever drops files into it and takes
    them away, so each probe of a staged path is an answer of its own:
    [is_file] at line 447, [path_exists] at line 462.  [move_error] is
    the exception of [shutil.move], [mkdir_error] the text of the one of
    [mkdir]. *)
Record Staging := {
  is_file : Path -> bool;
  path_exists : Path -> bool;
  MutagenFile : Path -> read_result;
  move_error : Path -> Path -> option str;
  mkdir_error : Path -> str
}.

(** What one turn of the loop over [add_files] does: [continue] without
    a record, a record appended to [actions] (with the library as it is
    afterwards), or an exception that leaves the function. *)
Inductive outcome :=
| Skipped
| Recorded (action : ImportAction) (fs : Library)
| Raised.

Definition new_action (rel : Path) : ImportAction :=
  {| a_source := as_posix rel; a_destination := None; a_playlist_target := None;
     a_status := moved; a_reason := None; a_artist := None; a_album := None;
     a_title := None |}.

Definition finish (a : ImportAction) (status : import_status) (reason : str) : ImportAction :=
  {| a_source := a_source a; a_destination := a_destination a;
     a_playlist_target := a_playlist_target a; a_status := status;
     a_reason := Some reason; a_artist := a_artist a; a_album := a_album a;
     a_title := a_title a |}.

Definition with_playlist_target (a : ImportAction) (t : option str) : ImportAction :=
  {| a_source := a_source a; a_destination := a_destination a;
     a_playlist_target := t; a_status := a_status a;
     a_reason := a_reason a; a_artist := a_artist a; a_album := a_album a;
     a_title := a_title a |}.

(** [friendly_playlist_name(csv_path)], from the stem of the file. *)
Definition friendly_playlist_name (csv_stem : str) : str :=
  strip (replace_char 95 (lit " ") csv_stem).

(** [artists_field.split(';')[0].strip()] *)
Fixpoint before_semicolon (s : str) : str :=
  match s with
  | [] => []
  | c :: t => if (c =? 59)%N then [] else c :: before_semicolon t
  end.

Definition primary_artist (artists_field : option str) : str :=
  match artists_field with
  | None | Some [] => []
  | Some v => strip (before_semicolon v)
  end.

Section ImportPipeline.
Variable unidecode_table : N -> str.
Variable env : Staging.
(** [str(music_root)], for the texts of the reasons. *)
Variable music_root : str.

Definition show_path (p : Path) : str := music_root ++ lit "/" ++ as_posix p.

(** The dictionary [staging_lookup], keyed by the staging directory
    (below [add_root]). *)
Definition build_staging_lookup (playlist_csvs : list str) : gmap Path str :=
  foldl (fun lookup csv_stem =>
           let playlist_name := friendly_playlist_name csv_stem in
           let staging_dir :=
             path_join [PLAYLIST_STAGE_FOLDER]
               (safe_path_component unidecode_table (Some playlist_name) (lit "Playlist")) in
           <[staging_dir := playlist_name]> lookup)
        ∅ playlist_csvs.

(** Lines 468 to 477. *)
Definition playlist_target_of (staging_lookup : gmap Path str) (rel : Path) : option str :=
  match rel with
  | p0 :: first :: _ =>
      if bool_decide (p0 = PLAYLIST_STAGE_FOLDER)
      then staging_lookup !! [PLAYLIST_STAGE_FOLDER; first]
      else None
  | _ => None
  end.

(** Lines 539 to 545: the first regular file of the listing whose stem
    has the canonical title. *)
Definition find_duplicate (entries : list (Path * node)) (canonical_title : str)
    : option Path :=
  option_map fst
    (List.find (fun e =>
       bool_decide (snd e = RegularFile)
       && str_eqb (canonicalize_string unidecode_table (Some (stem (path_name (fst e)))))
                  canonical_title) entries).

(** Lines 503 to 511: the fallbacks from the path. *)
Definition rel_parent_parts (rel : Path) : Path :=
  match rel with
  | p0 :: rest => if bool_decide (p0 = PLAYLIST_STAGE_FOLDER) then rest else rel
  | [] => []
  end.

Definition artist_fallback (v : option str) (parts : Path) : option str :=
  if truthy v then v else match parts with p :: _ => Some p | [] => v end.

Definition album_fallback (v : option str) (parts : Path) : option str :=
  if truthy v then v else match parts with _ :: p :: _ => Some p | _ => v end.

Definition title_fallback (v : option str) (rel : Path) : option str :=
  if truthy v then v else Some (stem (path_name rel)).

(** Lines 529 to 533: the destination directory and path, below
    [music_root]. *)
Definition dest_dir_of (artist_value album_value : option str) : Path :=
  let artist_component :=
    safe_path_component unidecode_table artist_value (lit "Unknown Artist") in
  let album_component :=
    safe_path_component unidecode_table album_value (lit "Unknown Album") in
  path_join (path_join [] artist_component) album_component.

Definition dest_path_of (rel : Path) (artist_value album_value title_value : option str)
    : Path :=
  let title_component :=
    safe_path_component unidecode_table title_value (stem (path_name rel)) in
  path_join (dest_dir_of artist_value album_value)
            (title_component ++ lower (suffix (path_name rel))).

(** Lines 529 to 575, once artist, album and title are known. *)
Definition place (fs : Library) (rel : Path) (action : ImportAction)
    (artist_value album_value title_value : option str) : outcome :=
  let dest_dir := dest_dir_of artist_value album_value in
  let dest_path := dest_path_of rel artist_value album_value title_value in
  let canonical_title := canonicalize_string unidecode_table title_value in
  let scan :=
    if lib_exists fs dest_dir
    then option_map (fun entries => find_duplicate entries canonical_title)
                    (lib_iterdir fs dest_dir)
    else Some None in
  match scan with
  | None => Raised
  | Some duplicate_target =>
      if lib_exists fs dest_path then
        Recorded (finish action skipped_exists
                    (lit "Destination already exists: " ++ show_path dest_path)) fs
      else
        match duplicate_target with
        | Some existing_file =>
            Recorded (finish action skipped_duplicate_title
                        (lit "Similar track already present: " ++ show_path existing_file)) fs
        | None =>
            match mkdir_parents fs dest_dir with
            | None => Recorded (finish action error_move (mkdir_error env dest_dir)) fs
            | Some fs1 =>
                match move_error env rel dest_path with
                | Some message => Recorded (finish action error_move message) fs1
                | None =>
                    Recorded
                      {| a_source := a_source action;
                         a_destination := Some (as_posix dest_path);
                         a_playlist_target := a_playlist_target action;
                         a_status := moved;
                         a_reason := None;
                         a_artist := artist_value;
                         a_album := album_value;
                         a_title := title_value |}
                      (fs1 ++ [(dest_path, RegularFile)])
                end
            end
        end
  end.

(** The body of the loop over [add_files]; [rel] is the path below
    [add_root]. *)
Definition process_file (staging_lookup : gmap Path str) (fs : Library) (rel : Path)
    : outcome :=
  if negb (is_file env rel) then Skipped
  else if negb (existsb (str_eqb (lower (suffix (path_name rel)))) SUPPORTED_IMPORT_SUFFIXES)
  then Skipped
  else
    let action := new_action rel in
    if negb (path_exists env rel) then
      Recorded (finish action skipped_missing_source
                  (lit "File disappeared before processing.")) fs
    else
      let action := with_playlist_target action (playlist_target_of staging_lookup rel) in
      match MutagenFile env rel with
      | ReadError message => Recorded (finish action error_read message) fs
      | ReadOk artist_tag title_tag album_tag =>
          let parts := rel_parent_parts rel in
          let artist_value := artist_fallback (tag_value artist_tag) parts in
          let album_value := album_fallback (tag_value album_tag) parts in
          let title_value := title_fallback (tag_value title_tag) rel in
          if negb (truthy artist_value) then
            Recorded (finish action skipped_unknown_artist
                        (lit "Missing artist tag after fallbacks.")) fs
          else if negb (truthy album_value) then
            Recorded (finish action skipped_unknown_album
                        (lit "Missing album tag after fallbacks.")) fs
          else if negb (truthy title_value) then
            Recorded (finish action skipped_missing_tags
                        (lit "Unable to infer track title.")) fs
          else place fs rel action artist_value album_value title_value
      end.

(** The loop: the records in the order of the files, the library after
    the last move; [None] when a turn raises. *)
Fixpoint import_loop (staging_lookup : gmap Path str) (fs : Library)
    (add_files : list Path) : option (list ImportAction * Library) :=
  match add_files with
  | [] => Some ([], fs)
  | rel :: rest =>
      match process_file staging_lookup fs rel with
      | Skipped => import_loop staging_lookup fs rest
      | Raised => None
      | Recorded action fs' =>
          match import_loop staging_lookup fs' rest with
          | Some (actions, fs'') => Some (action :: actions, fs'')
          | None => None
          end
      end
  end.

(** Lines 579 to 589: the moved files per playlist target. *)
Definition playlist_updates (actions : list ImportAction) : list (str * nat) :=
  let targets :=
    omap a_playlist_target
         (List.filter (fun a => bool_decide (a_status a = moved)) actions) in
  sort_by (fun a b => (snd b <=? snd a)%nat)
    (List.map (fun g => (fst g, List.length (snd g))) (groupby str_leb id targets)).

(** [process_new_additions]: [add_files] is the sorted listing of the
    staging tree, [playlist_csvs] the stems of the sorted manifest
    files, [fs] the library before the call. *)
Definition process_new_additions (playlist_csvs : list str) (fs : Library)
    (add_files : list Path)
    : option (list ImportAction * list (str * nat) * Library) :=
  match import_loop (build_staging_lookup playlist_csvs) fs add_files with
  | Some (actions, fs') => Some (actions, playlist_updates actions, fs')
  | None => None
  end.

End ImportPipeline.

(** Rows with the fields that the statements look at. *)
Definition mk_manifest (playlist artist title : str) (d : option Z)
    (ak tk : str) : ManifestRecord :=
  {| m_playlist_name := playlist; m_Artist_Names := artist; m_primary_artist := artist;
     m_Track_Name := title; m_Album_Name := None; m_Duration_ms := d;
     m_is_liked := false; m_is_top_songs := false;
     m_artist_canonical := ak; m_title_canonical := tk |}.

Definition mk_inventory (path artist title : str) (d : option Z) (ak tk : str)
    : InventoryRecord :=
  {| lib_file_path := path; lib_artist_raw := artist; lib_title_raw := title;
     lib_album_raw := None; lib_artist_canonical := ak; lib_title_canonical := tk;
     lib_duration_ms := d |}.

(** ** Predicates and sample data of the statements *)

(** The characters of a key: a lower-case letter, a digit or a space. *)
Definition key_char (c : N) : bool := (c =? 32)%N || negb (non_alnum c).

(** The shape of a text after the substitution of [NON_ALNUM]: letters,
    digits and single spaces.  [after_space] tells whether the character
    before the text is a space. *)
Fixpoint spaced (after_space : bool) (s : str) : Prop :=
  match s with
  | [] => True
  | c :: t =>
      if (c =? 32)%N then after_space = false /\ spaced true t
      else non_alnum c = false /\ spaced false t
  end.

(** A key: no space at either end, single spaces inside. *)
Definition is_key (s : str) : Prop := spaced true s /\ rstrip s = s.

(** Sample rows: one manifest row of 200000 ms and local files of its
    key with several durations, and a local file of another key. *)
Definition manifest_200 : ManifestRecord :=
  mk_manifest (lit "Road Trip") (lit "Artist A") (lit "Song One") (Some 200000)
    (lit "artist a") (lit "song one").

Definition inventory_210 : InventoryRecord :=
  mk_inventory (lit "Artist A/Song One.mp3") (lit "Artist A") (lit "Song One")
    (Some 210000) (lit "artist a") (lit "song one").

Definition inventory_200 : InventoryRecord :=
  mk_inventory (lit "Artist A/Best Of/Song One.mp3") (lit "Artist A") (lit "Song One")
    (Some 200000) (lit "artist a") (lit "song one").

Definition inventory_200001 : InventoryRecord :=
  mk_inventory (lit "Artist A/Live/Song One.mp3") (lit "Artist A") (lit "Song One")
    (Some 200001) (lit "artist a") (lit "song one").

Definition inventory_other : InventoryRecord :=
  mk_inventory (lit "Artist B/Song Two.mp3") (lit "Artist B") (lit "Song Two")
    (Some 180000) (lit "artist b") (lit "song two").


(** A matcher output of one playlist with one resolved row, and its
    statistics. *)
Definition stats_example : list MatchedRecord :=
  match_tracks [manifest_200] [inventory_200] 3000.

Definition stats_example_row : StatsRow :=
  {| st_playlist_name := lit "Road Trip"; st_Total_Tracks := 1; st_Matched_Tracks := 1;
     st_Liked_Snapshot := false; st_Top_Songs_Snapshot := false;
     st_Missing_Tracks := 0; st_Percent_Complete := Qmake 1000 10 |}.

(** A text without a line feed. *)
Definition line_free (s : str) : Prop := line_count s = O.

Definition row_line_free (r : MatchedRecord) : Prop :=
  line_free (m_primary_artist (mr_manifest r))
  /\ line_free (m_Artist_Names (mr_manifest r))
  /\ line_free (m_Track_Name (mr_manifest r))
  /\ forall p, mr_file_path r = Some p -> line_free p.

(** The rows with a resolved file, each with its path. *)
Definition resolved_rows (group : list MatchedRecord) : list (MatchedRecord * str) :=
  omap (fun r => option_map (pair r) (mr_file_path r)) group.

(** A manifest row whose title holds a line feed. *)
Definition manifest_two_lines : ManifestRecord :=
  mk_manifest (lit "Road Trip") (lit "Artist A") (lit "Song" ++ newline ++ lit "One")
    (Some 200000) (lit "artist a") (lit "song one").


(** A staging tree in which every path is a file that stays, and one in
    which every file is gone at the second probe. *)
Definition quiet_staging (tags : read_result) : Staging :=
  {| is_file := fun _ => true; path_exists := fun _ => true;
     MutagenFile := fun _ => tags; move_error := fun _ _ => None;
     mkdir_error := fun _ => lit "mkdir failed" |}.


(** A library with one album directory that holds [Song.mp3], and two
    staged paths. *)
Definition library_with_song : Library :=
  [([lit "Artist A"], Directory);
   ([lit "Artist A"; lit "Best Of"], Directory);
   ([lit "Artist A"; lit "Best Of"; lit "Song.mp3"], RegularFile)].

Definition song_mp3 : Path := [lit "Artist A"; lit "Best Of"; lit "Song.mp3"].

Definition song_flac : Path := [lit "Artist A"; lit "Best Of"; lit "song.flac"].

(** The words of a text: its maximal runs of lower-case letters and
    digits. *)
Fixpoint words (s : str) : list str :=
  match s with
  | [] => []
  | c :: t =>
      if non_alnum c then words t
      else
        match t with
        | [] => [[c]]
        | d :: _ =>
            if non_alnum d then [c] :: words t
            else match words t with
                 | w :: ws => (c :: w) :: ws
                 | [] => [[c]]
                 end
        end
  end.

(** The transliterated text without its feat. annotations and remix
    suffix: what steps (a) to (c) of the canonicalizer leave. *)
Definition annotations_removed (unidecode_table : N -> str) (x : str) : str :=
  re_sub REMIX_PATTERN [] (re_sub FEAT_PATTERN [] (unidecode unidecode_table x)).

(** [s] starts with [p] without regard to case, or is too short to tell. *)
Fixpoint compatible (p s : str) : bool :=
  match p, s with
  | [], _ | _, [] => true
  | pc :: p', sc :: s' => (lower_char sc =? pc)%N && compatible p' s'
  end.

(** No opening of a feat. annotation, whole or cut off by the end of the
    text, begins in [a]. *)
Fixpoint feat_inert (a : str) : bool :=
  match a with
  | [] => true
  | _ :: t => negb (compatible feat_open a) && feat_inert t
  end.

(** Neither a closing parenthesis nor a line feed. *)
Definition plain_char (c : N) : Prop := c <> 41%N /\ c <> 10%N.

Definition no_close (s : str) : Prop := Forall (fun c => c <> 41%N) s.
Definition no_line_feed (s : str) : Prop := Forall (fun c => c <> 10%N) s.

(** The ASCII punctuation characters. *)
Definition is_punctuation (c : N) : bool :=
  ((33 <=? c) && (c <=? 47))%N || ((58 <=? c) && (c <=? 64))%N
  || ((91 <=? c) && (c <=? 96))%N || ((123 <=? c) && (c <=? 126))%N.

(** Two texts that differ only in punctuation: they are the same once
    the punctuation characters are left out. *)
Definition differ_only_in_punctuation (x y : str) : Prop :=
  List.filter (fun c => negb (is_punctuation c)) x
  = List.filter (fun c => negb (is_punctuation c)) y.

(** The text [Café (feat. X)]; 233 is the e with acute accent. *)
Definition cafe_feat : str := lit "Caf" ++ [233%N] ++ lit " (feat. X)".

(** ** Library scanner *)

Definition AUDIO_EXTENSIONS : list str :=
  Eval cbv in List.map lit [".mp3"; ".flac"; ".m4a"; ".aac"; ".ogg"; ".wav"; ".aiff"]%string.

(** What the scanner is told about a path below [music_root]: whether
    it is a file, the answer of [MutagenFile] (as for the import; an
    exception leaves [audio] at [None]) and the value of
    [duration_ms_from_audio] for the audio object, whose rounding of a
    floating number of seconds is not modelled. *)
Record Scanner := {
  scan_is_file : Path -> bool;
  scan_read : Path -> read_result;
  scan_duration_ms : Path -> option Z
}.

(** Lines 150 to 152: the text of a tag; [None] when [text[0]] raises on
    a frame whose text list is empty (the scanner has no guard for it). *)
Definition scan_tag_str (raw : option raw_tag) : option (option str) :=
  match raw with
  | Some (TextFrame (t :: _)) => Some (Some t)
  | Some (TextFrame []) => None
  | Some (PlainStr s) => Some (Some s)
  | Some OtherTag | None => Some None
  end.

(** [file_path.parent.name]; the parent of a file directly below the
    root is the root itself. *)
Definition parent_name (music_folder_name : str) (rel : Path) : str :=
  match removelast rel with
  | [] => music_folder_name
  | dirs => List.last dirs []
  end.

Definition is_audio (env : Scanner) (rel : Path) : bool :=
  scan_is_file env rel
  && existsb (str_eqb (lower (suffix (path_name rel)))) AUDIO_EXTENSIONS.

Section Scan.
Variable unidecode_table : N -> str.
Variable music_folder_name : str.
Variable env : Scanner.

(** The record of one audio file (lines 134 to 168); [None] when a tag
    lookup raises. *)
Definition scan_record (rel : Path) : option InventoryRecord :=
  let tags :=
    match scan_read env rel with
    | ReadError _ => (None, None, None)
    | ReadOk artist_tag title_tag album_tag => (artist_tag, title_tag, album_tag)
    end in
  let duration :=
    match scan_read env rel with
    | ReadError _ => None
    | ReadOk _ _ _ => scan_duration_ms env rel
    end in
  match scan_tag_str (fst (fst tags)), scan_tag_str (snd (fst tags)),
        scan_tag_str (snd tags) with
  | Some artist_str, Some title_str, Some album_str =>
      let artist_str :=
        if truthy artist_str then default [] artist_str
        else parent_name music_folder_name rel in
      let title_str :=
        if truthy title_str then default [] title_str
        else stem (path_name rel) in
      Some {| lib_file_path := as_posix rel;
              lib_artist_raw := artist_str;
              lib_title_raw := title_str;
              lib_album_raw := album_str;
              lib_artist_canonical := canonicalize_string unidecode_table (Some artist_str);
              lib_title_canonical := canonicalize_string unidecode_table (Some title_str);
              lib_duration_ms := duration |}
  | _, _, _ => None
  end.

(** The loop over [music_root.rglob('*')]: the records in the order of
    the listing. *)
Fixpoint scan_records (listing : list Path) : option (list InventoryRecord) :=
  match listing with
  | [] => Some []
  | rel :: rest =>
      if is_audio env rel then
        match scan_record rel, scan_records rest with
        | Some r, Some rs => Some (r :: rs)
        | _, _ => None
        end
      else scan_records rest
  end.

End Scan.

(** The order of [sort_values([artist_canonical, title_canonical,
    file_path])]. *)
Definition inventory_leb (a b : InventoryRecord) : bool :=
  match str_compare (lib_artist_canonical a) (lib_artist_canonical b) with
  | Lt => true
  | Gt => false
  | Eq =>
      match str_compare (lib_title_canonical a) (lib_title_canonical b) with
      | Lt => true
      | Gt => false
      | Eq => str_leb (lib_file_path a) (lib_file_path b)
      end
  end.

(** [scan_music_library(music_root)]: [root_exists] is
    [music_root.exists()], [listing] the paths of [rglob] below the
    root. *)
Definition scan_music_library (unidecode_table : N -> str) (root_exists : bool)
    (music_folder_name : str) (env : Scanner) (listing : list Path)
    : option (list InventoryRecord) :=
  if root_exists then
    option_map (sort_by inventory_leb)
      (scan_records unidecode_table music_folder_name env listing)
  else Some [].

(** ** Totals of the statistics cell *)

(** [df.drop_duplicates(subset=...)]: the first row of every key. *)
Fixpoint drop_duplicates `{EqDecision K} {R : Type} (col : R -> K) (seen : list K)
    (df : list R) : list R :=
  match df with
  | [] => []
  | r :: rest =>
      if bool_decide (col r ∈ seen) then drop_duplicates col seen rest
      else r :: drop_duplicates col (col r :: seen) rest
  end.

(** Lines 330 to 334. *)
Definition missing_unique (matched_df : list MatchedRecord) : nat :=
  List.length (drop_duplicates mr_key [] (missing_rows matched_df)).

(** Lines 326 to 328. *)
Definition overall_total (rows : list StatsRow) : Z :=
  fold_right Z.add 0 (List.map st_Total_Tracks rows).

Definition overall_missing (rows : list StatsRow) : Z :=
  fold_right Z.add 0 (List.map st_Missing_Tracks rows).

Definition overall_matched (rows : list StatsRow) : Z :=
  overall_total rows - overall_missing rows.

(** ** Further predicates and sample data *)

(** The candidate of [safe_path_component] before the two [replace]
    calls of line 98, stripped. *)
Definition sanitized (unidecode_table : N -> str) (value : option str) (fallback : str) : str :=
  strip (List.filter (fun c => negb (invalid_path_char c))
           (unidecode unidecode_table
              match value with
              | None | Some [] => fallback
              | Some v => strip v
              end)).

(** The staging directory of a manifest file (lines 430 and 431). *)
Definition staging_dir_of (unidecode_table : N -> str) (csv_stem : str) : Path :=
  path_join [PLAYLIST_STAGE_FOLDER]
    (safe_path_component unidecode_table (Some (friendly_playlist_name csv_stem))
       (lit "Playlist")).

(** The filter at the head of the import loop (lines 447 to 450). *)
Definition is_import_candidate (env : Staging) (rel : Path) : bool :=
  is_file env rel
  && existsb (str_eqb (lower (suffix (path_name rel)))) SUPPORTED_IMPORT_SUFFIXES.

Definition is_regular (e : Path * node) : bool := bool_decide (snd e = RegularFile).

Definition is_moved (a : ImportAction) : bool := bool_decide (a_status a = moved).

(** A staged file with its three tags, dropped into the staging
    directory of the playlist [Road Trip]. *)
Definition tagged_new_song : read_result :=
  ReadOk (Some (PlainStr (lit "Artist A"))) (Some (TextFrame [lit "New Song"]))
         (Some (PlainStr (lit "Best Of"))).

Definition staged_new_song : Path :=
  [PLAYLIST_STAGE_FOLDER; lit "Road Trip"; lit "new song.mp3"].

(** The lookup table of the staging directories for the manifest file
    [Road_Trip.csv]. *)
Definition road_trip_lookup : gmap Path str :=
  build_staging_lookup latin1_table [lit "Road_Trip"].

(** A scanner over two files with tags, and one whose artist frame has
    an empty text list. *)
Definition tagged_scanner : Scanner :=
  {| scan_is_file := fun _ => true;
     scan_read := fun _ => tagged_new_song;
     scan_duration_ms := fun _ => Some 200000 |}.

Definition empty_frame_scanner : Scanner :=
  {| scan_is_file := fun _ => true;
     scan_read := fun _ => ReadOk (Some (TextFrame [])) None None;
     scan_duration_ms := fun _ => None |}.

(** The tags that make [text[0]] raise in the scanner. *)
Definition empty_frame (raw : option raw_tag) : bool :=
  match raw with Some (TextFrame []) => true | _ => false end.

(** * Properties *)

(** ** Characters *)

Ltac char_facts :=
  intros;
  unfold lower_char, non_alnum, invalid_path_char in *;
  unfold is_lower, is_digit, is_upper, is_ascii in *;
  repeat match goal with
  | H : context [N.leb ?a ?b] |- _ => destruct (N.leb_spec a b)
  | |- context [N.leb ?a ?b] => destruct (N.leb_spec a b)
  | H : context [N.ltb ?a ?b] |- _ => destruct (N.ltb_spec a b)
  | |- context [N.ltb ?a ?b] => destruct (N.ltb_spec a b)
  | H : context [N.eqb ?a ?b] |- _ => destruct (N.eqb_spec a b)
  | |- context [N.eqb ?a ?b] => destruct (N.eqb_spec a b)
  end;
  simpl in *; try congruence; try lia.

Lemma key_char_ascii c : key_char c = true -> is_ascii c = true.
Proof. unfold key_char. char_facts. Qed.

Lemma key_char_lower c : key_char c = true -> lower_char c = c.
Proof. unfold key_char. char_facts. Qed.

Lemma key_char_not_paren c : key_char c = true -> (lower_char c =? 40)%N = false.
Proof. unfold key_char. char_facts. Qed.

Lemma key_char_not_hyphen c : key_char c = true -> (c =? 45)%N = false.
Proof. unfold key_char. char_facts. Qed.

Lemma alnum_range c :
  non_alnum c = false -> (48 <= c <= 57 \/ 97 <= c <= 122)%N.
Proof. char_facts. Qed.

Lemma is_space_false c :
  (32 < c < 133)%N -> is_space c = false.
Proof.
  intros H. unfold is_space.
  rewrite !orb_false_iff, !andb_false_iff, !N.leb_gt, !N.eqb_neq. lia.
Qed.

Lemma alnum_not_space c : non_alnum c = false -> is_space c = false.
Proof. intros H. apply is_space_false. apply alnum_range in H. lia. Qed.

Lemma alnum_not_32 c : non_alnum c = false -> (c =? 32)%N = false.
Proof. char_facts. Qed.

(** ** Canonical keys *)

Lemma non_alnum_32 : non_alnum 32 = true.
Proof. reflexivity. Qed.

Lemma sub_runs_from_spaced s : forall b,
  spaced b (sub_runs_from non_alnum (lit " ") b s).
Proof.
  induction s as [|c t IH]; intros b; simpl; [exact I|].
  destruct (non_alnum c) eqn:Hc.
  - destruct b; [apply IH|]. simpl. split; [reflexivity | apply IH].
  - simpl. rewrite (alnum_not_32 c Hc). split; [exact Hc | apply IH].
Qed.

Lemma spaced_key_chars s : forall b, spaced b s -> Forall (fun c => key_char c = true) s.
Proof.
  induction s as [|c t IH]; intros b H; [constructor|].
  simpl in H. destruct (c =? 32)%N eqn:Hc.
  - destruct H as [_ H]. constructor; [unfold key_char; rewrite Hc; reflexivity | eauto].
  - destruct H as [Hn H].
    constructor; [unfold key_char; rewrite Hn; apply orb_true_r | eauto].
Qed.

Lemma spaced_weaken s : spaced true s -> spaced false s.
Proof.
  destruct s as [|c t]; simpl; [trivial|].
  destruct (c =? 32)%N; [intros [? _]; discriminate | trivial].
Qed.

Lemma spaced_any s b : spaced b s -> spaced false s.
Proof. destruct b; [apply spaced_weaken | trivial]. Qed.

Lemma spaced_non_alnum_fixed s : forall b,
  spaced b s -> sub_runs_from non_alnum (lit " ") b s = s.
Proof.
  induction s as [|c t IH]; intros b H; simpl; [reflexivity|].
  simpl in H. destruct (c =? 32)%N eqn:Hc.
  - apply N.eqb_eq in Hc. subst c. destruct H as [-> H].
    rewrite non_alnum_32. simpl. f_equal. apply IH, H.
  - destruct H as [Hn H]. rewrite Hn. f_equal. apply IH, H.
Qed.

Lemma spaced_space_fixed s : forall b,
  spaced b s -> sub_runs_from is_space (lit " ") b s = s.
Proof.
  induction s as [|c t IH]; intros b H; simpl; [reflexivity|].
  simpl in H. destruct (c =? 32)%N eqn:Hc.
  - apply N.eqb_eq in Hc. subst c. destruct H as [-> H].
    simpl. f_equal. apply IH, H.
  - destruct H as [Hn H]. rewrite (alnum_not_space c Hn). f_equal. apply IH, H.
Qed.

Lemma spaced_true_lstrip s : spaced true s -> lstrip s = s.
Proof.
  destruct s as [|c t]; simpl; [reflexivity|].
  destruct (c =? 32)%N; [intros [? _]; discriminate|].
  intros [Hn _]. rewrite (alnum_not_space c Hn). reflexivity.
Qed.

Lemma spaced_lstrip s b : spaced b s -> spaced true (lstrip s).
Proof.
  destruct s as [|c t]; simpl; [trivial|].
  destruct (c =? 32)%N eqn:Hc.
  - apply N.eqb_eq in Hc. subst c. intros [_ H]. simpl.
    rewrite (spaced_true_lstrip t H). exact H.
  - intros [Hn H]. rewrite (alnum_not_space c Hn). simpl. rewrite Hc. auto.
Qed.

Lemma spaced_rstrip s : forall b, spaced b s -> spaced b (rstrip s).
Proof.
  induction s as [|c t IH]; intros b H; simpl; [exact I|].
  simpl in H. destruct (c =? 32)%N eqn:Hc.
  - destruct H as [Hb H]. specialize (IH true H).
    destruct (rstrip t) as [|d r] eqn:Hr.
    + apply N.eqb_eq in Hc. subst c. simpl. exact I.
    + simpl. rewrite Hc. split; [exact Hb | exact IH].
  - destruct H as [Hn H]. specialize (IH false H).
    destruct (rstrip t) as [|d r] eqn:Hr.
    + rewrite (alnum_not_space c Hn). simpl. rewrite Hc. auto.
    + simpl. rewrite Hc. split; [exact Hn | exact IH].
Qed.

Lemma rstrip_idempotent s : rstrip (rstrip s) = rstrip s.
Proof.
  induction s as [|c t IH]; simpl; [reflexivity|].
  destruct (rstrip t) as [|d r] eqn:Hr.
  - destruct (is_space c) eqn:Hc; simpl; [reflexivity | rewrite Hc; reflexivity].
  - change (rstrip (c :: d :: r))
      with (match rstrip (d :: r) with
            | [] => if is_space c then [] else [c]
            | x :: r0 => c :: x :: r0
            end).
    rewrite IH. reflexivity.
Qed.

Lemma key_strip s : is_key s -> strip s = s.
Proof.
  intros [H1 H2]. unfold strip. rewrite (spaced_true_lstrip s H1). exact H2.
Qed.

Section KeyFacts.
Variable unidecode_table : N -> str.

Lemma unidecode_ascii_fixed s :
  Forall (fun c => is_ascii c = true) s -> unidecode unidecode_table s = s.
Proof.
  induction 1 as [|c t Hc _ IH]; simpl; [reflexivity|].
  rewrite Hc. simpl. f_equal. exact IH.
Qed.

Lemma feat_sub_fixed s :
  Forall (fun c => (lower_char c =? 40)%N = false) s ->
  re_sub FEAT_PATTERN [] s = s.
Proof.
  unfold re_sub. induction 1 as [|c t Hc _ IH]; simpl; [reflexivity|].
  unfold FEAT_PATTERN. simpl. rewrite Hc. f_equal. exact IH.
Qed.

Lemma remix_sub_fixed s :
  Forall (fun c => (c =? 45)%N = false) s ->
  re_sub REMIX_PATTERN [] s = s.
Proof.
  unfold re_sub. induction 1 as [|c t Hc _ IH]; simpl; [reflexivity|].
  rewrite Hc. f_equal. exact IH.
Qed.

Lemma lower_fixed s :
  Forall (fun c => lower_char c = c) s -> lower s = s.
Proof.
  induction 1 as [|c t Hc _ IH]; simpl; [reflexivity|].
  rewrite Hc. f_equal. exact IH.
Qed.

(** The result of [canonicalize_string] is a key. *)
Lemma canonicalize_is_key value : is_key (canonicalize_string unidecode_table value).
Proof.
  assert (Hnil : is_key []) by (split; [exact I | reflexivity]).
  destruct value as [[|c v]|]; try exact Hnil.
  unfold canonicalize_string.
  set (u := lower _).
  assert (Hs : spaced true (strip (NON_ALNUM_sub (lit " ") u))).
  { unfold strip. apply spaced_rstrip.
    eapply spaced_lstrip. apply sub_runs_from_spaced. }
  unfold sub_runs. rewrite (spaced_space_fixed _ false (spaced_weaken _ Hs)).
  split; [exact Hs|]. unfold strip. apply rstrip_idempotent.
Qed.

(** A key is a fixed point of [canonicalize_string]. *)
Lemma canonicalize_key_fixed s :
  is_key s -> canonicalize_string unidecode_table (Some s) = s.
Proof.
  intros Hk. destruct s as [|c t]; [reflexivity|].
  unfold canonicalize_string. set (s := c :: t) in *.
  pose proof (spaced_key_chars s true (proj1 Hk)) as Hc.
  rewrite unidecode_ascii_fixed
    by (eapply List.Forall_impl; [|exact Hc]; apply key_char_ascii).
  rewrite feat_sub_fixed
    by (eapply List.Forall_impl; [|exact Hc]; apply key_char_not_paren).
  rewrite remix_sub_fixed
    by (eapply List.Forall_impl; [|exact Hc]; apply key_char_not_hyphen).
  rewrite lower_fixed
    by (eapply List.Forall_impl; [|exact Hc]; apply key_char_lower).
  unfold NON_ALNUM_sub, sub_runs.
  rewrite (spaced_non_alnum_fixed s false (spaced_weaken _ (proj1 Hk))).
  rewrite (key_strip s Hk).
  apply spaced_space_fixed, spaced_weaken, Hk.
Qed.

(** C4: canonicalization is idempotent,
    [canonicalize(canonicalize(x)) == canonicalize(x)] for every string
    [x]. *)
Theorem canonicalize_idempotent (x : str) :
  canonicalize_string unidecode_table
    (Some (canonicalize_string unidecode_table (Some x)))
  = canonicalize_string unidecode_table (Some x).
Proof. apply canonicalize_key_fixed, canonicalize_is_key. Qed.

End KeyFacts.

(** ** The matcher *)

Lemma merge_left_empty_library s : merge_left s [] = List.map unmatched_row s.
Proof. induction s as [|m s IH]; simpl; [reflexivity | f_equal; exact IH]. Qed.

Lemma mask_and_le_1 dt mask d : Z.b2z (mask_and dt mask d) <= 1.
Proof. destruct (mask_and dt mask d); simpl; lia. Qed.

(** With a tolerance of one millisecond or more the comparison of line
    206 is false in every row: the Boolean conjunction is at most 1.  The
    matcher is then the plain join. *)
Lemma match_tracks_plain_join s l tolerance :
  1 <= tolerance -> match_tracks s l tolerance = merge_left s l.
Proof.
  intros Htol. unfold match_tracks.
  destruct s as [|m s]; [reflexivity|].
  destruct l as [|i l]; [symmetry; apply merge_left_empty_library|].
  rewrite <- (map_id (merge_left _ _)) at 2.
  apply map_ext. intros r. unfold mismatched_cell.
  match goal with
  | |- context [Z.b2z (mask_and ?dt ?mask ?d)] => pose proof (mask_and_le_1 dt mask d) as Hle
  end.
  match goal with
  | |- context [?a >? ?b] => destruct (Z.gtb_spec a b); [lia | reflexivity]
  end.
Qed.

(** C1 (the code departs from the claim): a joined row whose manifest
    duration is 200000 ms and whose local duration is 210000 ms differs by
    more than the default tolerance of 3000 ms, so the claim has it
    rejected; the matcher returns it with its file path and local
    duration in place, as it does at a tolerance of 15000 ms. *)
Theorem match_tracks_keeps_mismatched_duration :
  spec_rejects DURATION_TOLERANCE_MS
    (m_Duration_ms manifest_200) (lib_duration_ms inventory_210) = true
  /\ match_tracks [manifest_200] [inventory_210] DURATION_TOLERANCE_MS
     = [joined_row manifest_200 inventory_210]
  /\ List.map mr_file_path
       (match_tracks [manifest_200] [inventory_210] DURATION_TOLERANCE_MS)
     = [Some (lit "Artist A/Song One.mp3")]
  /\ List.map mr_duration_ms_local
       (match_tracks [manifest_200] [inventory_210] DURATION_TOLERANCE_MS)
     = [Some 210000]
  /\ match_tracks [manifest_200] [inventory_210] 15000
     = [joined_row manifest_200 inventory_210].
Proof.
  split; [reflexivity|].
  rewrite !match_tracks_plain_join by (unfold DURATION_TOLERANCE_MS; lia).
  repeat split.
Qed.


Lemma merge_left_manifest s l :
  List.map mr_manifest (merge_left s l)
  = flat_map (fun m => repeat m (Nat.max 1 (List.length (List.filter (same_key m) l)))) s.
Proof.
  induction s as [|m s IH]; simpl; [reflexivity|].
  rewrite List.map_app, IH. f_equal.
  destruct (List.filter (same_key m) l) as [|i ls]; [reflexivity|].
  simpl. f_equal. clear. induction ls as [|x ls IH]; simpl; [reflexivity | f_equal; exact IH].
Qed.

Lemma match_tracks_pointwise s l tolerance :
  Forall2 (fun r r0 => r = r0 \/ r = clear_match r0)
    (match_tracks s l tolerance) (merge_left s l).
Proof.
  unfold match_tracks. destruct s as [|m s]; [constructor|].
  destruct l as [|i l].
  - rewrite merge_left_empty_library. apply Forall2_same_length_lookup_2.
    + reflexivity.
    + intros ? ? ? H1 H2. left. congruence.
  - generalize (merge_left (m :: s) (i :: l)). intros merged.
    induction merged as [|r merged IH]; simpl; constructor; [|exact IH].
    destruct (mismatched_cell _ _ r); auto.
Qed.

Lemma match_tracks_manifest_rows s l tolerance :
  List.map mr_manifest (match_tracks s l tolerance)
  = flat_map (fun m => repeat m (Nat.max 1 (List.length (List.filter (same_key m) l)))) s.
Proof.
  rewrite <- merge_left_manifest.
  pose proof (match_tracks_pointwise s l tolerance) as H.
  induction H as [|r r0 rs rs0 Hr _ IH]; simpl; [reflexivity|].
  f_equal; [|exact IH]. destruct Hr as [-> | ->]; reflexivity.
Qed.




(** ** Sorting and grouping *)

Section SortingFacts.
Context {A : Type}.
Variable leb : A -> A -> bool.

Lemma insert_sorted_perm x l : Permutation (insert_sorted leb x l) (x :: l).
Proof.
  induction l as [|y t IH]; simpl; [reflexivity|].
  destruct (leb x y); [reflexivity|].
  rewrite IH. apply perm_swap.
Qed.

Lemma sort_by_perm l : Permutation (sort_by leb l) l.
Proof.
  induction l as [|x t IH]; simpl; [reflexivity|].
  rewrite insert_sorted_perm. constructor. exact IH.
Qed.

Lemma In_sort_by x l : In x (sort_by leb l) <-> In x l.
Proof.
  split; apply Permutation_in; [|symmetry]; apply sort_by_perm.
Qed.
End SortingFacts.

Lemma In_sorted_distinct `{EqDecision K} (leb : K -> K -> bool) (x : K) (l : list K) :
  In x (sorted_distinct leb l) <-> In x l.
Proof.
  unfold sorted_distinct. rewrite In_sort_by.
  rewrite <- !list_elem_of_In. apply elem_of_remove_dups.
Qed.

Lemma In_groupby `{EqDecision K} {R : Type} (leb : K -> K -> bool) (col : R -> K)
    (df : list R) (g : K * list R) :
  In g (groupby leb col df)
  <-> (exists r, In r df /\ col r = fst g)
      /\ snd g = List.filter (fun r => bool_decide (col r = fst g)) df.
Proof.
  unfold groupby. rewrite in_map_iff. split.
  - intros (k & <- & Hk). simpl. split; [|reflexivity].
    apply In_sorted_distinct, in_map_iff in Hk. destruct Hk as (r & <- & Hr). eauto.
  - intros ((r & Hr & Hk) & Hs). exists (fst g). split.
    + destruct g; simpl in *; congruence.
    + apply In_sorted_distinct, in_map_iff. eauto.
Qed.

(** ** The reporters *)

Lemma In_shopping_keys (matched_df : list MatchedRecord) (k : key) :
  In k (shopping_keys matched_df)
  <-> exists r, In r matched_df /\ mr_file_path r = None /\ mr_key r = k.
Proof.
  unfold shopping_keys, grouped_missing. rewrite List.map_map.
  change (fun x => g_key (aggregate x)) with (@fst key (list MatchedRecord)).
  unfold groupby. rewrite List.map_map. simpl. rewrite List.map_id.
  rewrite In_sorted_distinct, in_map_iff. unfold missing_rows.
  split.
  - intros (r & Hk & Hr). apply filter_In in Hr. destruct Hr as [Hr Hf].
    exists r. repeat split; trivial. destruct (mr_file_path r); [discriminate | reflexivity].
  - intros (r & Hr & Hf & Hk). exists r. split; [exact Hk|].
    apply filter_In. split; [exact Hr|]. rewrite Hf. reflexivity.
Qed.

Lemma In_playlist_keys (matched_df : list MatchedRecord) (k : key) :
  k ∈ playlist_keys matched_df <-> exists r, In r matched_df /\ mr_key r = k.
Proof.
  unfold playlist_keys. rewrite elem_of_list_to_set, list_elem_of_In, in_map_iff.
  split; intros (r & H1 & H2); eauto.
Qed.

Lemma match_tracks_covers_manifest s l tolerance m :
  In m s -> exists r, In r (match_tracks s l tolerance) /\ mr_manifest r = m.
Proof.
  intros Hm.
  assert (H : In m (List.map mr_manifest (match_tracks s l tolerance))).
  { rewrite match_tracks_manifest_rows. apply in_flat_map.
    exists m. split; [exact Hm|].
    destruct (List.length (List.filter (same_key m) l)); simpl; auto. }
  apply in_map_iff in H. destruct H as (r & H1 & H2). eauto.
Qed.

(** C6, as stated, fails: with two local files of one key, one of the
    same duration as the manifest and one a millisecond longer, and a
    tolerance of 0, the second row is rejected and the first accepted:
    the key is in the shopping list and has an accepted match. *)
Lemma shopping_key_with_accepted_match :
  let out := match_tracks [manifest_200] [inventory_200; inventory_200001] 0 in
  In (m_key manifest_200) (shopping_keys out)
  /\ exists r, In r out /\ mr_key r = m_key manifest_200
               /\ mr_file_path r = Some (lib_file_path inventory_200).
Proof.
  split.
  - vm_compute. left. reflexivity.
  - exists (joined_row manifest_200 inventory_200). vm_compute. auto.
Qed.

(** C6, amended: a key is in the shopping list exactly when some row of
    the matcher output with that key has no resolved file (another row of
    the key may still be accepted), and no key of the orphan list is the
    key of a manifest record. *)
Theorem shopping_and_orphan_keys (s : list ManifestRecord) (l : list InventoryRecord)
    (tolerance : Z) :
  (forall k, In k (shopping_keys (match_tracks s l tolerance))
     <-> exists r, In r (match_tracks s l tolerance)
                   /\ mr_file_path r = None /\ mr_key r = k)
  /\ (forall o m, In o (orphaned (match_tracks s l tolerance) l) ->
                  In m s -> lib_key o <> m_key m)
  /\ build_orphaned_tracks (match_tracks s l tolerance) l
     = List.map orphan_columns (orphaned (match_tracks s l tolerance) l).
Proof.
  split; [intros k; apply In_shopping_keys|]. split; [|reflexivity].
  intros o m Ho Hm Heq. unfold orphaned in Ho. apply filter_In in Ho.
  destruct Ho as [_ Ho]. apply bool_decide_eq_true in Ho. apply Ho.
  apply In_playlist_keys.
  destruct (match_tracks_covers_manifest s l tolerance m Hm) as (r & Hr & Hrm).
  exists r. split; [exact Hr|]. unfold mr_key. rewrite Hrm. symmetry. exact Heq.
Qed.

Lemma shopping_and_orphan_keys_witness :
  In inventory_other
     (orphaned (match_tracks [manifest_200] [inventory_200; inventory_other] 3000)
               [inventory_200; inventory_other])
  /\ In manifest_200 [manifest_200]
  /\ lib_key inventory_other <> m_key manifest_200.
Proof.
  assert (H1 : In inventory_other
     (orphaned (match_tracks [manifest_200] [inventory_200; inventory_other] 3000)
               [inventory_200; inventory_other])) by (vm_compute; auto).
  assert (H2 : In manifest_200 [manifest_200]) by (left; reflexivity).
  split; [exact H1|]. split; [exact H2|].
  exact (proj1 (proj2 (shopping_and_orphan_keys [manifest_200]
                         [inventory_200; inventory_other] 3000))
           inventory_other manifest_200 H1 H2).
Defined.

(** *** Statistics *)






(** ** The exporter *)

Lemma line_count_app a b : line_count (a ++ b) = (line_count a + line_count b)%nat.
Proof. unfold line_count. rewrite List.filter_app, List.length_app. reflexivity. Qed.

Lemma line_count_cons c t :
  line_count (c :: t) = ((if (c =? 10)%N then 1 else 0) + line_count t)%nat.
Proof. unfold line_count. simpl. destruct (c =? 10)%N; reflexivity. Qed.

Lemma line_count_replace_char old new s :
  (old =? 10)%N = false -> line_count new = O ->
  line_count (replace_char old new s) = line_count s.
Proof.
  intros Ho Hn. induction s as [|c t IH]; [reflexivity|].
  change (replace_char old new (c :: t))
    with ((if (c =? old)%N then new else [c]) ++ replace_char old new t).
  rewrite line_count_app, IH, line_count_cons.
  destruct (c =? old)%N eqn:Hc.
  - apply N.eqb_eq in Hc. subst c. rewrite Hn, Ho. reflexivity.
  - rewrite line_count_cons. change (line_count []) with O. lia.
Qed.

Lemma line_count_lstrip_slash s : line_count (lstrip_slash s) = line_count s.
Proof.
  induction s as [|c t IH]; [reflexivity|]. simpl.
  destruct (c =? 47)%N eqn:Hc; [|reflexivity].
  apply N.eqb_eq in Hc. subst c. rewrite IH, line_count_cons. reflexivity.
Qed.

Lemma line_count_skipn n s : line_count s = O -> line_count (skipn n s) = O.
Proof.
  revert s. induction n as [|n IH]; intros s H; [exact H|].
  destruct s as [|c t]; [reflexivity|]. simpl. apply IH.
  rewrite line_count_cons in H. lia.
Qed.

Lemma line_count_uint d : line_count (lit (NilEmpty.string_of_uint d)) = O.
Proof. induction d; simpl; trivial. Qed.

Lemma line_count_str_of_Z n : line_count (str_of_Z n) = O.
Proof.
  unfold str_of_Z, NilZero.string_of_int, NilZero.string_of_uint.
  destruct (Z.to_int n) as [d|d]; [|destruct d; simpl; try apply line_count_uint; reflexivity].
  destruct d; simpl; try apply line_count_uint; reflexivity.
Qed.

Lemma line_free_str_or a b : line_free a -> line_free b -> line_free (str_or a b).
Proof. destruct a; simpl; auto. Qed.

Lemma extinf_line_count r : row_line_free r -> line_count (extinf_line r) = 1%nat.
Proof.
  intros (Ha & Hn & Ht & _). unfold extinf_line.
  rewrite !line_count_app, line_count_str_of_Z.
  rewrite (line_free_str_or _ _ Ha (line_free_str_or _ (lit "Unknown Artist") Hn eq_refl)).
  rewrite (line_free_str_or _ (lit "Unknown Title") Ht eq_refl).
  reflexivity.
Qed.

Lemma normalized_rel_line_free music p : line_free p -> line_free (normalized_rel music p).
Proof.
  intros Hp. unfold normalized_rel, line_free.
  assert (H : line_count (lstrip_slash (replace_char 92 (lit "/") p)) = O).
  { rewrite line_count_lstrip_slash, line_count_replace_char; auto. }
  destruct (startswith _ _); [apply line_count_skipn|]; exact H.
Qed.

Lemma path_line_count music p :
  line_free music -> line_free p -> line_count (path_line music p) = 1%nat.
Proof.
  intros Hm Hp. unfold path_line.
  rewrite !line_count_app, Hm, (normalized_rel_line_free music p Hp). reflexivity.
Qed.

Lemma resolved_rows_cons r g :
  resolved_rows (r :: g)
  = match mr_file_path r with
    | Some p => (r, p) :: resolved_rows g
    | None => resolved_rows g
    end.
Proof. unfold resolved_rows. simpl. destruct (mr_file_path r); reflexivity. Qed.

Lemma playlist_content_resolved music group :
  playlist_content music group
  = lit "#EXTM3U" ++ newline
    ++ concat (List.map (fun rp => extinf_line (fst rp) ++ path_line music (snd rp))
                        (resolved_rows group)).
Proof.
  unfold playlist_content. do 2 f_equal.
  induction group as [|r g IH]; [reflexivity|].
  rewrite resolved_rows_cons. cbn [flat_map]. rewrite IH. unfold track_entry.
  destruct (mr_file_path r); reflexivity.
Qed.

Lemma resolved_rows_length group : List.length (resolved_rows group) = written_count group.
Proof.
  induction group as [|r g IH]; [reflexivity|].
  rewrite resolved_rows_cons. unfold written_count in *. cbn [List.filter].
  destruct (mr_file_path r); simpl; rewrite IH; reflexivity.
Qed.

Lemma entries_line_count music group :
  line_free music ->
  (forall r, In r group -> is_present (mr_file_path r) = true -> row_line_free r) ->
  line_count (flat_map (track_entry music) group) = (2 * written_count group)%nat.
Proof.
  intros Hm. unfold written_count.
  induction group as [|r g IH]; intros Hg; [reflexivity|].
  cbn [flat_map List.filter]. rewrite line_count_app, IH by (intros; apply Hg; [right|]; trivial).
  unfold track_entry. pose proof (Hg r (or_introl eq_refl)) as Hr.
  destruct (mr_file_path r) as [p|] eqn:Hp; cbn [is_present List.length]; [|reflexivity].
  specialize (Hr eq_refl).
  rewrite line_count_app, (extinf_line_count r Hr), (path_line_count music p Hm).
  - lia.
  - apply Hr. exact Hp.
Qed.

Lemma written_missing_count group :
  List.length group = (written_count group + missing_count group)%nat.
Proof.
  unfold written_count, missing_count.
  induction group as [|r g IH]; [reflexivity|]. simpl.
  destruct (is_present (mr_file_path r)); simpl; lia.
Qed.

(** C8, as stated, fails: a title that holds a line feed makes the entry
    of its row three lines long; the file of a playlist with one resolved
    row then has four lines, not three. *)
Lemma export_line_count_fails :
  let df := match_tracks [manifest_two_lines] [inventory_200] 3000 in
  let out := export_playlists latin1_table df (lit "Playlists") (lit "Music") in
  written_count df = 1%nat
  /\ exists content,
       files_written out = [(lit "Road Trip.m3u8", content)]
       /\ line_count content = 4%nat.
Proof. split; [reflexivity|]. eexists. split; vm_compute; reflexivity. Qed.

(** C8, amended: for every playlist group of the matcher output in which
    the artist, title and path texts of the rows with a resolved file (and
    the music folder name) hold no line feed, the file written for the
    group is the header line followed, for
    each row with a resolved file in turn, by one metadata line and one
    path line: [1 + 2 * M] lines for [M] resolved rows.  The rows without
    a file are skipped and counted, and a row without any duration has -1
    in its metadata line. *)
Theorem export_playlist_lines (unidecode_table : N -> str)
    (matched_df : list MatchedRecord) (export_dir_name music_folder_name : str)
    (name : str) (group : list MatchedRecord) :
  In (name, group)
     (groupby str_leb (fun r => m_playlist_name (mr_manifest r)) matched_df) ->
  line_free music_folder_name ->
  (forall r, In r group -> is_present (mr_file_path r) = true -> row_line_free r) ->
  In (playlist_file_name unidecode_table name, playlist_content music_folder_name group)
     (files_written (export_playlists unidecode_table matched_df
                       export_dir_name music_folder_name))
  /\ playlist_content music_folder_name group
     = lit "#EXTM3U" ++ newline
       ++ concat (List.map (fun rp => extinf_line (fst rp)
                                      ++ path_line music_folder_name (snd rp))
                           (resolved_rows group))
  /\ List.length (resolved_rows group) = written_count group
  /\ line_count (playlist_content music_folder_name group)
     = (1 + 2 * written_count group)%nat
  /\ List.length group = (written_count group + missing_count group)%nat
  /\ (forall r, In r group ->
        m_Duration_ms (mr_manifest r) = None -> mr_duration_ms_local r = None ->
        exists rest, extinf_line r = lit "#EXTINF:-1," ++ rest).
Proof.
  intros Hg Hm Hrows. repeat split.
  - unfold export_playlists. cbn [files_written].
    apply in_map_iff. exists (name, group). split; [reflexivity | exact Hg].
  - apply playlist_content_resolved.
  - apply resolved_rows_length.
  - unfold playlist_content. rewrite !line_count_app.
    rewrite (entries_line_count _ _ Hm Hrows). reflexivity.
  - apply written_missing_count.
  - intros r _ H1 H2. unfold extinf_line, duration_seconds. rewrite H1, H2.
    eexists. change (str_of_Z (-1)) with (lit "-1").
    change (lit "#EXTINF:-1,") with (lit "#EXTINF:" ++ lit "-1" ++ lit ",").
    rewrite <- !app_assoc. reflexivity.
Qed.

Lemma export_playlist_lines_witness :
  In (lit "Road Trip", stats_example)
     (groupby str_leb (fun r => m_playlist_name (mr_manifest r)) stats_example)
  /\ line_count (playlist_content (lit "Music") stats_example) = 3%nat.
Proof.
  assert (Hg : In (lit "Road Trip", stats_example)
     (groupby str_leb (fun r => m_playlist_name (mr_manifest r)) stats_example))
    by (vm_compute; left; reflexivity).
  assert (Hm : line_free (lit "Music")) by reflexivity.
  assert (Hr : forall r, In r stats_example ->
                 is_present (mr_file_path r) = true -> row_line_free r).
  { intros r [<- | []] _. repeat split. intros p [= <-]. reflexivity. }
  split; [exact Hg|].
  exact (proj1 (proj2 (proj2 (proj2
           (export_playlist_lines latin1_table stats_example (lit "Playlists")
              (lit "Music") (lit "Road Trip") stats_example Hg Hm Hr))))).
Defined.



Lemma lower_length a : List.length (lower a) = List.length a.
Proof. apply List.length_map. Qed.




(** ** The import pipeline *)

Section ImportFacts.
Variable unidecode_table : N -> str.
Variable env : Staging.
Variable music_root : str.

Lemma find_duplicate_found entries canonical_title existing :
  In (existing, RegularFile) entries ->
  canonicalize_string unidecode_table (Some (stem (path_name existing))) = canonical_title ->
  exists conflict,
    find_duplicate unidecode_table entries canonical_title = Some conflict
    /\ In (conflict, RegularFile) entries
    /\ canonicalize_string unidecode_table (Some (stem (path_name conflict)))
       = canonical_title.
Proof.
  intros Hin Hcanon. unfold find_duplicate.
  destruct (List.find _ entries) as [[conflict kind]|] eqn:Hfind.
  - apply find_some in Hfind. destruct Hfind as [Hc Hp].
    apply andb_true_iff in Hp. destruct Hp as [Hk Hs]. unfold str_eqb in Hs.
    apply bool_decide_eq_true in Hk. apply bool_decide_eq_true in Hs.
    cbn [fst snd] in Hk, Hs. subst kind. exists conflict. auto.
  - exfalso. pose proof (find_none _ _ Hfind _ Hin) as Hp. cbn [fst snd] in Hp.
    unfold str_eqb in Hp.
    apply andb_false_iff in Hp. destruct Hp as [Hp | Hp].
    + apply bool_decide_eq_false in Hp. apply Hp. reflexivity.
    + apply bool_decide_eq_false in Hp. apply Hp. exact Hcanon.
Qed.

Lemma lib_is_dir_exists fs d : lib_is_dir fs d = true -> lib_exists fs d = true.
Proof.
  destruct d as [|x d]; [reflexivity|]. unfold lib_is_dir, lib_exists.
  rewrite !existsb_exists. intros (e & He & Hd). exists e. split; [exact He|].
  apply bool_decide_eq_true in Hd. apply bool_decide_eq_true. rewrite Hd. reflexivity.
Qed.

Lemma lib_iterdir_exists fs d entries :
  lib_iterdir fs d = Some entries -> lib_exists fs d = true.
Proof.
  unfold lib_iterdir. destruct (lib_is_dir fs d) eqn:Hd; [|discriminate].
  intros _. apply lib_is_dir_exists, Hd.
Qed.

(** C2, amended: a staged file that reaches the destination step, whose
    destination directory exists and lists a regular file whose stem
    has the canonical key of the incoming title, is left in place and
    the library is not touched; its record is [skipped_duplicate_title]
    with a reason that names a conflicting file of the listing, unless
    the exact destination path exists already, in which case the record
    is [skipped_exists]. *)
Theorem duplicate_title_is_skipped (staging_lookup : gmap Path str) (fs : Library)
    (rel : Path) (artist_tag title_tag album_tag : option raw_tag)
    (entries : list (Path * node)) (existing : Path) :
  let artist_value := artist_fallback (tag_value artist_tag) (rel_parent_parts rel) in
  let album_value := album_fallback (tag_value album_tag) (rel_parent_parts rel) in
  let title_value := title_fallback (tag_value title_tag) rel in
  let dest_dir := dest_dir_of unidecode_table artist_value album_value in
  let dest_path := dest_path_of unidecode_table rel artist_value album_value title_value in
  is_file env rel = true ->
  existsb (str_eqb (lower (suffix (path_name rel)))) SUPPORTED_IMPORT_SUFFIXES = true ->
  path_exists env rel = true ->
  MutagenFile env rel = ReadOk artist_tag title_tag album_tag ->
  truthy artist_value = true ->
  truthy album_value = true ->
  truthy title_value = true ->
  lib_iterdir fs dest_dir = Some entries ->
  In (existing, RegularFile) entries ->
  canonicalize_string unidecode_table (Some (stem (path_name existing)))
  = canonicalize_string unidecode_table title_value ->
  exists action,
    process_file unidecode_table env music_root staging_lookup fs rel
    = Recorded action fs
    /\ a_destination action = None
    /\ (lib_exists fs dest_path = true ->
        a_status action = skipped_exists
        /\ a_reason action
           = Some (lit "Destination already exists: " ++ show_path music_root dest_path))
    /\ (lib_exists fs dest_path = false ->
        a_status action = skipped_duplicate_title
        /\ exists conflict,
             In (conflict, RegularFile) entries
             /\ canonicalize_string unidecode_table (Some (stem (path_name conflict)))
                = canonicalize_string unidecode_table title_value
             /\ a_reason action
                = Some (lit "Similar track already present: "
                        ++ show_path music_root conflict)).
Proof.
  intros artist_value album_value title_value dest_dir dest_path
    Hfile Hsuffix Hexists Hread Hartist Halbum Htitle Hlist Hin Hcanon.
  destruct (find_duplicate_found entries _ existing Hin Hcanon)
    as (conflict & Hfind & Hcin & Hccanon).
  unfold process_file. rewrite Hfile, Hsuffix, Hexists, Hread. cbn [negb].
  fold artist_value album_value title_value.
  rewrite Hartist, Halbum, Htitle. cbn [negb].
  unfold place. fold dest_dir dest_path.
  rewrite (lib_iterdir_exists _ _ _ Hlist), Hlist. cbn [option_map].
  rewrite Hfind.
  destruct (lib_exists fs dest_path) eqn:Hdest.
  - eexists. split; [reflexivity|]. split; [reflexivity|].
    split; [intros _; split; reflexivity | discriminate].
  - eexists. split; [reflexivity|]. split; [reflexivity|].
    split; [discriminate|]. intros _. split; [reflexivity|].
    exists conflict. auto.
Qed.


(** A path that is no regular file any more when the loop reaches it
    leaves no record at all. *)
Lemma vanished_before_filter_is_skipped staging_lookup fs rel :
  is_file env rel = false ->
  process_file unidecode_table env music_root staging_lookup fs rel = Skipped.
Proof. intros H. unfold process_file. rewrite H. reflexivity. Qed.

End ImportFacts.

(** C2, as stated, fails: the destination directory holds [Song.mp3],
    the incoming file is [Song.mp3] too, its title has the canonical key
    [song], and the record is [skipped_exists]. *)
Lemma duplicate_title_claim_fails :
  lib_iterdir library_with_song [lit "Artist A"; lit "Best Of"]
  = Some [(song_mp3, RegularFile)]
  /\ canonicalize_string latin1_table (Some (stem (path_name song_mp3))) = lit "song"
  /\ canonicalize_string latin1_table
       (title_fallback (tag_value None) song_mp3) = lit "song"
  /\ exists action,
       process_file latin1_table (quiet_staging (ReadOk None None None))
         (lit "/repo/Music") ∅ library_with_song song_mp3
       = Recorded action library_with_song
       /\ a_status action = skipped_exists
       /\ a_status action <> skipped_duplicate_title.
Proof.
  repeat split; try (vm_compute; reflexivity).
  eexists. split; [vm_compute; reflexivity|]. split; [reflexivity | discriminate].
Qed.

Lemma duplicate_title_is_skipped_witness :
  lib_exists library_with_song
    (dest_path_of latin1_table song_flac (Some (lit "Artist A")) (Some (lit "Best Of"))
       (Some (lit "song"))) = false
  /\ exists action,
       process_file latin1_table (quiet_staging (ReadOk None None None))
         (lit "/repo/Music") ∅ library_with_song song_flac
       = Recorded action library_with_song
       /\ a_status action = skipped_duplicate_title.
Proof.
  assert (Hdest : lib_exists library_with_song
    (dest_path_of latin1_table song_flac (Some (lit "Artist A")) (Some (lit "Best Of"))
       (Some (lit "song"))) = false) by (vm_compute; reflexivity).
  split; [exact Hdest|].
  destruct (duplicate_title_is_skipped latin1_table (quiet_staging (ReadOk None None None))
              (lit "/repo/Music") ∅ library_with_song song_flac None None None
              [(song_mp3, RegularFile)] song_mp3
              eq_refl eq_refl eq_refl eq_refl eq_refl eq_refl eq_refl
              eq_refl (or_introl eq_refl) eq_refl)
    as (action & Hrun & _ & _ & Hdup).
  exists action. split; [exact Hrun | exact (proj1 (Hdup Hdest))].
Defined.


(** ** Keys as words *)

Lemma sub_runs_true_lstrip s :
  lstrip (sub_runs_from non_alnum (lit " ") false s)
  = sub_runs_from non_alnum (lit " ") true s.
Proof.
  destruct s as [|c t]; [reflexivity|]. simpl.
  destruct (non_alnum c) eqn:Hc.
  - simpl. apply spaced_true_lstrip, sub_runs_from_spaced.
  - simpl. rewrite (alnum_not_space c Hc). reflexivity.
Qed.

Lemma rstrip_cons_word c r : is_space c = false -> rstrip (c :: r) = c :: rstrip r.
Proof. intros Hc. simpl. destruct (rstrip r); [rewrite Hc|]; reflexivity. Qed.

Lemma words_alnum_head c t :
  non_alnum c = false -> words (c :: t) <> [].
Proof.
  intros Hc. simpl. rewrite Hc. destruct t as [|d t]; [discriminate|].
  destruct (non_alnum d); [discriminate|]. destruct (words (d :: t)); discriminate.
Qed.

Lemma words_not_empty s : Forall (fun w => w <> []) (words s).
Proof.
  induction s as [|c t IH]; [constructor|]. cbn [words].
  destruct (non_alnum c); [exact IH|].
  destruct t as [|d t]; [repeat constructor; discriminate|].
  destruct (non_alnum d); [constructor; [discriminate | exact IH]|].
  destruct (words (d :: t)) as [|w ws]; [repeat constructor; discriminate|].
  inversion IH; subst. constructor; [discriminate | assumption].
Qed.

Lemma join_words_head s w ws :
  words s = w :: ws -> exists c r, join (lit " ") (w :: ws) = c :: r.
Proof.
  intros H. pose proof (words_not_empty s) as Hne. rewrite H in Hne.
  inversion Hne as [|? ? Hw _]; subst.
  destruct w as [|c w]; [contradiction|].
  destruct ws; simpl; eauto.
Qed.

Lemma rstrip_sub_runs_words s :
  rstrip (sub_runs_from non_alnum (lit " ") true s) = join (lit " ") (words s).
Proof.
  induction s as [|c t IH]; [reflexivity|].
  cbn [sub_runs_from words]. destruct (non_alnum c) eqn:Hc; [exact IH|].
  rewrite (rstrip_cons_word c _ (alnum_not_space c Hc)).
  destruct t as [|d t]; [reflexivity|].
  cbn [sub_runs_from] in *. destruct (non_alnum d) eqn:Hd.
  - change (lit " " ++ ?x) with (32%N :: x). cbn [rstrip]. rewrite IH.
    cbn [words]. rewrite Hd.
    destruct (words t) as [|w ws] eqn:Hw; [reflexivity|].
    destruct (join_words_head t w ws Hw) as (e & r & He).
    change (join (lit " ") ([c] :: w :: ws))
      with (c :: 32%N :: join (lit " ") (w :: ws)).
    rewrite He. reflexivity.
  - rewrite IH. pose proof (words_alnum_head d t Hd) as Hne.
    destruct (words (d :: t)) as [|w ws]; [contradiction|].
    destruct ws; reflexivity.
Qed.

(** The key is the list of the words of that text, in lower case, joined
    by single spaces. *)
Lemma canonicalize_words (unidecode_table : N -> str) (x : str) :
  canonicalize_string unidecode_table (Some x)
  = join (lit " ") (words (lower (annotations_removed unidecode_table x))).
Proof.
  destruct x as [|c x]; [reflexivity|].
  unfold canonicalize_string. fold (annotations_removed unidecode_table (c :: x)).
  set (u := lower _).
  assert (Hk : strip (NON_ALNUM_sub (lit " ") u) = join (lit " ") (words u)).
  { unfold strip, NON_ALNUM_sub, sub_runs.
    rewrite sub_runs_true_lstrip. apply rstrip_sub_runs_words. }
  assert (Hs : spaced false (strip (NON_ALNUM_sub (lit " ") u))).
  { unfold strip. apply spaced_rstrip. eapply spaced_any, spaced_lstrip.
    apply sub_runs_from_spaced. }
  unfold sub_runs at 1. rewrite (spaced_space_fixed _ false Hs). exact Hk.
Qed.

(** ** Case *)

Lemma lower_char_idempotent c : lower_char (lower_char c) = lower_char c.
Proof. char_facts. Qed.

Lemma lower_char_eqb_fixed c d :
  lower_char d = d -> is_lower d = false ->
  (lower_char c =? d)%N = (c =? d)%N.
Proof. char_facts. Qed.

Lemma is_space_lower_char c : is_space (lower_char c) = is_space c.
Proof.
  unfold lower_char. destruct (is_upper c) eqn:Hu; [|reflexivity].
  assert (65 <= c <= 90)%N by (revert Hu; char_facts).
  rewrite !is_space_false by lia. reflexivity.
Qed.

Lemma match_literal_ci_lower p s :
  match_literal_ci p (lower s) = option_map lower (match_literal_ci p s).
Proof.
  revert s. induction p as [|pc p IH]; intros s; [reflexivity|].
  destruct s as [|c s]; [reflexivity|]. simpl.
  rewrite lower_char_idempotent. destruct (lower_char c =? pc)%N; [apply IH | reflexivity].
Qed.

Lemma lazy_until_close_lower s : lazy_until_close (lower s) = lazy_until_close s.
Proof.
  induction s as [|c s IH]; [reflexivity|]. simpl.
  rewrite !(lower_char_eqb_fixed c) by reflexivity. rewrite IH. reflexivity.
Qed.

Lemma FEAT_PATTERN_lower s : FEAT_PATTERN (lower s) = FEAT_PATTERN s.
Proof.
  unfold FEAT_PATTERN. rewrite match_literal_ci_lower.
  destruct (match_literal_ci feat_open s); [|reflexivity].
  simpl. rewrite lazy_until_close_lower. reflexivity.
Qed.

Lemma lstrip_lower s : lstrip (lower s) = lower (lstrip s).
Proof.
  induction s as [|c s IH]; [reflexivity|]. simpl.
  rewrite is_space_lower_char. destruct (is_space c); [exact IH | reflexivity].
Qed.

Lemma line_length_lower s : line_length (lower s) = line_length s.
Proof.
  induction s as [|c s IH]; [reflexivity|]. simpl.
  rewrite (lower_char_eqb_fixed c) by reflexivity. rewrite IH. reflexivity.
Qed.

Lemma remix_word_lower s : remix_word (lower s) = remix_word s.
Proof.
  unfold remix_word. induction remix_words as [|w ws IH]; [reflexivity|].
  simpl. rewrite IH, match_literal_ci_lower.
  destruct (match_literal_ci w s); reflexivity.
Qed.

Lemma REMIX_PATTERN_lower s : REMIX_PATTERN (lower s) = REMIX_PATTERN s.
Proof.
  destruct s as [|c s]; [reflexivity|]. simpl.
  rewrite (lower_char_eqb_fixed c) by reflexivity.
  destruct (c =? 45)%N; [|reflexivity].
  rewrite lstrip_lower, remix_word_lower, line_length_lower, !lower_length.
  reflexivity.
Qed.

Lemma re_sub_from_lower (pattern : str -> option nat) :
  (forall s, pattern (lower s) = pattern s) ->
  forall s k, re_sub_from pattern [] k (lower s) = lower (re_sub_from pattern [] k s).
Proof.
  intros Hp. induction s as [|c s IH]; intros k; [reflexivity|].
  change (lower (c :: s)) with (lower_char c :: lower s).
  cbn [re_sub_from]. destruct k as [|k]; [|apply IH].
  change (lower_char c :: lower s) with (lower (c :: s)). rewrite Hp.
  destruct (pattern (c :: s)) as [[|n]|]; simpl; rewrite IH; reflexivity.
Qed.

Lemma canonicalize_case (unidecode_table : N -> str) (x y : str) :
  lower (unidecode unidecode_table x) = lower (unidecode unidecode_table y) ->
  canonicalize_string unidecode_table (Some x)
  = canonicalize_string unidecode_table (Some y).
Proof.
  intros H. rewrite !canonicalize_words. unfold annotations_removed, re_sub.
  rewrite <- !(re_sub_from_lower _ REMIX_PATTERN_lower).
  rewrite <- !(re_sub_from_lower _ FEAT_PATTERN_lower). rewrite H. reflexivity.
Qed.

(** ** Substitution and concatenation *)

Section SubFacts.
Variable pattern : str -> option nat.

Lemma re_sub_from_all s : re_sub_from pattern [] (List.length s) s = [].
Proof. induction s as [|c s IH]; [reflexivity | exact IH]. Qed.

Lemma re_sub_from_skip p s :
  re_sub_from pattern [] (List.length p) (p ++ s) = re_sub_from pattern [] O s.
Proof.
  induction p as [|c p IH]; [reflexivity|]. simpl. exact IH.
Qed.

Lemma re_sub_whole_match m s :
  m <> [] -> pattern (m ++ s) = Some (List.length m) ->
  re_sub pattern [] (m ++ s) = re_sub pattern [] s.
Proof.
  destruct m as [|c p]; [contradiction|]. intros _ H.
  unfold re_sub. cbn [re_sub_from app] in *. rewrite H. simpl.
  apply re_sub_from_skip.
Qed.

(** A prefix in which no match can begin is copied. *)
Lemma re_sub_inert_prefix a t :
  (forall a1 a2, a = a1 ++ a2 -> a2 <> [] -> pattern (a2 ++ t) = None) ->
  re_sub pattern [] (a ++ t) = a ++ re_sub pattern [] t.
Proof.
  unfold re_sub. induction a as [|c a IH]; intros H; [reflexivity|].
  pose proof (H [] (c :: a) eq_refl ltac:(discriminate)) as H0. cbn [app] in H0.
  cbn [re_sub_from app]. rewrite H0.
  f_equal. apply IH. intros a1 a2 -> Hne. apply (H (c :: a1) a2 eq_refl Hne).
Qed.

(** A suffix that no match reaches and in which none begins is copied. *)
Section CopiedSuffix.
Variable us : str.
Hypothesis no_match_in_suffix : forall u1 u2, us = u1 ++ u2 -> pattern u2 = None.
Hypothesis none_stays : forall v, pattern v = None -> pattern (v ++ us) = None.
Hypothesis some_stays : forall v n,
  pattern v = Some n -> (n <= List.length v)%nat /\ pattern (v ++ us) = Some n.

Lemma re_sub_suffix_fixed u1 u2 : us = u1 ++ u2 -> re_sub_from pattern [] O u2 = u2.
Proof.
  revert u1. induction u2 as [|c u2 IH]; intros u1 H; [reflexivity|].
  cbn [re_sub_from]. rewrite (no_match_in_suffix u1 (c :: u2) H).
  f_equal. apply (IH (u1 ++ [c])). rewrite <- app_assoc. exact H.
Qed.

Lemma re_sub_from_copied_suffix v : forall k, (k <= List.length v)%nat ->
  re_sub_from pattern [] k (v ++ us) = re_sub_from pattern [] k v ++ us.
Proof.
  induction v as [|c v IH]; intros k Hk.
  - assert (k = O) by (simpl in Hk; lia). subst k.
    apply (re_sub_suffix_fixed [] us eq_refl).
  - cbn [re_sub_from app]. destruct k as [|k]; [|apply IH; simpl in Hk; lia].
    destruct (pattern (c :: v)) as [n|] eqn:Hp.
    + destruct (some_stays _ _ Hp) as [Hn Hs]. cbn [app] in Hs. rewrite Hs.
      destruct n as [|n]; [simpl; f_equal; apply IH; lia|].
      simpl. apply IH. simpl in Hn. lia.
    + pose proof (none_stays _ Hp) as Hs. cbn [app] in Hs. rewrite Hs.
      simpl. f_equal. apply IH. lia.
Qed.
End CopiedSuffix.

(** A suffix that is one match to its end, and into which a match that
    ends with the text before it extends, is removed. *)
Section RemovedSuffix.
Variable us : str.
Hypothesis suffix_matches : pattern us = Some (List.length us).
Hypothesis suffix_not_empty : us <> [].
Hypothesis none_stays : forall v, v <> [] -> pattern v = None -> pattern (v ++ us) = None.
Hypothesis some_extends : forall v n,
  pattern v = Some n ->
  ((n < List.length v)%nat /\ pattern (v ++ us) = Some n)
  \/ (n = List.length v /\ pattern (v ++ us) = Some (n + List.length us)%nat).

Lemma re_sub_from_removed_suffix v : forall k k',
  (k' = k /\ (k < List.length v)%nat)
  \/ (k = List.length v /\ k' = (k + List.length us)%nat)
  \/ (k = O /\ k' = O) ->
  re_sub_from pattern [] k' (v ++ us) = re_sub_from pattern [] k v.
Proof.
  induction v as [|c v IH]; intros k k' R.
  - assert (Hk : k = O) by (simpl in R; lia). subst k. cbn [app re_sub_from].
    destruct R as [[_ R] | [[_ ->] | [_ ->]]]; [simpl in R; lia | apply re_sub_from_all |].
    destruct us as [|c t] eqn:Hus; [contradiction|].
    cbn [re_sub_from]. rewrite suffix_matches. simpl. apply re_sub_from_all.
  - cbn [app]. destruct k as [|k].
    + assert (Hk' : k' = O) by (simpl in R; lia). subst k'.
      cbn [re_sub_from].
      destruct (pattern (c :: v)) as [n|] eqn:Hp.
      * destruct (some_extends _ _ Hp) as [[Hn Hs] | [Hn Hs]];
          cbn [app] in Hs; rewrite Hs.
        -- destruct n as [|n]; [simpl; f_equal; apply IH; auto|].
           simpl. apply IH. left. simpl in Hn. lia.
        -- destruct n as [|n]; [discriminate|]. simpl.
           apply IH. right. left. simpl in Hn. lia.
      * pose proof (none_stays (c :: v) ltac:(discriminate) Hp) as Hs.
        cbn [app] in Hs. rewrite Hs. f_equal. apply IH. auto.
    + destruct k' as [|k']; [simpl in R; lia|].
      cbn [re_sub_from]. apply IH. simpl in R. lia.
Qed.

Lemma re_sub_removed_suffix v : re_sub pattern [] (v ++ us) = re_sub pattern [] v.
Proof. apply re_sub_from_removed_suffix. auto. Qed.
End RemovedSuffix.

End SubFacts.

(** ** The feat. annotation *)

Lemma incompatible_no_match p : forall a t,
  compatible p a = false -> match_literal_ci p (a ++ t) = None.
Proof.
  induction p as [|pc p IH]; intros a t H; [destruct a; discriminate|].
  destruct a as [|c a]; [discriminate|]. simpl in *.
  destruct (lower_char c =? pc)%N; [apply IH; exact H | reflexivity].
Qed.

Lemma feat_inert_suffix a1 a2 : feat_inert (a1 ++ a2) = true -> feat_inert a2 = true.
Proof.
  induction a1 as [|c a1 IH]; [trivial|]. cbn [app feat_inert]. intros H.
  apply andb_true_iff in H. apply IH, H.
Qed.

Lemma feat_inert_copied a t :
  feat_inert a = true ->
  re_sub FEAT_PATTERN [] (a ++ t) = a ++ re_sub FEAT_PATTERN [] t.
Proof.
  intros H. apply re_sub_inert_prefix. intros a1 a2 -> Hne.
  apply feat_inert_suffix in H. destruct a2 as [|c a2]; [contradiction|].
  cbn [feat_inert] in H. apply andb_true_iff in H. destruct H as [H _].
  apply negb_true_iff in H. unfold FEAT_PATTERN.
  rewrite (incompatible_no_match _ _ t H). reflexivity.
Qed.

Lemma match_literal_ci_exact op s :
  match_literal_ci (lower op) (op ++ s) = Some s.
Proof.
  induction op as [|c op IH]; [reflexivity|]. simpl.
  rewrite N.eqb_refl. exact IH.
Qed.

Lemma lazy_until_close_body body s :
  Forall plain_char body ->
  lazy_until_close (body ++ 41%N :: s) = Some (S (List.length body)).
Proof.
  induction 1 as [|c body [H1 H2] _ IH]; [reflexivity|]. simpl.
  apply N.eqb_neq in H1, H2. rewrite H1, H2, IH. reflexivity.
Qed.

Lemma FEAT_PATTERN_annotation op body s :
  lower op = feat_open -> Forall plain_char body ->
  FEAT_PATTERN ((op ++ body ++ [41%N]) ++ s)
  = Some (List.length (op ++ body ++ [41%N])).
Proof.
  intros Hop Hbody. unfold FEAT_PATTERN. rewrite <- Hop.
  rewrite <- !app_assoc. rewrite match_literal_ci_exact.
  cbn [app]. rewrite (lazy_until_close_body body s Hbody). cbn [option_map].
  rewrite !List.length_app. rewrite <- (lower_length op), Hop. simpl.
  f_equal. lia.
Qed.

Lemma lower_ascii op :
  Forall (fun c => is_ascii c = true) (lower op) ->
  Forall (fun c => is_ascii c = true) op.
Proof.
  induction op as [|c op IH]; [constructor|]. simpl. intros H.
  inversion H as [|? ? Hc Hop]; subst. constructor; [|apply IH, Hop].
  revert Hc. char_facts.
Qed.

Lemma unidecode_app tbl a b : unidecode tbl (a ++ b) = unidecode tbl a ++ unidecode tbl b.
Proof. apply flat_map_app. Qed.

(** Inserting a parenthesized feat. annotation does not change the key,
    when no opening of such an annotation begins in the text before it
    and its body holds neither a closing parenthesis nor a line feed. *)
Lemma canonicalize_feat (tbl : N -> str) (a op body b : str) :
  feat_inert (unidecode tbl a) = true ->
  lower op = feat_open ->
  Forall plain_char (unidecode tbl body) ->
  canonicalize_string tbl (Some (a ++ (op ++ body ++ [41%N]) ++ b))
  = canonicalize_string tbl (Some (a ++ b)).
Proof.
  intros Ha Hop Hbody. rewrite !canonicalize_words. unfold annotations_removed.
  do 4 f_equal. rewrite !unidecode_app.
  assert (Hu : unidecode tbl op = op).
  { apply unidecode_ascii_fixed, lower_ascii. rewrite Hop. repeat constructor. }
  rewrite Hu. change (unidecode tbl [41%N]) with [41%N].
  rewrite (feat_inert_copied (unidecode tbl a) (unidecode tbl b) Ha).
  rewrite (feat_inert_copied (unidecode tbl a) _ Ha). f_equal.
  apply re_sub_whole_match; [destruct op; [discriminate Hop | discriminate]|].
  apply FEAT_PATTERN_annotation; assumption.
Qed.

(** ** The remix suffix *)

Lemma lazy_until_close_none u : no_close u -> lazy_until_close u = None.
Proof.
  induction 1 as [|c u Hc _ IH]; [reflexivity|]. simpl.
  apply N.eqb_neq in Hc. rewrite Hc, IH. destruct (c =? 10)%N; reflexivity.
Qed.

Lemma lazy_until_close_app r us :
  no_close us ->
  match lazy_until_close r with
  | Some n => (n <= List.length r)%nat /\ lazy_until_close (r ++ us) = Some n
  | None => lazy_until_close (r ++ us) = None
  end.
Proof.
  intros Hus. induction r as [|c r IH]; [apply lazy_until_close_none, Hus|].
  simpl. destruct (c =? 41)%N; [split; [lia | reflexivity]|].
  destruct (c =? 10)%N; [reflexivity|].
  destruct (lazy_until_close r) as [n|].
  - destruct IH as [Hn ->]. simpl. split; [lia | reflexivity].
  - rewrite IH. reflexivity.
Qed.

Lemma match_literal_ci_suffix p : forall s rest,
  match_literal_ci p s = Some rest -> exists pre, s = pre ++ rest.
Proof.
  induction p as [|pc p IH]; intros s rest H; [exists []; injection H; auto|].
  destruct s as [|c s]; [discriminate|]. simpl in H.
  destruct (lower_char c =? pc)%N; [|discriminate].
  destruct (IH s rest H) as [pre ->]. exists (c :: pre). reflexivity.
Qed.

Lemma match_literal_ci_app p us : forall v,
  match match_literal_ci p v with
  | Some rest =>
      match_literal_ci p (v ++ us) = Some (rest ++ us)
      /\ List.length v = (List.length p + List.length rest)%nat
  | None =>
      match_literal_ci p (v ++ us) = None
      \/ exists u1 u2, us = u1 ++ u2 /\ match_literal_ci p (v ++ us) = Some u2
  end.
Proof.
  induction p as [|pc p IH]; intros v; [split; reflexivity|].
  destruct v as [|c v].
  - change (match_literal_ci (pc :: p) []) with (@None str).
    change ([] ++ us) with us.
    destruct (match_literal_ci (pc :: p) us) as [u2|] eqn:Hm; [|left; reflexivity].
    right. destruct (match_literal_ci_suffix _ _ _ Hm) as [u1 ->].
    exists u1, u2. split; reflexivity.
  - cbn [match_literal_ci app]. destruct (lower_char c =? pc)%N; [|left; reflexivity].
    specialize (IH v). destruct (match_literal_ci p v) as [rest|].
    + destruct IH as [-> Hl]. split; [reflexivity | simpl; lia].
    + exact IH.
Qed.

Lemma no_close_suffix u1 u2 : no_close (u1 ++ u2) -> no_close u2.
Proof. intros H. apply Forall_app in H. apply H. Qed.

Lemma FEAT_PATTERN_no_close u : no_close u -> FEAT_PATTERN u = None.
Proof.
  intros Hu. unfold FEAT_PATTERN.
  destruct (match_literal_ci feat_open u) as [rest|] eqn:Hm; [|reflexivity].
  destruct (match_literal_ci_suffix _ _ _ Hm) as [pre ->].
  rewrite (lazy_until_close_none rest (no_close_suffix _ _ Hu)). reflexivity.
Qed.

(** The annotations of a text are not touched by a suffix without a
    closing parenthesis. *)
Lemma feat_sub_copied_suffix v us :
  no_close us ->
  re_sub FEAT_PATTERN [] (v ++ us) = re_sub FEAT_PATTERN [] v ++ us.
Proof.
  intros Hus. unfold re_sub. apply re_sub_from_copied_suffix; [| | |lia].
  - intros u1 u2 ->. apply FEAT_PATTERN_no_close, (no_close_suffix _ _ Hus).
  - intros w Hw. unfold FEAT_PATTERN in *.
    pose proof (match_literal_ci_app feat_open us w) as Hm.
    destruct (match_literal_ci feat_open w) as [rest|].
    + destruct Hm as [-> _].
      pose proof (lazy_until_close_app rest us Hus) as Hl.
      destruct (lazy_until_close rest); [discriminate|]. rewrite Hl. reflexivity.
    + destruct Hm as [-> | (u1 & u2 & -> & ->)]; [reflexivity|].
      rewrite (lazy_until_close_none u2 (no_close_suffix _ _ Hus)). reflexivity.
  - intros w n Hw. unfold FEAT_PATTERN in *.
    pose proof (match_literal_ci_app feat_open us w) as Hm.
    destruct (match_literal_ci feat_open w) as [rest|]; [|discriminate].
    destruct Hm as [-> Hlen].
    pose proof (lazy_until_close_app rest us Hus) as Hl.
    destruct (lazy_until_close rest) as [k|]; [|discriminate].
    destruct Hl as [Hk ->]. injection Hw as <-. simpl in *. split; [lia | reflexivity].
Qed.

Lemma lstrip_app s us c t :
  us = c :: t -> is_space c = false -> lstrip (s ++ us) = lstrip s ++ us.
Proof.
  intros -> Hc. induction s as [|d s IH]; [simpl; rewrite Hc; reflexivity|].
  simpl. destruct (is_space d); [exact IH | reflexivity].
Qed.

Lemma lstrip_length s : (List.length (lstrip s) <= List.length s)%nat.
Proof.
  induction s as [|c s IH]; [simpl; lia|]. simpl.
  destruct (is_space c); simpl; lia.
Qed.

Lemma line_length_le r : (line_length r <= List.length r)%nat.
Proof.
  induction r as [|c r IH]; [simpl; lia|]. simpl. destruct (c =? 10)%N; simpl; lia.
Qed.

Lemma line_length_no_line_feed u : no_line_feed u -> line_length u = List.length u.
Proof.
  induction 1 as [|c u Hc _ IH]; [reflexivity|]. simpl.
  apply N.eqb_neq in Hc. rewrite Hc, IH. reflexivity.
Qed.

Lemma line_length_app r u :
  line_length (r ++ u)
  = if (line_length r <? List.length r)%nat then line_length r
    else (List.length r + line_length u)%nat.
Proof.
  induction r as [|c r IH]; [reflexivity|]. simpl.
  destruct (c =? 10)%N; [reflexivity|]. rewrite IH.
  change (S (line_length r) <? S (List.length r))%nat
    with (line_length r <? List.length r)%nat.
  destruct (line_length r <? List.length r)%nat; reflexivity.
Qed.

Lemma match_literal_ci_hyphen w : forall r t,
  Forall (fun pc => pc <> 45%N) w ->
  is_present (match_literal_ci w (r ++ 45%N :: t)) = is_present (match_literal_ci w r).
Proof.
  induction w as [|pc w IH]; intros r t Hw; [reflexivity|].
  inversion Hw as [|? ? Hpc Hw']; subst.
  destruct r as [|c r]; cbn [app match_literal_ci].
  - change (lower_char 45) with 45%N.
    destruct (N.eqb_spec 45 pc); [congruence | reflexivity].
  - destruct (lower_char c =? pc)%N; [apply IH; exact Hw' | reflexivity].
Qed.

Lemma remix_word_hyphen r t : remix_word (r ++ 45%N :: t) = remix_word r.
Proof.
  unfold remix_word.
  assert (Hw : Forall (Forall (fun pc => pc <> 45%N)) remix_words)
    by (repeat constructor; discriminate).
  induction Hw as [|w ws Hw _ IH]; [reflexivity|]. simpl. rewrite IH.
  pose proof (match_literal_ci_hyphen w r t Hw) as H.
  destruct (match_literal_ci w (r ++ 45%N :: t)), (match_literal_ci w r);
    simpl in H; try discriminate; reflexivity.
Qed.

Lemma REMIX_PATTERN_head us n : REMIX_PATTERN us = Some n -> exists t, us = 45%N :: t.
Proof.
  destruct us as [|c t]; [discriminate|]. simpl.
  destruct (N.eqb_spec c 45); [subst; eauto | discriminate].
Qed.

(** A remix suffix that runs to the end of the text is removed together
    with whatever a match before it takes, when it holds no line feed. *)
Lemma remix_sub_removed_suffix v us :
  REMIX_PATTERN us = Some (List.length us) -> no_line_feed us ->
  re_sub REMIX_PATTERN [] (v ++ us) = re_sub REMIX_PATTERN [] v.
Proof.
  intros Hus Hnl. destruct (REMIX_PATTERN_head _ _ Hus) as [t Ht].
  assert (Happ : forall w,
    REMIX_PATTERN (w ++ us)
    = match w with
      | [] => Some (List.length us)
      | c :: s =>
          if (c =? 45)%N then
            let r := lstrip s in
            if remix_word r
            then Some (1 + (List.length s - List.length r)
                       + (if (line_length r <? List.length r)%nat then line_length r
                          else List.length r + List.length us))%nat
            else None
          else None
      end).
  { intros [|c s]; [exact Hus|]. cbn [app REMIX_PATTERN].
    destruct (c =? 45)%N; [|reflexivity]. cbv zeta.
    rewrite (lstrip_app s us 45%N t Ht eq_refl). rewrite Ht at 1.
    rewrite remix_word_hyphen. destruct (remix_word (lstrip s)); [|reflexivity].
    rewrite line_length_app, (line_length_no_line_feed us Hnl), !List.length_app.
    pose proof (lstrip_length s). do 2 f_equal. lia. }
  apply re_sub_removed_suffix.
  - exact Hus.
  - subst us. discriminate.
  - intros w Hne Hw. rewrite Happ. destruct w as [|c s]; [contradiction|].
    simpl in Hw. destruct (c =? 45)%N; [|reflexivity]. cbv zeta.
    destruct (remix_word (lstrip s)); [discriminate | reflexivity].
  - intros w n Hw. rewrite Happ. destruct w as [|c s]; [discriminate|].
    simpl in Hw. destruct (c =? 45)%N; [|discriminate]. cbv zeta.
    destruct (remix_word (lstrip s)); [|discriminate]. injection Hw as <-.
    pose proof (lstrip_length s). pose proof (line_length_le (lstrip s)).
    destruct (Nat.ltb_spec (line_length (lstrip s)) (List.length (lstrip s))).
    + left. split; [simpl; lia | reflexivity].
    + right. split; [simpl; lia | f_equal; lia].
Qed.

(** Appending a trailing remix or remaster suffix (on one line, without
    a closing parenthesis) does not change the key. *)
Lemma canonicalize_remix (tbl : N -> str) (y sfx : str) :
  REMIX_PATTERN (unidecode tbl sfx) = Some (List.length (unidecode tbl sfx)) ->
  no_line_feed (unidecode tbl sfx) ->
  no_close (unidecode tbl sfx) ->
  canonicalize_string tbl (Some (y ++ sfx)) = canonicalize_string tbl (Some y).
Proof.
  intros Hm Hnl Hnc. rewrite !canonicalize_words. unfold annotations_removed.
  do 3 f_equal. rewrite unidecode_app, (feat_sub_copied_suffix _ _ Hnc).
  apply remix_sub_removed_suffix; assumption.
Qed.

(** ** Inputs with one key *)

(** C5, as stated, fails: [AC/DC] and [ACDC] differ only in punctuation,
    and their keys are [ac dc] and [acdc]. *)
Lemma canonicalize_punctuation_fails :
  differ_only_in_punctuation (lit "AC/DC") (lit "ACDC")
  /\ canonicalize_string latin1_table (Some (lit "AC/DC")) = lit "ac dc"
  /\ canonicalize_string latin1_table (Some (lit "ACDC")) = lit "acdc"
  /\ canonicalize_string latin1_table (Some (lit "AC/DC"))
     <> canonicalize_string latin1_table (Some (lit "ACDC")).
Proof. repeat split; try reflexivity. vm_compute. discriminate. Qed.

(** C5, amended: the key is the sequence of the alphanumeric words of the
    transliterated text, without its feat. annotations and remix suffix
    and in lower case, so two inputs with the same such words have the
    same key: punctuation and white space count only as separators of
    words.  In particular the keys are equal for inputs whose
    transliterations agree up to the case of letters (case and accents),
    for an input and the same input with a parenthesized feat. annotation
    inserted, and for an input and the same input with a trailing remix or
    remaster suffix appended; and [Café (feat. X)] has the key of [CAFE]
    when the table turns the e with acute accent into an e. *)
Theorem canonicalize_invariance (tbl : N -> str) :
  (forall x y,
     words (lower (annotations_removed tbl x)) = words (lower (annotations_removed tbl y)) ->
     canonicalize_string tbl (Some x) = canonicalize_string tbl (Some y))
  /\ (forall x y,
        lower (unidecode tbl x) = lower (unidecode tbl y) ->
        canonicalize_string tbl (Some x) = canonicalize_string tbl (Some y))
  /\ (forall a op body b,
        feat_inert (unidecode tbl a) = true ->
        lower op = feat_open ->
        Forall plain_char (unidecode tbl body) ->
        canonicalize_string tbl (Some (a ++ (op ++ body ++ [41%N]) ++ b))
        = canonicalize_string tbl (Some (a ++ b)))
  /\ (forall y sfx,
        REMIX_PATTERN (unidecode tbl sfx) = Some (List.length (unidecode tbl sfx)) ->
        no_line_feed (unidecode tbl sfx) ->
        no_close (unidecode tbl sfx) ->
        canonicalize_string tbl (Some (y ++ sfx)) = canonicalize_string tbl (Some y))
  /\ (tbl 233%N = lit "e" ->
      canonicalize_string tbl (Some cafe_feat)
      = canonicalize_string tbl (Some (lit "CAFE"))).
Proof.
  split; [intros x y H; rewrite !canonicalize_words, H; reflexivity|].
  split; [apply canonicalize_case|].
  split; [apply canonicalize_feat|].
  split; [apply canonicalize_remix|].
  intros He. rewrite !canonicalize_words. unfold annotations_removed.
  assert (Hu : unidecode tbl cafe_feat = lit "Cafe (feat. X)").
  { unfold cafe_feat. rewrite !unidecode_app.
    change (unidecode tbl [233%N]) with (tbl 233%N ++ []). rewrite He.
    reflexivity. }
  rewrite Hu. reflexivity.
Qed.

Lemma canonicalize_invariance_witness :
  (words (lower (annotations_removed latin1_table (lit "AC/DC")))
   = words (lower (annotations_removed latin1_table (lit "ac dc!")))
   /\ canonicalize_string latin1_table (Some (lit "AC/DC"))
      = canonicalize_string latin1_table (Some (lit "ac dc!")))
  /\ (feat_inert (unidecode latin1_table (lit "Song (Live) ")) = true
      /\ canonicalize_string latin1_table
           (Some (lit "Song (Live) " ++ (lit "(Feat." ++ lit " X" ++ [41%N]) ++ lit " B"))
         = canonicalize_string latin1_table (Some (lit "Song (Live) " ++ lit " B")))
  /\ (REMIX_PATTERN (unidecode latin1_table (lit "- Remastered 2011")) = Some 17%nat
      /\ canonicalize_string latin1_table (Some (lit "Song " ++ lit "- Remastered 2011"))
         = canonicalize_string latin1_table (Some (lit "Song ")))
  /\ (latin1_table 233%N = lit "e"
      /\ canonicalize_string latin1_table (Some cafe_feat)
         = canonicalize_string latin1_table (Some (lit "CAFE"))).
Proof.
  pose proof (canonicalize_invariance latin1_table) as (Hwords & _ & Hfeat & Hremix & Hcafe).
  split; [split; [reflexivity | apply Hwords; reflexivity]|].
  split; [split; [reflexivity|]|].
  { apply Hfeat; [reflexivity | reflexivity |].
    repeat constructor; discriminate. }
  split; [split; [reflexivity|]|].
  { apply Hremix; [reflexivity | |]; repeat constructor; discriminate. }
  split; [reflexivity | apply Hcafe; reflexivity].
Defined.

(** * Further properties *)

(** ** The canonicalizer and the sanitizer *)

Lemma spaced_no_double_space a : forall flag b,
  spaced flag (a ++ 32%N :: 32%N :: b) -> False.
Proof.
  induction a as [|c a IH]; intros flag b H.
  - simpl in H. destruct H as [_ [H _]]. discriminate.
  - cbn [app spaced] in H. destruct (c =? 32)%N; destruct H as [_ H]; eapply IH, H.
Qed.

Lemma rstrip_length s : (List.length (rstrip s) <= List.length s)%nat.
Proof.
  induction s as [|c s IH]; [simpl; lia|]. cbn [rstrip].
  destruct (rstrip s); [destruct (is_space c)|]; simpl in *; lia.
Qed.

Lemma rstrip_app_space t c : is_space c = true -> rstrip (t ++ [c]) = rstrip t.
Proof.
  intros Hc. induction t as [|x t IH]; [simpl; rewrite Hc; reflexivity|].
  cbn [app rstrip]. rewrite IH. reflexivity.
Qed.

(** X1: a canonical key is made of lower-case letters, digits and
    spaces; it neither begins nor ends with a space and has no two spaces
    in a row. *)
Theorem canonicalize_key_shape (unidecode_table : N -> str) (value : option str) :
  Forall (fun c => is_lower c || is_digit c || (c =? 32)%N = true)
         (canonicalize_string unidecode_table value)
  /\ (forall t, canonicalize_string unidecode_table value <> 32%N :: t)
  /\ (forall t, canonicalize_string unidecode_table value <> t ++ [32%N])
  /\ (forall a b, canonicalize_string unidecode_table value <> a ++ 32%N :: 32%N :: b).
Proof.
  destruct (canonicalize_is_key unidecode_table value) as [Hs Hr].
  set (k := canonicalize_string unidecode_table value) in *.
  split; [|split; [|split]].
  - eapply List.Forall_impl; [|exact (spaced_key_chars k true Hs)].
    intros c. unfold key_char, non_alnum. rewrite negb_involutive.
    destruct (c =? 32)%N, (is_lower c || is_digit c); simpl; congruence.
  - intros t Hk. rewrite Hk in Hs. simpl in Hs. destruct Hs as [Hs _]. discriminate.
  - intros t Hk. rewrite Hk in Hr. rewrite (rstrip_app_space t 32%N eq_refl) in Hr.
    pose proof (rstrip_length t) as Hl. rewrite Hr, List.length_app in Hl. simpl in Hl. lia.
  - intros a b Hk. rewrite Hk in Hs. exact (spaced_no_double_space a true b Hs).
Qed.

Lemma lstrip_Forall (P : N -> Prop) s : Forall P s -> Forall P (lstrip s).
Proof.
  induction 1 as [|c s Hc Hs IH]; [constructor|]. simpl.
  destruct (is_space c); [exact IH | constructor; assumption].
Qed.

Lemma rstrip_Forall (P : N -> Prop) s : Forall P s -> Forall P (rstrip s).
Proof.
  induction 1 as [|c s Hc Hs IH]; [constructor|]. cbn [rstrip].
  destruct (rstrip s); [destruct (is_space c); repeat constructor; exact Hc|].
  constructor; assumption.
Qed.

Lemma strip_Forall (P : N -> Prop) s : Forall P s -> Forall P (strip s).
Proof. intros H. apply rstrip_Forall, lstrip_Forall, H. Qed.

Lemma lstrip_idempotent s : lstrip (lstrip s) = lstrip s.
Proof.
  induction s as [|c s IH]; [reflexivity|]. simpl.
  destruct (is_space c) eqn:Hc; [exact IH | simpl; rewrite Hc; reflexivity].
Qed.

Lemma lstrip_rstrip_lstrip s : lstrip (rstrip (lstrip s)) = rstrip (lstrip s).
Proof.
  pose proof (lstrip_idempotent s) as H.
  destruct (lstrip s) as [|c t]; [reflexivity|].
  simpl in H. destruct (is_space c) eqn:Hc.
  - exfalso. apply (f_equal (@List.length N)) in H.
    pose proof (lstrip_length t). simpl in H. lia.
  - rewrite (rstrip_cons_word c t Hc). simpl. rewrite Hc. reflexivity.
Qed.

Lemma strip_fixed s : lstrip (strip s) = strip s /\ rstrip (strip s) = strip s.
Proof.
  unfold strip. split; [apply lstrip_rstrip_lstrip | apply rstrip_idempotent].
Qed.

Lemma replace_char_absent old new s :
  Forall (fun c => (c =? old)%N = false) s -> replace_char old new s = s.
Proof.
  induction 1 as [|c s Hc _ IH]; [reflexivity|].
  unfold replace_char in *. cbn [flat_map]. rewrite Hc, IH. reflexivity.
Qed.

Lemma filter_valid_chars s :
  Forall (fun c => invalid_path_char c = false)
         (List.filter (fun c => negb (invalid_path_char c)) s).
Proof.
  apply List.Forall_forall. intros c Hc. apply filter_In in Hc.
  destruct Hc as [_ Hc]. apply negb_true_iff in Hc. exact Hc.
Qed.

Lemma valid_not_slash c : invalid_path_char c = false -> (c =? 47)%N = false.
Proof. unfold invalid_path_char. rewrite !orb_false_iff. tauto. Qed.

Lemma valid_not_backslash c : invalid_path_char c = false -> (c =? 92)%N = false.
Proof. unfold invalid_path_char. rewrite !orb_false_iff. tauto. Qed.

Lemma safe_path_component_sanitized tbl value fallback :
  safe_path_component tbl value fallback
  = match sanitized tbl value fallback with
    | [] => fallback
    | c :: r => c :: r
    end.
Proof.
  unfold safe_path_component, sanitized.
  set (kept := List.filter _ _).
  pose proof (filter_valid_chars
                (unidecode tbl match value with
                               | None | Some [] => fallback
                               | Some v => strip v
                               end)) as Hv.
  fold kept in Hv.
  rewrite (replace_char_absent 47 (lit "-") kept)
    by (eapply List.Forall_impl; [|exact Hv]; apply valid_not_slash).
  rewrite (replace_char_absent 92 (lit "-") kept)
    by (eapply List.Forall_impl; [|exact Hv]; apply valid_not_backslash).
  destruct (strip kept); reflexivity.
Qed.

(** X2: the two [replace] calls of [safe_path_component] never change
    anything: the slashes and backslashes are already removed with the
    other invalid characters, so the component is the stripped text
    without those characters, or the fallback when that is empty. *)
Theorem safe_path_component_drops_slashes (unidecode_table : N -> str)
    (value : option str) (fallback : str) :
  safe_path_component unidecode_table value fallback
  = match sanitized unidecode_table value fallback with
    | [] => fallback
    | c :: r => c :: r
    end.
Proof. apply safe_path_component_sanitized. Qed.

(** X3: the component that [safe_path_component] returns is the fallback
    as it is given, or a text that is not empty, holds none of the
    invalid path characters (so no slash and no backslash) and has no
    white space at either end; it is empty only when the fallback is. *)
Theorem safe_path_component_valid (unidecode_table : N -> str)
    (value : option str) (fallback : str) :
  (safe_path_component unidecode_table value fallback = fallback
   \/ (safe_path_component unidecode_table value fallback <> []
       /\ Forall (fun c => invalid_path_char c = false)
                 (safe_path_component unidecode_table value fallback)
       /\ lstrip (safe_path_component unidecode_table value fallback)
          = safe_path_component unidecode_table value fallback
       /\ rstrip (safe_path_component unidecode_table value fallback)
          = safe_path_component unidecode_table value fallback))
  /\ (safe_path_component unidecode_table value fallback = [] -> fallback = []).
Proof.
  rewrite safe_path_component_sanitized.
  pose proof (strip_Forall _ _ (filter_valid_chars
     (unidecode unidecode_table match value with
                                | None | Some [] => fallback
                                | Some v => strip v
                                end))) as Hv.
  pose proof (strip_fixed (List.filter (fun c => negb (invalid_path_char c))
     (unidecode unidecode_table match value with
                                | None | Some [] => fallback
                                | Some v => strip v
                                end))) as [Hl Hr].
  fold (sanitized unidecode_table value fallback) in Hv, Hl, Hr.
  destruct (sanitized unidecode_table value fallback) as [|c r].
  - split; [left; reflexivity | trivial].
  - split; [right; repeat split; try assumption; discriminate | discriminate].
Qed.

Lemma before_semicolon_app a b :
  ~ In 59%N a -> before_semicolon (a ++ 59%N :: b) = a /\ before_semicolon a = a.
Proof.
  induction a as [|c a IH]; intros H; [split; reflexivity|].
  cbn [app before_semicolon]. destruct (N.eqb_spec c 59) as [->|_].
  - exfalso. apply H. left. reflexivity.
  - destruct IH as [-> ->]; [intros Hin; apply H; right; exact Hin|]. split; reflexivity.
Qed.

(** X4: [primary_artist] returns the text before the first semicolon,
    stripped; a field without semicolon is returned stripped as a
    whole. *)
Theorem primary_artist_first_entry (first rest : str) :
  ~ In 59%N first ->
  primary_artist (Some (first ++ 59%N :: rest)) = strip first
  /\ primary_artist (Some first) = strip first.
Proof.
  intros H. destruct (before_semicolon_app first rest H) as [H1 H2]. split.
  - unfold primary_artist. destruct (first ++ 59%N :: rest) eqn:E.
    + destruct first; discriminate.
    + cbv iota beta. rewrite H1. reflexivity.
  - unfold primary_artist. destruct first as [|c first'] eqn:E; [reflexivity|].
    cbv iota beta. rewrite H2. reflexivity.
Qed.

Lemma primary_artist_first_entry_witness :
  ~ In 59%N (lit " Artist A ")
  /\ primary_artist (Some (lit " Artist A " ++ 59%N :: lit "Artist B")) = lit "Artist A".
Proof.
  assert (H : ~ In 59%N (lit " Artist A ")) by (simpl; intuition discriminate).
  split; [exact H|].
  exact (proj1 (primary_artist_first_entry (lit " Artist A ") (lit "Artist B") H)).
Defined.

(** ** The join of the matcher *)

Lemma filter_nil_none {A} (f : A -> bool) (l : list A) :
  List.filter f l = [] -> forall x, In x l -> f x = false.
Proof.
  intros H x Hx. destruct (f x) eqn:E; [|reflexivity].
  assert (Hin : In x (List.filter f l)) by (apply filter_In; auto).
  rewrite H in Hin. destruct Hin.
Qed.

Lemma merge_left_rows s l r0 :
  In r0 (merge_left s l)
  <-> exists m, In m s
        /\ ((List.filter (same_key m) l = [] /\ r0 = unmatched_row m)
            \/ exists i, In i l /\ m_key m = lib_key i /\ r0 = joined_row m i).
Proof.
  unfold merge_left. rewrite in_flat_map. split.
  - intros (m & Hm & Hr). exists m. split; [exact Hm|].
    destruct (List.filter (same_key m) l) as [|i0 ls] eqn:E.
    + left. destruct Hr as [<- | []]. auto.
    + right. apply in_map_iff in Hr. destruct Hr as (i & <- & Hi).
      rewrite <- E in Hi. apply filter_In in Hi. destruct Hi as [Hi Hk].
      apply bool_decide_eq_true in Hk. eauto.
  - intros (m & Hm & H). exists m. split; [exact Hm|].
    destruct H as [[E ->] | (i & Hi & Hk & ->)].
    + rewrite E. left. reflexivity.
    + assert (Hin : In i (List.filter (same_key m) l)).
      { apply filter_In. split; [exact Hi|]. apply bool_decide_eq_true. exact Hk. }
      destruct (List.filter (same_key m) l) as [|i0 ls] eqn:E; [destruct Hin|].
      apply in_map. exact Hin.
Qed.

Lemma Forall2_In_l {A B} (P : A -> B -> Prop) xs ys x :
  Forall2 P xs ys -> In x xs -> exists y, In y ys /\ P x y.
Proof.
  induction 1 as [|a b xs ys Hab _ IH]; intros Hx; [destruct Hx|].
  destruct Hx as [<- | Hx].
  - exists b. split; [left; reflexivity | exact Hab].
  - destruct (IH Hx) as (y & Hy & Hp). exists y. split; [right; exact Hy | exact Hp].
Qed.

Lemma match_tracks_row_origin s l tolerance r :
  In r (match_tracks s l tolerance) ->
  In (mr_manifest r) s
  /\ forall p, mr_file_path r = Some p ->
       exists i, In i l /\ lib_key i = mr_key r /\ lib_file_path i = p
                 /\ mr_duration_ms_local r = lib_duration_ms i.
Proof.
  intros Hr.
  destruct (Forall2_In_l _ _ _ r (match_tracks_pointwise s l tolerance) Hr)
    as (r0 & Hr0 & Hrel).
  apply merge_left_rows in Hr0. destruct Hr0 as (m & Hm & Hcase).
  destruct Hcase as [[_ ->] | (i & Hi & Hk & ->)].
  - destruct Hrel as [-> | ->]; (split; [exact Hm | intros p Hp; discriminate]).
  - destruct Hrel as [-> | ->].
    + split; [exact Hm|]. intros p Hp. injection Hp as <-.
      exists i. repeat split; [exact Hi | symmetry; exact Hk].
    + split; [exact Hm | intros p Hp; discriminate].
Qed.

(** X5: every row of the matcher keeps its manifest record, and a file
    path in a row is the path of an inventory record that has the
    canonical key of the row and whose duration is the local duration of
    the row: the matcher never resolves a row to a file of another key. *)
Theorem match_tracks_resolved_from_inventory (s : list ManifestRecord)
    (l : list InventoryRecord) (tolerance : Z) :
  Forall (fun r =>
            In (mr_manifest r) s
            /\ forall p, mr_file_path r = Some p ->
                 exists i, In i l /\ lib_key i = mr_key r /\ lib_file_path i = p
                           /\ mr_duration_ms_local r = lib_duration_ms i)
         (match_tracks s l tolerance).
Proof.
  apply List.Forall_forall. intros r Hr. exact (match_tracks_row_origin s l tolerance r Hr).
Qed.

(** X6: with a tolerance of one millisecond or more the durations play no
    part: the matcher returns the plain left join, and a row is without a
    file exactly when no inventory record has its key. *)
Theorem match_tracks_tolerance_ignored (s : list ManifestRecord)
    (l : list InventoryRecord) (tolerance : Z) :
  1 <= tolerance ->
  match_tracks s l tolerance = merge_left s l
  /\ Forall (fun r => mr_file_path r = None
                      <-> forall i, In i l -> lib_key i <> mr_key r)
            (match_tracks s l tolerance).
Proof.
  intros Htol. rewrite (match_tracks_plain_join s l tolerance Htol).
  split; [reflexivity|]. apply List.Forall_forall. intros r Hr.
  apply merge_left_rows in Hr. destruct Hr as (m & Hm & Hcase).
  destruct Hcase as [[E ->] | (i & Hi & Hk & ->)].
  - split; [|reflexivity]. intros _ i Hi Hk.
    pose proof (filter_nil_none _ _ E i Hi) as Hf.
    apply bool_decide_eq_false in Hf. apply Hf. symmetry. exact Hk.
  - split; [discriminate|]. intros H. exfalso. apply (H i Hi). symmetry. exact Hk.
Qed.

Lemma match_tracks_tolerance_ignored_witness :
  1 <= DURATION_TOLERANCE_MS
  /\ match_tracks [manifest_200] [inventory_210; inventory_other] DURATION_TOLERANCE_MS
     = merge_left [manifest_200] [inventory_210; inventory_other].
Proof.
  assert (H : 1 <= DURATION_TOLERANCE_MS) by (unfold DURATION_TOLERANCE_MS; lia).
  split; [exact H|].
  exact (proj1 (match_tracks_tolerance_ignored [manifest_200]
                  [inventory_210; inventory_other] DURATION_TOLERANCE_MS H)).
Defined.

(** X7: with a negative tolerance every row is rejected: the matcher
    returns the left join with the file path and the local duration of
    every row cleared, also where the durations are equal. *)
Theorem match_tracks_negative_tolerance (s : list ManifestRecord)
    (l : list InventoryRecord) (tolerance : Z) :
  tolerance < 0 ->
  match_tracks s l tolerance = List.map clear_match (merge_left s l)
  /\ Forall (fun r => mr_file_path r = None /\ mr_duration_ms_local r = None)
            (match_tracks s l tolerance).
Proof.
  intros Htol.
  assert (E : match_tracks s l tolerance = List.map clear_match (merge_left s l)).
  { unfold match_tracks. destruct s as [|m s]; [reflexivity|].
    destruct l as [|i l].
    - rewrite merge_left_empty_library, List.map_map. reflexivity.
    - apply map_ext. intros r. unfold mismatched_cell.
      match goal with
      | |- context [Z.b2z ?b >? ?t] =>
          destruct (Z.gtb_spec (Z.b2z b) t) as [_ | Hle]; [reflexivity|];
          destruct b; simpl in Hle; lia
      end. }
  split; [exact E|]. rewrite E. apply List.Forall_forall. intros r Hr.
  apply in_map_iff in Hr. destruct Hr as (r0 & <- & _). split; reflexivity.
Qed.

Lemma match_tracks_negative_tolerance_witness :
  -1 < 0
  /\ match_tracks [manifest_200] [inventory_200] (-1)
     = List.map clear_match (merge_left [manifest_200] [inventory_200]).
Proof.
  assert (H : -1 < 0) by lia.
  split; [exact H|].
  exact (proj1 (match_tracks_negative_tolerance [manifest_200] [inventory_200] (-1) H)).
Defined.

(** ** Sorted tables and groups *)

Lemma str_compare_antisym a : forall b, str_compare b a = CompOpp (str_compare a b).
Proof.
  induction a as [|x a IH]; intros [|y b]; try reflexivity. simpl.
  rewrite (N.compare_antisym x y). destruct (x ?= y)%N; simpl; [apply IH | reflexivity..].
Qed.

Lemma str_leb_total a b : str_leb a b = true \/ str_leb b a = true.
Proof.
  unfold str_leb. rewrite (str_compare_antisym a b).
  destruct (str_compare a b); simpl; auto.
Qed.

Section SortedFacts.
Context {A : Type}.
Variable leb : A -> A -> bool.
Hypothesis leb_total : forall a b, leb a b = true \/ leb b a = true.

Lemma insert_sorted_HdRel x y l :
  leb y x = true -> HdRel (fun a b => leb a b = true) y l ->
  HdRel (fun a b => leb a b = true) y (insert_sorted leb x l).
Proof.
  intros Hyx Hl. destruct l as [|z t]; simpl; [constructor; exact Hyx|].
  destruct (leb x z); constructor; [exact Hyx|].
  inversion Hl; assumption.
Qed.

Lemma insert_sorted_Sorted x l :
  Sorted (fun a b => leb a b = true) l ->
  Sorted (fun a b => leb a b = true) (insert_sorted leb x l).
Proof.
  induction 1 as [|y t Ht IH Hhd]; simpl; [repeat constructor|].
  destruct (leb x y) eqn:E.
  - constructor; [constructor; assumption | constructor; exact E].
  - constructor; [exact IH|]. apply insert_sorted_HdRel; [|exact Hhd].
    destruct (leb_total x y) as [H | H]; [congruence | exact H].
Qed.

Lemma sort_by_Sorted l : Sorted (fun a b => leb a b = true) (sort_by leb l).
Proof.
  induction l as [|x t IH]; simpl; [constructor | apply insert_sorted_Sorted, IH].
Qed.
End SortedFacts.

Lemma Sorted_weaken {A} (R R' : A -> A -> Prop) l :
  (forall a b, R a b -> R' a b) -> Sorted R l -> Sorted R' l.
Proof.
  intros HR. induction 1 as [|x t Ht IH Hhd]; constructor; [exact IH|].
  destruct Hhd; constructor; auto.
Qed.

Lemma sorted_distinct_NoDup `{EqDecision K} (leb : K -> K -> bool) (l : list K) :
  NoDup (sorted_distinct leb l).
Proof.
  unfold sorted_distinct. rewrite sort_by_perm. apply NoDup_remove_dups.
Qed.

Lemma groupby_keys `{EqDecision K} {R : Type} (leb : K -> K -> bool) (col : R -> K)
    (df : list R) :
  List.map fst (groupby leb col df) = sorted_distinct leb (List.map col df).
Proof. unfold groupby. rewrite List.map_map. simpl. apply List.map_id. Qed.

Lemma filter_complement_perm {A} (f : A -> bool) (l : list A) :
  Permutation (List.filter f l ++ List.filter (fun x => negb (f x)) l) l.
Proof.
  induction l as [|x l IH]; [constructor|]. simpl. destruct (f x); simpl.
  - constructor. exact IH.
  - symmetry. apply Permutation_cons_app. symmetry. exact IH.
Qed.

Lemma filter_filter_ext {A} (f g : A -> bool) (l : list A) :
  (forall x, In x l -> g x = true -> f x = true) ->
  List.filter g (List.filter f l) = List.filter g l.
Proof.
  intros H. induction l as [|x l IH]; [reflexivity|]. simpl.
  destruct (f x) eqn:Ef; simpl.
  - rewrite IH by (intros; apply H; [right|]; trivial). reflexivity.
  - destruct (g x) eqn:Eg.
    + rewrite (H x (or_introl eq_refl) Eg) in Ef. discriminate.
    + apply IH. intros; apply H; [right|]; trivial.
Qed.

Lemma flat_map_ext_on {A B} (f g : A -> list B) (l : list A) :
  (forall a, In a l -> f a = g a) -> flat_map f l = flat_map g l.
Proof.
  intros H. induction l as [|a l IH]; [reflexivity|]. simpl.
  rewrite (H a (or_introl eq_refl)), IH by (intros; apply H; right; trivial). reflexivity.
Qed.

Lemma groups_partition `{EqDecision K} {R : Type} (col : R -> K) (ks : list K) :
  NoDup ks -> forall df, (forall r, In r df -> In (col r) ks) ->
  Permutation (flat_map (fun k => List.filter (fun r => bool_decide (col r = k)) df) ks) df.
Proof.
  induction 1 as [|k ks Hk Hnd IH]; intros df Hdf.
  - destruct df as [|r df]; [constructor|]. destruct (Hdf r (or_introl eq_refl)).
  - cbn [flat_map].
    etransitivity;
      [|apply (filter_complement_perm (fun r => bool_decide (col r = k)) df)].
    apply Permutation_app_head.
    set (df' := List.filter (fun r => negb (bool_decide (col r = k))) df).
    assert (E : flat_map (fun k0 => List.filter (fun r => bool_decide (col r = k0)) df) ks
                = flat_map (fun k0 => List.filter (fun r => bool_decide (col r = k0)) df') ks).
    { apply flat_map_ext_on. intros k0 Hk0. unfold df'. symmetry.
      apply filter_filter_ext. intros r _ Hr. apply bool_decide_eq_true in Hr.
      apply negb_true_iff, bool_decide_eq_false. intros Hc.
      apply Hk. apply list_elem_of_In. congruence. }
    rewrite E. apply IH. intros r Hr. unfold df' in Hr. apply filter_In in Hr.
    destruct Hr as [Hr Hne]. apply negb_true_iff, bool_decide_eq_false in Hne.
    destruct (Hdf r Hr) as [Heq | Hin]; [congruence | exact Hin].
Qed.

(** The groups of [groupby], one after the other, hold the rows of the
    table, each once. *)
Lemma groupby_partition `{EqDecision K} {R : Type} (leb : K -> K -> bool) (col : R -> K)
    (df : list R) :
  Permutation (concat (List.map snd (groupby leb col df))) df.
Proof.
  unfold groupby. rewrite List.map_map. cbn [snd]. rewrite <- flat_map_concat_map.
  apply groups_partition.
  - apply sorted_distinct_NoDup.
  - intros r Hr. apply In_sorted_distinct, in_map, Hr.
Qed.

Lemma perm_filter_length {A} (f : A -> bool) (l l' : list A) :
  Permutation l l' -> List.length (List.filter f l) = List.length (List.filter f l').
Proof.
  induction 1 as [|x l l' _ IH|x y l|l l' l'' _ IH1 _ IH2]; simpl.
  - reflexivity.
  - destruct (f x); simpl; congruence.
  - destruct (f x), (f y); reflexivity.
  - congruence.
Qed.

Lemma concat_filter_length {A} (f : A -> bool) (ls : list (list A)) :
  List.length (List.filter f (concat ls))
  = fold_right Nat.add O (List.map (fun g => List.length (List.filter f g)) ls).
Proof.
  induction ls as [|g ls IH]; [reflexivity|]. simpl.
  rewrite List.filter_app, List.length_app, IH. reflexivity.
Qed.

(** The rows of the groups that pass a test are as many as the rows of
    the table that pass it. *)
Lemma groupby_filter_sum `{EqDecision K} {R : Type} (leb : K -> K -> bool) (col : R -> K)
    (f : R -> bool) (df : list R) :
  fold_right Nat.add O
    (List.map (fun g => List.length (List.filter f (snd g))) (groupby leb col df))
  = List.length (List.filter f df).
Proof.
  rewrite <- (perm_filter_length f _ _ (groupby_partition leb col df)).
  rewrite concat_filter_length, List.map_map. reflexivity.
Qed.

Lemma filter_true {A} (l : list A) : List.filter (fun _ => true) l = l.
Proof. induction l as [|x l IH]; simpl; congruence. Qed.

(** ** The shopping list *)

Lemma shopping_leb_total a b : shopping_leb a b = true \/ shopping_leb b a = true.
Proof.
  unfold shopping_leb.
  destruct (Nat.ltb_spec (sl_Playlists_Count b) (sl_Playlists_Count a)); [auto|].
  destruct (Nat.ltb_spec (sl_Playlists_Count a) (sl_Playlists_Count b)); [auto|].
  destruct (sl_Is_Liked a), (sl_Is_Liked b); simpl; auto;
    rewrite (str_compare_antisym (sl_Artist a) (sl_Artist b));
    destruct (str_compare (sl_Artist a) (sl_Artist b)); simpl; auto; apply str_leb_total.
Qed.

Lemma shopping_leb_count a b :
  shopping_leb a b = true -> (sl_Playlists_Count b <= sl_Playlists_Count a)%nat.
Proof.
  unfold shopping_leb.
  destruct (Nat.ltb_spec (sl_Playlists_Count b) (sl_Playlists_Count a)); [lia|].
  destruct (Nat.ltb_spec (sl_Playlists_Count a) (sl_Playlists_Count b)); [discriminate | lia].
Qed.

(** X8: the shopping list is in the order of its sort: every row is
    before or equal to the next one in the order of line 254, and the
    number of playlists never grows down the list. *)
Theorem shopping_list_sorted (matched_df : list MatchedRecord) :
  Sorted (fun a b => shopping_leb a b = true) (build_shopping_list matched_df)
  /\ StronglySorted (fun a b => (sl_Playlists_Count b <= sl_Playlists_Count a)%nat)
       (build_shopping_list matched_df).
Proof.
  assert (H : Sorted (fun a b => shopping_leb a b = true) (build_shopping_list matched_df))
    by apply (sort_by_Sorted shopping_leb shopping_leb_total).
  split; [exact H|]. apply Sorted_StronglySorted.
  - intros a b c Hab Hbc. lia.
  - eapply Sorted_weaken; [|exact H]. apply shopping_leb_count.
Qed.

Lemma drop_duplicates_keys `{EqDecision K} {R : Type} (col : R -> K) (df : list R) :
  forall seen,
  NoDup (List.map col (drop_duplicates col seen df))
  /\ forall k, In k (List.map col (drop_duplicates col seen df))
               <-> In k (List.map col df) /\ ~ In k seen.
Proof.
  induction df as [|r rest IH]; intros seen.
  - simpl. split; [constructor | tauto].
  - cbn [drop_duplicates]. destruct (bool_decide (col r ∈ seen)) eqn:E.
    + apply bool_decide_eq_true, list_elem_of_In in E.
      destruct (IH seen) as [Hnd Hin]. split; [exact Hnd|].
      intros k. rewrite Hin. simpl. split; [tauto|].
      intros [[<- | Hk] Hs]; [contradiction | tauto].
    + apply bool_decide_eq_false in E. rewrite list_elem_of_In in E.
      destruct (IH (col r :: seen)) as [Hnd Hin]. split.
      * cbn [List.map]. apply NoDup_cons. split; [|exact Hnd].
        rewrite list_elem_of_In, Hin. simpl. tauto.
      * intros k. cbn [List.map In]. rewrite Hin. simpl.
        destruct (decide (col r = k)) as [<- | Hne]; tauto.
Qed.

Lemma drop_duplicates_length `{EqDecision K} {R : Type} (col : R -> K) (df : list R) :
  List.length (drop_duplicates col [] df) = List.length (remove_dups (List.map col df)).
Proof.
  destruct (drop_duplicates_keys col df []) as [Hnd Hin].
  rewrite <- (List.length_map col (drop_duplicates col [] df)).
  apply Permutation_length, NoDup_Permutation; [exact Hnd | apply NoDup_remove_dups|].
  intros k. rewrite elem_of_remove_dups, !list_elem_of_In, Hin. simpl. tauto.
Qed.

Lemma shopping_list_perm matched_df :
  Permutation (build_shopping_list matched_df)
              (List.map shopping_columns (grouped_missing matched_df)).
Proof. apply sort_by_perm. Qed.

Lemma shopping_keys_distinct matched_df :
  shopping_keys matched_df
  = sorted_distinct key_leb (List.map mr_key (missing_rows matched_df)).
Proof.
  unfold shopping_keys, grouped_missing. rewrite List.map_map.
  change (fun x => g_key (aggregate x)) with (@fst key (list MatchedRecord)).
  apply groupby_keys.
Qed.

Lemma shopping_list_length matched_df :
  List.length (build_shopping_list matched_df) = List.length (shopping_keys matched_df).
Proof.
  rewrite (Permutation_length (shopping_list_perm matched_df)).
  unfold shopping_keys. rewrite !List.length_map. reflexivity.
Qed.

(** X9: the shopping list has one row for every distinct key among the
    rows without a file: as many rows as the count [missing_unique] of
    the statistics cell, and none exactly when every row of the table has
    a file. *)
Theorem shopping_list_counts_missing_keys (matched_df : list MatchedRecord) :
  List.length (build_shopping_list matched_df) = missing_unique matched_df
  /\ (build_shopping_list matched_df = []
      <-> Forall (fun r => is_present (mr_file_path r) = true) matched_df).
Proof.
  split.
  - rewrite shopping_list_length, shopping_keys_distinct. unfold missing_unique.
    rewrite drop_duplicates_length. unfold sorted_distinct.
    apply Permutation_length, sort_by_perm.
  - split.
    + intros He. apply List.Forall_forall. intros r Hr.
      destruct (mr_file_path r) as [p|] eqn:Hp; [reflexivity|]. exfalso.
      assert (Hk : In (mr_key r) (shopping_keys matched_df))
        by (apply In_shopping_keys; eauto).
      pose proof (shopping_list_length matched_df) as Hl. rewrite He in Hl.
      destruct (shopping_keys matched_df); [destruct Hk | discriminate].
    + intros Hall. unfold build_shopping_list, grouped_missing.
      assert (Hm : missing_rows matched_df = []).
      { unfold missing_rows. induction Hall as [|r df Hr _ IH]; [reflexivity|].
        simpl. rewrite Hr. exact IH. }
      rewrite Hm. reflexivity.
Qed.

(** X10: the rows of the shopping list are the aggregated groups, one for
    each key; a group lists, sorted and without repetition, exactly the
    playlists in which a row of its key has no file (at least one), and
    it is flagged as liked exactly when one of these rows is. *)
Theorem shopping_list_groups (matched_df : list MatchedRecord) :
  Permutation (build_shopping_list matched_df)
              (List.map shopping_columns (grouped_missing matched_df))
  /\ NoDup (shopping_keys matched_df)
  /\ Forall (fun g =>
       (1 <= List.length (g_playlist_name g))%nat
       /\ NoDup (g_playlist_name g)
       /\ Sorted (fun a b => str_leb a b = true) (g_playlist_name g)
       /\ (forall p, In p (g_playlist_name g)
             <-> exists r, In r matched_df /\ mr_file_path r = None
                           /\ mr_key r = g_key g
                           /\ m_playlist_name (mr_manifest r) = p)
       /\ (g_is_liked g = true
             <-> exists r, In r matched_df /\ mr_file_path r = None
                           /\ mr_key r = g_key g
                           /\ m_is_liked (mr_manifest r) = true))
     (grouped_missing matched_df).
Proof.
  split; [apply shopping_list_perm|]. split.
  { rewrite shopping_keys_distinct. apply sorted_distinct_NoDup. }
  apply List.Forall_forall. intros g Hg. unfold grouped_missing in Hg.
  apply in_map_iff in Hg. destruct Hg as ([k rows] & <- & Hg).
  apply In_groupby in Hg. cbn [fst snd] in Hg. destruct Hg as ((r0 & Hr0 & Hk0) & Hrows).
  assert (Hmem : forall r, In r rows
            <-> In r matched_df /\ mr_file_path r = None /\ mr_key r = k).
  { intros r. rewrite Hrows. unfold missing_rows. rewrite !filter_In.
    rewrite bool_decide_eq_true. destruct (mr_file_path r); simpl; intuition congruence. }
  unfold aggregate. cbn [fst snd g_playlist_name g_is_liked g_key].
  assert (Hp : forall p,
            In p (sorted_distinct str_leb
                    (List.map m_playlist_name (List.map mr_manifest rows)))
            <-> exists r, In r matched_df /\ mr_file_path r = None /\ mr_key r = k
                          /\ m_playlist_name (mr_manifest r) = p).
  { intros p. rewrite In_sorted_distinct, List.map_map, in_map_iff. split.
    - intros (r & <- & Hr). apply Hmem in Hr. exists r. tauto.
    - intros (r & H1 & H2 & H3 & <-). exists r. split; [reflexivity|]. apply Hmem. tauto. }
  split; [|split; [|split; [|split]]].
  - assert (Hin : In (m_playlist_name (mr_manifest r0))
                    (sorted_distinct str_leb
                       (List.map m_playlist_name (List.map mr_manifest rows)))).
    { apply Hp. exists r0. unfold missing_rows in Hr0. apply filter_In in Hr0.
      destruct Hr0 as [Hr0 Hf]. destruct (mr_file_path r0); [discriminate|]. tauto. }
    destruct (sorted_distinct _ _); [destruct Hin | simpl; lia].
  - apply sorted_distinct_NoDup.
  - apply (sort_by_Sorted str_leb str_leb_total).
  - exact Hp.
  - rewrite existsb_exists. split.
    + intros (m & Hm & Hl). apply in_map_iff in Hm. destruct Hm as (r & <- & Hr).
      apply Hmem in Hr. exists r. tauto.
    + intros (r & H1 & H2 & H3 & H4). exists (mr_manifest r). split; [|exact H4].
      apply in_map, Hmem. tauto.
Qed.

(** ** The orphan list *)

(** X11: an inventory record is in the orphan list exactly when no
    manifest record has its key; with a tolerance of one millisecond or
    more every local file is accounted for: it is an orphan, or a row of
    the matcher with its key resolves to it. *)
Theorem inventory_orphaned_or_matched (s : list ManifestRecord)
    (l : list InventoryRecord) (tolerance : Z) :
  Forall (fun i =>
       (In i (orphaned (match_tracks s l tolerance) l)
        <-> forall m, In m s -> m_key m <> lib_key i)
       /\ (1 <= tolerance ->
           In i (orphaned (match_tracks s l tolerance) l)
           \/ exists r, In r (match_tracks s l tolerance)
                        /\ mr_key r = lib_key i
                        /\ mr_file_path r = Some (lib_file_path i)))
    l.
Proof.
  apply List.Forall_forall. intros i Hi.
  assert (Hkeys : lib_key i ∈ playlist_keys (match_tracks s l tolerance)
                  <-> exists m, In m s /\ m_key m = lib_key i).
  { rewrite In_playlist_keys. split.
    - intros (r & Hr & Hk). exists (mr_manifest r). split; [|exact Hk].
      apply (match_tracks_row_origin s l tolerance r Hr).
    - intros (m & Hm & Hk).
      destruct (match_tracks_covers_manifest s l tolerance m Hm) as (r & Hr & Hrm).
      exists r. split; [exact Hr|]. unfold mr_key. rewrite Hrm. exact Hk. }
  assert (Horph : In i (orphaned (match_tracks s l tolerance) l)
                  <-> ~ lib_key i ∈ playlist_keys (match_tracks s l tolerance)).
  { unfold orphaned. rewrite filter_In, bool_decide_eq_true. tauto. }
  split.
  - rewrite Horph, Hkeys. split.
    + intros Hn m Hm Hk. apply Hn. eauto.
    + intros Hall (m & Hm & Hk). exact (Hall m Hm Hk).
  - intros Htol.
    destruct (decide (lib_key i ∈ playlist_keys (match_tracks s l tolerance)))
      as [Hin | Hout]; [right | left; apply Horph; exact Hout].
    apply Hkeys in Hin. destruct Hin as (m & Hm & Hk).
    exists (joined_row m i). rewrite (match_tracks_plain_join s l tolerance Htol).
    split; [|split; [exact Hk | reflexivity]].
    apply merge_left_rows. exists m. split; [exact Hm|]. right. exists i. auto.
Qed.

(** ** Totals of the statistics and of the export *)

Lemma sum_Z_perm (l l' : list Z) :
  Permutation l l' -> fold_right Z.add 0 l = fold_right Z.add 0 l'.
Proof.
  induction 1 as [|x l l' _ IH|x y l|l l' l'' _ IH1 _ IH2]; simpl; lia.
Qed.

Lemma sum_Z_of_nat {A} (f : A -> nat) (l : list A) :
  fold_right Z.add 0 (List.map (fun x => Z.of_nat (f x)) l)
  = Z.of_nat (fold_right Nat.add O (List.map f l)).
Proof. induction l as [|x l IH]; simpl; [reflexivity | rewrite IH; lia]. Qed.

Lemma stats_leb_total a b : stats_leb a b = true \/ stats_leb b a = true.
Proof.
  unfold stats_leb.
  rewrite <- (Qcompare_antisym (st_Percent_Complete b) (st_Percent_Complete a)).
  destruct (st_Percent_Complete b ?= st_Percent_Complete a)%Q; simpl; auto.
  apply str_leb_total.
Qed.

Lemma stats_rows_perm matched_df rows :
  stats matched_df = Some rows ->
  Permutation rows
    (List.map stats_row
       (groupby str_leb (fun r => m_playlist_name (mr_manifest r)) matched_df)).
Proof.
  unfold stats. destruct matched_df as [|r0 df0]; [discriminate|].
  intros [= <-]. apply sort_by_perm.
Qed.

(** X12: the totals that the statistics cell prints add up over the
    playlists to the table: the total is the number of rows of the
    matcher output, the missing count the number of rows without a file,
    the matched count the number of rows with one.  The statistics have
    one row for each playlist name, in the order of their sort. *)
Theorem stats_totals (matched_df : list MatchedRecord) (rows : list StatsRow) :
  stats matched_df = Some rows ->
  overall_total rows = Z.of_nat (List.length matched_df)
  /\ overall_missing rows = Z.of_nat (List.length (missing_rows matched_df))
  /\ overall_matched rows
     = Z.of_nat (List.length
                   (List.filter (fun r => is_present (mr_file_path r)) matched_df))
  /\ NoDup (List.map st_playlist_name rows)
  /\ Sorted (fun a b => stats_leb a b = true) rows.
Proof.
  intros Hs. pose proof (stats_rows_perm matched_df rows Hs) as Hperm.
  set (groups := groupby str_leb (fun r => m_playlist_name (mr_manifest r)) matched_df)
    in Hperm.
  assert (Ht : overall_total rows = Z.of_nat (List.length matched_df)).
  { unfold overall_total.
    rewrite (sum_Z_perm _ _ (Permutation_map st_Total_Tracks Hperm)), List.map_map.
    cbn [stats_row st_Total_Tracks].
    rewrite (sum_Z_of_nat (fun g => List.length (snd g)) groups).
    pose proof (groupby_filter_sum str_leb (fun r => m_playlist_name (mr_manifest r))
                  (fun _ => true) matched_df) as Hsum.
    rewrite filter_true in Hsum. rewrite <- Hsum. do 2 f_equal.
    apply map_ext. intros g. rewrite filter_true. reflexivity. }
  assert (Hm : overall_missing rows = Z.of_nat (List.length (missing_rows matched_df))).
  { unfold overall_missing.
    rewrite (sum_Z_perm _ _ (Permutation_map st_Missing_Tracks Hperm)), List.map_map.
    cbn [stats_row st_Missing_Tracks]. unfold missing_rows.
    rewrite <- (groupby_filter_sum str_leb (fun r => m_playlist_name (mr_manifest r))
                  (fun r => negb (is_present (mr_file_path r))) matched_df).
    fold groups. rewrite <- sum_Z_of_nat. f_equal. apply map_ext. intros g.
    pose proof (written_missing_count (snd g)) as Hw.
    unfold written_count, missing_count in Hw. lia. }
  split; [exact Ht|]. split; [exact Hm|]. split; [|split].
  - unfold overall_matched. rewrite Ht, Hm. unfold missing_rows.
    pose proof (written_missing_count matched_df) as Hw.
    unfold written_count, missing_count in Hw. lia.
  - rewrite (Permutation_map st_playlist_name Hperm), List.map_map.
    change (fun x => st_playlist_name (stats_row x)) with (@fst str (list MatchedRecord)).
    unfold groups. rewrite groupby_keys. apply sorted_distinct_NoDup.
  - unfold stats in Hs. destruct matched_df as [|r0 df0]; [discriminate|].
    injection Hs as <-. apply (sort_by_Sorted stats_leb stats_leb_total).
Qed.

Lemma stats_totals_witness :
  stats stats_example = Some [stats_example_row]
  /\ overall_total [stats_example_row] = Z.of_nat (List.length stats_example).
Proof.
  assert (H : stats stats_example = Some [stats_example_row]) by (vm_compute; reflexivity).
  split; [exact H|].
  exact (proj1 (stats_totals stats_example [stats_example_row] H)).
Defined.

Lemma fold_left_add_sum {A} (f : A -> nat) (l : list A) : forall n,
  fold_left (fun n g => (n + f g)%nat) l n
  = (n + fold_right Nat.add O (List.map f l))%nat.
Proof.
  induction l as [|x l IH]; intros n; simpl; [lia | rewrite IH; lia].
Qed.

Lemma safe_path_component_chars tbl value fallback :
  Forall (fun c => invalid_path_char c = false) fallback ->
  Forall (fun c => invalid_path_char c = false) (safe_path_component tbl value fallback).
Proof.
  intros Hf. rewrite safe_path_component_sanitized.
  pose proof (strip_Forall _ _ (filter_valid_chars
     (unidecode tbl match value with
                    | None | Some [] => fallback
                    | Some v => strip v
                    end))) as Hv.
  fold (sanitized tbl value fallback) in Hv.
  destruct (sanitized tbl value fallback); [exact Hf | exact Hv].
Qed.

Lemma safe_path_component_not_empty tbl value fallback :
  fallback <> [] -> safe_path_component tbl value fallback <> [].
Proof.
  intros Hf. rewrite safe_path_component_sanitized.
  destruct (sanitized tbl value fallback); [exact Hf | discriminate].
Qed.

(** X13: the export accounts for every row of the table: the rows it
    skips because they have no file and the tracks it writes, summed over
    the log, are the rows of the matcher output; the skipped ones are the
    rows without a file, and the log has one row for each file written. *)
Theorem export_accounts_for_every_row (unidecode_table : N -> str)
    (matched_df : list MatchedRecord) (export_dir_name music_folder_name : str) :
  let out := export_playlists unidecode_table matched_df export_dir_name music_folder_name in
  (missing_tracks out
   + fold_right Nat.add O (List.map el_tracks_written (export_log out)))%nat
  = List.length matched_df
  /\ missing_tracks out = List.length (missing_rows matched_df)
  /\ fold_right Nat.add O (List.map el_tracks_written (export_log out))
     = List.length (List.filter (fun r => is_present (mr_file_path r)) matched_df)
  /\ List.map el_playlist_file (export_log out)
     = List.map (fun f => [export_dir_name; fst f]) (files_written out).
Proof.
  intros out.
  assert (Hm : missing_tracks out = List.length (missing_rows matched_df)).
  { unfold out, export_playlists. cbn [missing_tracks].
    rewrite (fold_left_add_sum (fun g => missing_count (snd g))). simpl.
    apply (groupby_filter_sum str_leb (fun r => m_playlist_name (mr_manifest r))
             (fun r => negb (is_present (mr_file_path r))) matched_df). }
  assert (Hw : fold_right Nat.add O (List.map el_tracks_written (export_log out))
               = List.length
                   (List.filter (fun r => is_present (mr_file_path r)) matched_df)).
  { unfold out, export_playlists. cbn [export_log]. rewrite List.map_map.
    cbn [el_tracks_written].
    apply (groupby_filter_sum str_leb (fun r => m_playlist_name (mr_manifest r))
             (fun r => is_present (mr_file_path r)) matched_df). }
  split; [|split; [exact Hm|split; [exact Hw|]]].
  - rewrite Hm, Hw. pose proof (written_missing_count matched_df) as H.
    unfold written_count, missing_count, missing_rows in *. lia.
  - unfold out, export_playlists. cbn [export_log files_written].
    rewrite !List.map_map. reflexivity.
Qed.

(** X14: every playlist file has a name that the device can store: a
    stem that is not empty and holds none of the invalid path characters
    (so no path separator), followed by [.m3u8]. *)
Theorem export_file_names_valid (unidecode_table : N -> str)
    (matched_df : list MatchedRecord) (export_dir_name music_folder_name : str) :
  Forall (fun f => exists safe_name,
            fst f = safe_name ++ lit ".m3u8"
            /\ safe_name <> []
            /\ Forall (fun c => invalid_path_char c = false) safe_name)
    (files_written (export_playlists unidecode_table matched_df
                      export_dir_name music_folder_name)).
Proof.
  apply List.Forall_forall. intros f Hf. unfold export_playlists in Hf.
  cbn [files_written] in Hf. apply in_map_iff in Hf. destruct Hf as (g & <- & _).
  cbn [fst]. unfold playlist_file_name. eexists. split; [reflexivity|]. split.
  - apply safe_path_component_not_empty. discriminate.
  - apply safe_path_component_chars. repeat constructor.
Qed.




(** ** What an import does to the library *)

Lemma supported_suffix_name name :
  existsb (str_eqb (lower (suffix name))) SUPPORTED_IMPORT_SUFFIXES = true ->
  stem name <> [] /\ (2 <= List.length (suffix name))%nat.
Proof.
  unfold suffix, stem. destruct (dot_index name) as [i|] eqn:E.
  - intros _. unfold dot_index in E. destruct (rfind_dot name) as [j|]; [|discriminate].
    destruct ((0 <? j)%nat && (j <? List.length name - 1)%nat) eqn:Hj; [|discriminate].
    injection E as <-. apply andb_true_iff in Hj. destruct Hj as [H0 H1].
    apply Nat.ltb_lt in H0, H1. split.
    + intros Hs. apply (f_equal (@List.length N)) in Hs.
      rewrite List.length_firstn in Hs. simpl in Hs. lia.
    + rewrite List.length_skipn. lia.
  - intros H. vm_compute in H. discriminate.
Qed.

Lemma title_fallback_truthy v rel :
  existsb (str_eqb (lower (suffix (path_name rel)))) SUPPORTED_IMPORT_SUFFIXES = true ->
  truthy (title_fallback v rel) = true.
Proof.
  intros Hs. unfold title_fallback. destruct (truthy v) eqn:E; [exact E|].
  destruct (supported_suffix_name _ Hs) as [Hstem _]. simpl.
  destruct (stem (path_name rel)); [contradiction | reflexivity].
Qed.

Lemma rel_parent_parts_not_empty rel :
  existsb (str_eqb (lower (suffix (path_name rel)))) SUPPORTED_IMPORT_SUFFIXES = true ->
  rel_parent_parts rel <> [].
Proof.
  intros Hs. destruct rel as [|p0 rest]; [vm_compute in Hs; discriminate|].
  unfold rel_parent_parts. destruct (bool_decide (p0 = PLAYLIST_STAGE_FOLDER)) eqn:E;
    [|discriminate].
  apply bool_decide_eq_true in E. subst p0.
  destruct rest; [vm_compute in Hs|]; discriminate.
Qed.

Lemma rel_parent_parts_Forall (P : str -> Prop) rel :
  Forall P rel -> Forall P (rel_parent_parts rel).
Proof.
  intros H. destruct rel as [|p0 rest]; [constructor|]. unfold rel_parent_parts.
  destruct (bool_decide _); [inversion H; assumption | exact H].
Qed.

Lemma truthy_not_empty p : p <> [] -> truthy (Some p) = true.
Proof. destruct p; [contradiction | reflexivity]. Qed.

Lemma artist_fallback_truthy v rel :
  Forall (fun p => p <> []) rel ->
  existsb (str_eqb (lower (suffix (path_name rel)))) SUPPORTED_IMPORT_SUFFIXES = true ->
  truthy (artist_fallback v (rel_parent_parts rel)) = true.
Proof.
  intros Hparts Hs. unfold artist_fallback. destruct (truthy v) eqn:E; [exact E|].
  pose proof (rel_parent_parts_not_empty rel Hs) as Hne.
  pose proof (rel_parent_parts_Forall _ rel Hparts) as Hf.
  destruct (rel_parent_parts rel) as [|p ps]; [contradiction|].
  inversion Hf; subst. apply truthy_not_empty. assumption.
Qed.

Lemma album_fallback_truthy v rel :
  Forall (fun p => p <> []) rel ->
  (2 <= List.length (rel_parent_parts rel))%nat ->
  truthy (album_fallback v (rel_parent_parts rel)) = true.
Proof.
  intros Hparts Hlen. unfold album_fallback. destruct (truthy v) eqn:E; [exact E|].
  pose proof (rel_parent_parts_Forall _ rel Hparts) as Hf.
  destruct (rel_parent_parts rel) as [|p [|q ps]]; simpl in Hlen; try lia.
  inversion Hf as [|? ? _ Hf']; subst. inversion Hf'; subst.
  apply truthy_not_empty. assumption.
Qed.

Section ImportEffects.
Variable unidecode_table : N -> str.
Variable env : Staging.
Variable music_root : str.

Lemma place_inv fs rel action artist_value album_value title_value a fs' :
  place unidecode_table env music_root fs rel action artist_value album_value title_value
  = Recorded a fs' ->
  (exists status reason,
     a = finish action status reason
     /\ In status [skipped_exists; skipped_duplicate_title; error_move]
     /\ (fs' = fs
         \/ (status = error_move
             /\ mkdir_parents fs (dest_dir_of unidecode_table artist_value album_value)
                = Some fs')))
  \/ (exists fs1,
        lib_exists fs (dest_path_of unidecode_table rel artist_value album_value title_value)
        = false
        /\ mkdir_parents fs (dest_dir_of unidecode_table artist_value album_value) = Some fs1
        /\ fs' = fs1 ++ [(dest_path_of unidecode_table rel artist_value album_value
                            title_value, RegularFile)]
        /\ a = {| a_source := a_source action;
                  a_destination :=
                    Some (as_posix (dest_path_of unidecode_table rel artist_value
                                      album_value title_value));
                  a_playlist_target := a_playlist_target action;
                  a_status := moved;
                  a_reason := None;
                  a_artist := artist_value;
                  a_album := album_value;
                  a_title := title_value |}).
Proof.
  unfold place. intros H.
  destruct (if lib_exists fs (dest_dir_of unidecode_table artist_value album_value)
            then _ else _) as [duplicate_target|]; [|discriminate].
  destruct (lib_exists fs (dest_path_of unidecode_table rel artist_value album_value
                             title_value)) eqn:Hdest.
  { injection H as <- <-. left. eexists _, _. split; [reflexivity|]. simpl. auto. }
  destruct duplicate_target as [existing_file|].
  { injection H as <- <-. left. eexists _, _. split; [reflexivity|]. simpl. auto. }
  destruct (mkdir_parents fs (dest_dir_of unidecode_table artist_value album_value))
    as [fs1|] eqn:Hmk.
  2: { injection H as <- <-. left. eexists _, _. split; [reflexivity|]. simpl. auto. }
  destruct (move_error env rel _) as [message|].
  { injection H as <- <-. left. eexists _, _. split; [reflexivity|]. simpl. auto. }
  injection H as <- <-. right. exists fs1. auto.
Qed.

Lemma place_not_skipped fs rel action artist_value album_value title_value :
  place unidecode_table env music_root fs rel action artist_value album_value title_value
  <> Skipped.
Proof.
  unfold place.
  destruct (if lib_exists fs (dest_dir_of unidecode_table artist_value album_value)
            then _ else _) as [duplicate_target|]; [|discriminate].
  destruct (lib_exists fs _); [discriminate|].
  destruct duplicate_target; [discriminate|].
  destruct (mkdir_parents fs _); [|discriminate].
  destruct (move_error env rel _); discriminate.
Qed.

Lemma process_file_inv staging_lookup fs rel a fs' :
  process_file unidecode_table env music_root staging_lookup fs rel = Recorded a fs' ->
  is_import_candidate env rel = true
  /\ ((exists status reason target,
         a = finish (with_playlist_target (new_action rel) target) status reason
         /\ In status [skipped_missing_source; error_read; skipped_unknown_artist;
                       skipped_unknown_album; skipped_missing_tags]
         /\ (target = None \/ target = playlist_target_of staging_lookup rel)
         /\ (status = skipped_unknown_artist ->
             exists v, truthy (artist_fallback v (rel_parent_parts rel)) = false)
         /\ (status = skipped_unknown_album ->
             exists v, truthy (album_fallback v (rel_parent_parts rel)) = false)
         /\ (status = skipped_missing_tags ->
             exists v, truthy (title_fallback v rel) = false)
         /\ fs' = fs)
      \/ (exists artist_value album_value title_value,
            truthy artist_value = true /\ truthy album_value = true
            /\ truthy title_value = true
            /\ place unidecode_table env music_root fs rel
                 (with_playlist_target (new_action rel)
                    (playlist_target_of staging_lookup rel))
                 artist_value album_value title_value
               = Recorded a fs')).
Proof.
  unfold process_file, is_import_candidate. intros H.
  destruct (is_file env rel); [|discriminate].
  destruct (existsb _ SUPPORTED_IMPORT_SUFFIXES); [|discriminate].
  split; [reflexivity|]. cbn [negb] in H. cbv zeta in H.
  destruct (path_exists env rel); cbn [negb] in H.
  2: { injection H as <- <-. left. exists skipped_missing_source. eexists _, None.
       split; [reflexivity|]. simpl. intuition discriminate. }
  destruct (MutagenFile env rel) as [message | artist_tag title_tag album_tag].
  { injection H as <- <-. left. exists error_read. eexists _, _.
    split; [reflexivity|]. simpl. intuition discriminate. }
  destruct (truthy (artist_fallback (tag_value artist_tag) (rel_parent_parts rel)))
    eqn:Hartist; cbn [negb] in H.
  2: { injection H as <- <-. left. exists skipped_unknown_artist. eexists _, _.
       split; [reflexivity|]. simpl. intuition (try discriminate); eauto. }
  destruct (truthy (album_fallback (tag_value album_tag) (rel_parent_parts rel)))
    eqn:Halbum; cbn [negb] in H.
  2: { injection H as <- <-. left. exists skipped_unknown_album. eexists _, _.
       split; [reflexivity|]. simpl. intuition (try discriminate); eauto. }
  destruct (truthy (title_fallback (tag_value title_tag) rel)) eqn:Htitle; cbn [negb] in H.
  2: { injection H as <- <-. left. exists skipped_missing_tags. eexists _, _.
       split; [reflexivity|]. simpl. intuition (try discriminate); eauto. }
  right.
  exists (artist_fallback (tag_value artist_tag) (rel_parent_parts rel)),
         (album_fallback (tag_value album_tag) (rel_parent_parts rel)),
         (title_fallback (tag_value title_tag) rel).
  auto.
Qed.

Lemma process_file_filter staging_lookup fs rel :
  match process_file unidecode_table env music_root staging_lookup fs rel with
  | Skipped => is_import_candidate env rel = false
  | Recorded a _ => is_import_candidate env rel = true /\ a_source a = as_posix rel
  | Raised => is_import_candidate env rel = true
  end.
Proof.
  destruct (process_file unidecode_table env music_root staging_lookup fs rel)
    as [|a fs'|] eqn:H.
  - unfold process_file, is_import_candidate in *.
    destruct (is_file env rel); [|reflexivity].
    destruct (existsb _ SUPPORTED_IMPORT_SUFFIXES); [|reflexivity].
    exfalso. cbn [negb] in H. cbv zeta in H.
    destruct (path_exists env rel); cbn [negb] in H; [|discriminate].
    destruct (MutagenFile env rel); [discriminate|].
    destruct (truthy (artist_fallback _ _)); cbn [negb] in H; [|discriminate].
    destruct (truthy (album_fallback _ _)); cbn [negb] in H; [|discriminate].
    destruct (truthy (title_fallback _ _)); cbn [negb] in H; [|discriminate].
    exact (place_not_skipped _ _ _ _ _ _ H).
  - destruct (process_file_inv _ _ _ _ _ H) as [Hc Hcase]. split; [exact Hc|].
    destruct Hcase as [(status & reason & target & -> & _)
                      | (av & bv & tv & _ & _ & _ & Hp)]; [reflexivity|].
    apply place_inv in Hp.
    destruct Hp as [(status & reason & -> & _) | (fs1 & _ & _ & _ & ->)]; reflexivity.
  - unfold process_file, is_import_candidate in *.
    destruct (is_file env rel); [|discriminate].
    destruct (existsb _ SUPPORTED_IMPORT_SUFFIXES); [reflexivity | discriminate].
Qed.

End ImportEffects.

Lemma lib_exists_false fs p :
  p <> [] -> lib_exists fs p = false -> ~ In p (List.map fst fs).
Proof.
  intros Hp H Hin. destruct p as [|x p]; [contradiction|].
  apply in_map_iff in Hin. destruct Hin as (e & He & Hin).
  assert (Ht : lib_exists fs (x :: p) = true).
  { unfold lib_exists. apply existsb_exists. exists e. split; [exact Hin|].
    apply bool_decide_eq_true, He. }
  congruence.
Qed.

Lemma ancestors_and_self_NoDup d : NoDup (ancestors_and_self d).
Proof.
  unfold ancestors_and_self. apply NoDup_fmap_2_strong; [|apply NoDup_seq].
  intros n m Hn Hm Heq. apply elem_of_seq in Hn, Hm.
  apply (f_equal (@List.length str)) in Heq. rewrite !List.length_firstn in Heq. lia.
Qed.

Lemma ancestors_and_self_length d q :
  In q (ancestors_and_self d) -> (1 <= List.length q <= List.length d)%nat.
Proof.
  unfold ancestors_and_self. intros H. apply in_map_iff in H.
  destruct H as (n & <- & Hn). apply in_seq in Hn. rewrite List.length_firstn. lia.
Qed.

Lemma NoDup_list_filter {A} (f : A -> bool) (l : list A) :
  NoDup l -> NoDup (List.filter f l).
Proof.
  induction 1 as [|x l Hx _ IH]; [constructor|]. simpl.
  destruct (f x); [|exact IH]. constructor; [|exact IH].
  rewrite list_elem_of_In, filter_In, <- list_elem_of_In. tauto.
Qed.

Lemma mkdir_parents_inv fs d fs1 :
  mkdir_parents fs d = Some fs1 ->
  exists dirs,
    fs1 = fs ++ dirs
    /\ List.filter is_regular dirs = []
    /\ (forall e, In e dirs -> (List.length (fst e) <= List.length d)%nat)
    /\ (NoDup (List.map fst fs) -> NoDup (List.map fst fs1)).
Proof.
  unfold mkdir_parents. destruct (existsb _ _); [discriminate|]. intros [= <-].
  set (new := List.filter (fun q => negb (lib_exists fs q)) (ancestors_and_self d)).
  exists (List.map (fun q => (q, Directory)) new). split; [reflexivity|].
  split; [|split].
  - clear. induction new as [|q new IH]; [reflexivity | exact IH].
  - intros e He. apply in_map_iff in He. destruct He as (q & <- & Hq).
    unfold new in Hq. apply filter_In in Hq.
    apply (ancestors_and_self_length d q), Hq.
  - intros Hnd. rewrite List.map_app, List.map_map. cbn [fst]. rewrite List.map_id.
    apply NoDup_app. split; [exact Hnd|]. split.
    + intros q Hq Hq'. apply list_elem_of_In in Hq, Hq'. unfold new in Hq'.
      apply filter_In in Hq'. destruct Hq' as [Hanc Hne].
      apply negb_true_iff in Hne.
      apply (lib_exists_false fs q); [|exact Hne | exact Hq].
      pose proof (ancestors_and_self_length d q Hanc). destruct q; simpl in *; [lia | discriminate].
    + unfold new. apply NoDup_list_filter, ancestors_and_self_NoDup.
Qed.

Section ImportLibrary.
Variable unidecode_table : N -> str.
Variable env : Staging.
Variable music_root : str.

Lemma dest_path_below_dir rel artist_value album_value title_value :
  existsb (str_eqb (lower (suffix (path_name rel)))) SUPPORTED_IMPORT_SUFFIXES = true ->
  exists name,
    dest_path_of unidecode_table rel artist_value album_value title_value
    = dest_dir_of unidecode_table artist_value album_value ++ [name].
Proof.
  intros Hs. unfold dest_path_of, path_join at 1.
  destruct (supported_suffix_name _ Hs) as [_ Hlen].
  match goal with
  | |- context [if ?b then _ else _] => destruct b eqn:E; [|eexists; reflexivity]
  end.
  exfalso. apply bool_decide_eq_true in E. apply (f_equal (@List.length N)) in E.
  rewrite List.length_app, lower_length in E. simpl in E. lia.
Qed.

Lemma process_file_effect staging_lookup fs rel a fs' :
  process_file unidecode_table env music_root staging_lookup fs rel = Recorded a fs' ->
  exists added,
    fs' = fs ++ added
    /\ (NoDup (List.map fst fs) -> NoDup (List.map fst fs'))
    /\ List.length (List.filter is_regular added) = (if is_moved a then 1 else 0)%nat
    /\ (a_status a <> moved -> a_status a <> error_move -> added = []).
Proof.
  intros H. destruct (process_file_inv _ _ _ _ _ _ _ _ H) as [Hc Hcase].
  unfold is_import_candidate in Hc. apply andb_true_iff in Hc. destruct Hc as [_ Hs].
  destruct Hcase as [(status & reason & target & -> & Hst & _ & _ & _ & _ & ->)
                    | (av & bv & tv & _ & _ & _ & Hp)].
  { exists []. rewrite app_nil_r. split; [reflexivity|]. split; [auto|]. split; [|auto].
    simpl in Hst. unfold is_moved. cbn [finish a_status].
    destruct Hst as [<- | [<- | [<- | [<- | [<- | []]]]]]; reflexivity. }
  apply place_inv in Hp.
  destruct Hp as [(status & reason & -> & Hst & Hfs) | (fs1 & Hdest & Hmk & -> & ->)].
  - assert (Hnm : is_moved (finish (with_playlist_target (new_action rel)
                     (playlist_target_of staging_lookup rel)) status reason) = false).
    { unfold is_moved. cbn [finish a_status]. simpl in Hst.
      destruct Hst as [<- | [<- | [<- | []]]]; reflexivity. }
    rewrite Hnm. destruct Hfs as [-> | [-> Hmk]].
    + exists []. rewrite app_nil_r. auto.
    + destruct (mkdir_parents_inv _ _ _ Hmk) as (dirs & -> & Hreg & _ & Hnd).
      exists dirs. rewrite Hreg. split; [reflexivity|]. split; [exact Hnd|].
      split; [reflexivity|]. cbn [finish a_status]. congruence.
  - destruct (mkdir_parents_inv _ _ _ Hmk) as (dirs & -> & Hreg & Hlen & Hnd).
    destruct (dest_path_below_dir rel av bv tv Hs) as (name & Hname).
    exists (dirs ++ [(dest_path_of unidecode_table rel av bv tv, RegularFile)]).
    split; [rewrite app_assoc; reflexivity|]. split; [|split].
    + intros Hfs. specialize (Hnd Hfs). rewrite List.map_app. cbn [List.map fst].
      apply NoDup_app. split; [exact Hnd|]. split; [|apply NoDup_singleton].
      intros p Hp Hp'. apply list_elem_of_In in Hp. apply list_elem_of_In in Hp'.
      destruct Hp' as [<- | []]. rewrite List.map_app in Hp. apply in_app_or in Hp.
      destruct Hp as [Hp | Hp].
      * revert Hp. apply lib_exists_false; [|exact Hdest].
        rewrite Hname. destruct (dest_dir_of unidecode_table av bv); discriminate.
      * apply in_map_iff in Hp. destruct Hp as (e & He & Hin).
        pose proof (Hlen e Hin) as Hle. rewrite He, Hname, List.length_app in Hle.
        simpl in Hle. lia.
    + rewrite List.filter_app, Hreg. reflexivity.
    + cbn [a_status]. congruence.
Qed.

(** X16: what one staged file does to the library.  A record has a
    destination exactly when its status is [moved]; then nothing existed
    at the destination before, the file is there afterwards, and the
    record carries the artist, album and title, none of them empty, and
    no reason.  Every other record has a reason, and the library is as
    before unless the status is [error_move]. *)
Theorem import_move_is_recorded (staging_lookup : gmap Path str) (fs : Library)
    (rel : Path) (a : ImportAction) (fs' : Library) :
  process_file unidecode_table env music_root staging_lookup fs rel = Recorded a fs' ->
  a_source a = as_posix rel
  /\ (a_status a = moved <-> a_destination a <> None)
  /\ (a_status a = moved ->
      exists dest,
        a_destination a = Some (as_posix dest)
        /\ lib_exists fs dest = false
        /\ lib_is_file fs' dest = true
        /\ truthy (a_artist a) = true /\ truthy (a_album a) = true
        /\ truthy (a_title a) = true
        /\ a_reason a = None)
  /\ (a_status a <> moved -> a_reason a <> None)
  /\ (a_status a <> moved -> a_status a <> error_move -> fs' = fs).
Proof.
  intros H. split; [|split; [|split; [|split]]].
  - pose proof (process_file_filter unidecode_table env music_root staging_lookup fs rel)
      as Hf. rewrite H in Hf. apply Hf.
  - destruct (process_file_inv _ _ _ _ _ _ _ _ H) as [_ Hcase].
    destruct Hcase as [(status & reason & target & -> & Hst & _)
                      | (av & bv & tv & _ & _ & _ & Hp)].
    + cbn [finish a_status a_destination with_playlist_target new_action]. simpl in Hst.
      split; [|congruence]. intros ->. intuition discriminate.
    + apply place_inv in Hp.
      destruct Hp as [(status & reason & -> & Hst & _) | (fs1 & _ & _ & _ & ->)].
      * cbn [finish a_status a_destination with_playlist_target new_action]. simpl in Hst.
        split; [|congruence]. intros ->. intuition discriminate.
      * cbn [a_status a_destination]. split; [discriminate | reflexivity].
  - intros Hmoved. destruct (process_file_inv _ _ _ _ _ _ _ _ H) as [_ Hcase].
    destruct Hcase as [(status & reason & target & -> & Hst & _)
                      | (av & bv & tv & Hav & Hbv & Htv & Hp)].
    { cbn [finish a_status] in Hmoved. subst status. simpl in Hst. intuition discriminate. }
    apply place_inv in Hp.
    destruct Hp as [(status & reason & -> & Hst & _) | (fs1 & Hdest & _ & -> & ->)].
    { cbn [finish a_status] in Hmoved. subst status. simpl in Hst. intuition discriminate. }
    exists (dest_path_of unidecode_table rel av bv tv).
    cbn [a_destination a_artist a_album a_title a_reason].
    repeat split; try assumption.
    unfold lib_is_file. rewrite existsb_app. apply orb_true_iff. right. simpl.
    rewrite bool_decide_eq_true_2 by reflexivity. reflexivity.
  - intros Hnm. destruct (process_file_inv _ _ _ _ _ _ _ _ H) as [_ Hcase].
    destruct Hcase as [(status & reason & target & -> & _)
                      | (av & bv & tv & _ & _ & _ & Hp)]; [discriminate|].
    apply place_inv in Hp.
    destruct Hp as [(status & reason & -> & _) | (fs1 & _ & _ & _ & ->)];
      [discriminate | contradiction].
  - intros Hnm Hne. destruct (process_file_effect _ _ _ _ _ H) as (added & -> & _ & _ & Ha).
    rewrite (Ha Hnm Hne). apply app_nil_r.
Qed.

(** X17: two of the statuses of the loop are never recorded for a staged
    path whose parts are not empty: the path always yields an artist and
    a title, so [skipped_unknown_artist] and [skipped_missing_tags] do not
    occur; [skipped_unknown_album] occurs only for a file that lies
    directly in the staging root or directly in the playlist staging
    folder. *)
Theorem import_fallback_statuses (staging_lookup : gmap Path str) (fs : Library)
    (rel : Path) (a : ImportAction) (fs' : Library) :
  Forall (fun part => part <> []) rel ->
  process_file unidecode_table env music_root staging_lookup fs rel = Recorded a fs' ->
  a_status a <> skipped_unknown_artist
  /\ a_status a <> skipped_missing_tags
  /\ (a_status a = skipped_unknown_album -> List.length (rel_parent_parts rel) = 1%nat).
Proof.
  intros Hparts H. destruct (process_file_inv _ _ _ _ _ _ _ _ H) as [Hc Hcase].
  unfold is_import_candidate in Hc. apply andb_true_iff in Hc. destruct Hc as [_ Hs].
  destruct Hcase as [(status & reason & target & -> & Hst & _ & Hartist & Halbum & Htitle & _)
                    | (av & bv & tv & _ & _ & _ & Hp)].
  - cbn [finish a_status]. split; [|split].
    + intros ->. destruct (Hartist eq_refl) as (v & Hv).
      rewrite (artist_fallback_truthy v rel Hparts Hs) in Hv. discriminate.
    + intros ->. destruct (Htitle eq_refl) as (v & Hv).
      rewrite (title_fallback_truthy v rel Hs) in Hv. discriminate.
    + intros ->. destruct (Halbum eq_refl) as (v & Hv).
      pose proof (rel_parent_parts_not_empty rel Hs) as Hne.
      destruct (Nat.le_gt_cases 2 (List.length (rel_parent_parts rel))) as [Hlen | Hlen].
      * rewrite (album_fallback_truthy v rel Hparts Hlen) in Hv. discriminate.
      * destruct (rel_parent_parts rel) as [|p [|q ps]]; simpl in *; [contradiction | reflexivity | lia].
  - apply place_inv in Hp.
    destruct Hp as [(status & reason & -> & Hst & _) | (fs1 & _ & _ & _ & ->)].
    + cbn [finish a_status]. simpl in Hst.
      repeat split; intros ->; intuition discriminate.
    + cbn [a_status]. repeat split; discriminate.
Qed.

Lemma import_loop_sources staging_lookup add_files : forall fs actions fs',
  import_loop unidecode_table env music_root staging_lookup fs add_files
  = Some (actions, fs') ->
  List.map a_source actions
  = List.map as_posix (List.filter (is_import_candidate env) add_files).
Proof.
  induction add_files as [|rel rest IH]; intros fs actions fs' H.
  - injection H as <- <-. reflexivity.
  - cbn [import_loop List.filter] in *.
    pose proof (process_file_filter unidecode_table env music_root staging_lookup fs rel)
      as Hf.
    destruct (process_file unidecode_table env music_root staging_lookup fs rel)
      as [|a fs1|]; [| |discriminate].
    + rewrite Hf. exact (IH _ _ _ H).
    + destruct Hf as [-> Hsrc].
      destruct (import_loop unidecode_table env music_root staging_lookup fs1 rest)
        as [[actions1 fs2]|] eqn:Hrest; [|discriminate].
      injection H as <- <-. cbn [List.map]. rewrite Hsrc, (IH _ _ _ Hrest). reflexivity.
Qed.


(** X18: the log has exactly one record for every staged path that is a
    file with a supported suffix, in the order of the listing, and none
    for any other path. *)
Theorem import_records_every_candidate (staging_lookup : gmap Path str) (fs : Library)
    (add_files : list Path) (actions : list ImportAction) (fs' : Library) :
  import_loop unidecode_table env music_root staging_lookup fs add_files
  = Some (actions, fs') ->
  List.map a_source actions
  = List.map as_posix (List.filter (is_import_candidate env) add_files).
Proof. apply import_loop_sources. Qed.


End ImportLibrary.

Lemma import_move_is_recorded_witness :
  exists a fs',
    process_file latin1_table (quiet_staging tagged_new_song) (lit "/repo/Music")
      road_trip_lookup library_with_song staged_new_song
    = Recorded a fs'
    /\ a_status a = moved
    /\ a_source a = as_posix staged_new_song.
Proof.
  destruct (process_file latin1_table (quiet_staging tagged_new_song) (lit "/repo/Music")
              road_trip_lookup library_with_song staged_new_song)
    as [|a fs'|] eqn:H;
    [vm_compute in H; discriminate | | vm_compute in H; discriminate].
  exists a, fs'. split; [reflexivity|]. split.
  - pose proof H as H'. vm_compute in H'. injection H' as <- _. reflexivity.
  - exact (proj1 (import_move_is_recorded latin1_table (quiet_staging tagged_new_song)
                    (lit "/repo/Music") road_trip_lookup library_with_song
                    staged_new_song a fs' H)).
Defined.

Lemma import_fallback_statuses_witness :
  Forall (fun part => part <> []) staged_new_song
  /\ exists a fs',
       process_file latin1_table (quiet_staging (ReadOk None None None))
         (lit "/repo/Music") road_trip_lookup library_with_song staged_new_song
       = Recorded a fs'
       /\ a_status a <> skipped_unknown_artist.
Proof.
  assert (Hparts : Forall (fun part => part <> []) staged_new_song)
    by (repeat constructor; discriminate).
  split; [exact Hparts|].
  destruct (process_file latin1_table (quiet_staging (ReadOk None None None))
              (lit "/repo/Music") road_trip_lookup library_with_song staged_new_song)
    as [|a fs'|] eqn:H;
    [vm_compute in H; discriminate | | vm_compute in H; discriminate].
  exists a, fs'. split; [reflexivity|].
  exact (proj1 (import_fallback_statuses latin1_table (quiet_staging (ReadOk None None None))
                  (lit "/repo/Music") road_trip_lookup library_with_song
                  staged_new_song a fs' Hparts H)).
Defined.

Lemma import_records_every_candidate_witness :
  exists actions fs',
    import_loop latin1_table (quiet_staging tagged_new_song) (lit "/repo/Music")
      road_trip_lookup library_with_song [staged_new_song; [lit "notes.txt"]; song_flac]
    = Some (actions, fs')
    /\ List.map a_source actions = [as_posix staged_new_song; as_posix song_flac].
Proof.
  destruct (import_loop latin1_table (quiet_staging tagged_new_song) (lit "/repo/Music")
              road_trip_lookup library_with_song
              [staged_new_song; [lit "notes.txt"]; song_flac])
    as [[actions fs']|] eqn:H; [|vm_compute in H; discriminate].
  exists actions, fs'. split; [reflexivity|].
  exact (import_records_every_candidate latin1_table (quiet_staging tagged_new_song)
           (lit "/repo/Music") road_trip_lookup library_with_song
           [staged_new_song; [lit "notes.txt"]; song_flac] actions fs' H).
Defined.


(** ** Playlist targets *)

Lemma sum_nat_perm (l l' : list nat) :
  Permutation l l' -> fold_right Nat.add O l = fold_right Nat.add O l'.
Proof.
  induction 1 as [|x l l' _ IH|x y l|l l' l'' _ IH1 _ IH2]; simpl; lia.
Qed.

Lemma omap_length_filter {A B} (f : A -> option B) (l : list A) :
  List.length (omap f l) = List.length (List.filter (fun x => is_present (f x)) l).
Proof.
  induction l as [|x l IH]; [reflexivity|]. cbn [List.filter].
  change (omap f (x :: l))
    with (match f x with Some y => y :: omap f l | None => omap f l end).
  destruct (f x); cbn [is_present List.length]; rewrite IH; reflexivity.
Qed.

Lemma filter_filter_andb {A} (f g : A -> bool) (l : list A) :
  List.filter g (List.filter f l) = List.filter (fun x => f x && g x) l.
Proof.
  induction l as [|x l IH]; [reflexivity|]. simpl.
  destruct (f x); simpl; [destruct (g x)|]; rewrite IH; reflexivity.
Qed.

(** X20: the summary of the playlist updates has one row for each
    playlist target of a moved file, at least one track in every row, in
    the order of the counts, the largest first; the counts add up to the
    number of moved files that have a playlist target. *)
Theorem playlist_updates_totals (actions : list ImportAction) :
  fold_right Nat.add O (List.map snd (playlist_updates actions))
  = List.length
      (List.filter (fun a => is_moved a && is_present (a_playlist_target a)) actions)
  /\ NoDup (List.map fst (playlist_updates actions))
  /\ Forall (fun u =>
       (1 <= snd u)%nat
       /\ exists a, In a actions /\ a_status a = moved
                    /\ a_playlist_target a = Some (fst u))
     (playlist_updates actions)
  /\ Sorted (fun a b => (snd b <= snd a)%nat) (playlist_updates actions).
Proof.
  unfold playlist_updates.
  set (targets := omap a_playlist_target
                    (List.filter (fun a => bool_decide (a_status a = moved)) actions)).
  set (leb := fun a b : str * nat => (snd b <=? snd a)%nat).
  set (rows := List.map (fun g : str * list str => (fst g, List.length (snd g)))
                 (groupby str_leb id targets)).
  pose proof (sort_by_perm leb rows) as Hperm.
  split; [|split; [|split]].
  - rewrite (sum_nat_perm _ _ (Permutation_map snd Hperm)). unfold rows.
    rewrite List.map_map. cbn [snd].
    pose proof (groupby_filter_sum str_leb id (fun _ => true) targets) as Hsum.
    rewrite filter_true in Hsum.
    rewrite (map_ext (fun g : str * list str => List.length (snd g))
               (fun g => List.length (List.filter (fun _ => true) (snd g))))
      by (intros g; rewrite filter_true; reflexivity).
    rewrite Hsum. unfold targets. rewrite omap_length_filter, filter_filter_andb.
    reflexivity.
  - rewrite (Permutation_map fst Hperm). unfold rows. rewrite List.map_map. cbn [fst].
    change (fun x : str * list str => fst x) with (@fst str (list str)).
    rewrite groupby_keys. apply sorted_distinct_NoDup.
  - apply List.Forall_forall. intros u Hu. apply (proj1 (In_sort_by leb u rows)) in Hu.
    unfold rows in Hu. apply in_map_iff in Hu. destruct Hu as ([name group] & <- & Hg).
    apply In_groupby in Hg. cbn [fst snd id] in *.
    destruct Hg as ((t & Ht & Hname) & ->). subst t. split.
    + assert (Hin : In name (List.filter (fun r => bool_decide (r = name)) targets)).
      { apply filter_In. split; [exact Ht|]. apply bool_decide_eq_true. reflexivity. }
      destruct (List.filter _ targets); [destruct Hin | simpl; lia].
    + unfold targets in Ht. apply list_elem_of_In, list_elem_of_omap in Ht.
      destruct Ht as (a & Ha & Htarget). apply list_elem_of_In, filter_In in Ha.
      destruct Ha as [Ha Hmoved]. apply bool_decide_eq_true in Hmoved. eauto.
  - eapply Sorted_weaken; [|apply (sort_by_Sorted leb)].
    + intros a b Hab. unfold leb in Hab. apply Nat.leb_le in Hab. exact Hab.
    + intros a b. unfold leb.
      destruct (Nat.le_ge_cases (snd b) (snd a)) as [H | H];
        [left | right]; apply Nat.leb_le; exact H.
Qed.

Lemma staging_fold_inv (unidecode_table : N -> str) (csvs : list str) :
  forall (acc : gmap Path str) d n,
  foldl (fun lookup csv_stem =>
           <[staging_dir_of unidecode_table csv_stem
             := friendly_playlist_name csv_stem]> lookup) acc csvs !! d = Some n ->
  acc !! d = Some n
  \/ exists csv, In csv csvs /\ d = staging_dir_of unidecode_table csv
                 /\ n = friendly_playlist_name csv.
Proof.
  induction csvs as [|c cs IH]; intros acc d n H; [left; exact H|].
  cbn [foldl] in H. apply IH in H. destruct H as [H | (csv & Hin & Hd & Hn)].
  - apply lookup_insert_Some in H. destruct H as [[<- <-] | [_ H]].
    + right. exists c. split; [left; reflexivity | auto].
    + left. exact H.
  - right. exists csv. split; [right; exact Hin | auto].
Qed.

Lemma staging_fold_keeps (unidecode_table : N -> str) (csvs : list str) :
  forall (acc : gmap Path str) d,
  is_Some (acc !! d) ->
  is_Some (foldl (fun lookup csv_stem =>
                    <[staging_dir_of unidecode_table csv_stem
                      := friendly_playlist_name csv_stem]> lookup) acc csvs !! d).
Proof.
  induction csvs as [|c cs IH]; intros acc d H; [exact H|].
  cbn [foldl]. apply IH. apply lookup_insert_is_Some'. right. exact H.
Qed.

(** X21: the lookup table of the staging directories holds, for the
    staging directory of every manifest file, the friendly name of a
    manifest file with that directory, and nothing else; when two
    manifest files have the same staging directory the later one gives
    the name. *)
Theorem staging_lookup_names (unidecode_table : N -> str) (playlist_csvs : list str) :
  (forall d n, build_staging_lookup unidecode_table playlist_csvs !! d = Some n ->
     exists csv, In csv playlist_csvs /\ d = staging_dir_of unidecode_table csv
                 /\ n = friendly_playlist_name csv)
  /\ Forall (fun csv =>
       is_Some (build_staging_lookup unidecode_table playlist_csvs
                !! staging_dir_of unidecode_table csv)) playlist_csvs
  /\ (forall csv,
        build_staging_lookup unidecode_table (playlist_csvs ++ [csv])
        !! staging_dir_of unidecode_table csv
        = Some (friendly_playlist_name csv)).
Proof.
  unfold build_staging_lookup. fold (staging_dir_of unidecode_table).
  change (fun lookup csv_stem =>
            <[path_join [PLAYLIST_STAGE_FOLDER]
                (safe_path_component unidecode_table
                   (Some (friendly_playlist_name csv_stem)) (lit "Playlist"))
              := friendly_playlist_name csv_stem]> lookup)
    with (fun (lookup : gmap Path str) csv_stem =>
            <[staging_dir_of unidecode_table csv_stem
              := friendly_playlist_name csv_stem]> lookup).
  split; [|split].
  - intros d n H. apply staging_fold_inv in H.
    destruct H as [H | H]; [rewrite lookup_empty in H; discriminate | exact H].
  - generalize (∅ : gmap Path str). induction playlist_csvs as [|c cs IH]; intros acc.
    + constructor.
    + constructor; [|apply IH]. cbn [foldl]. apply staging_fold_keeps.
      rewrite lookup_insert_eq. eauto.
  - intros csv. rewrite foldl_app. cbn [foldl]. apply lookup_insert_eq.
Qed.

Section ImportTargets.
Variable unidecode_table : N -> str.
Variable env : Staging.
Variable music_root : str.

Lemma process_file_target staging_lookup fs rel a fs' :
  process_file unidecode_table env music_root staging_lookup fs rel = Recorded a fs' ->
  a_playlist_target a = None
  \/ a_playlist_target a = playlist_target_of staging_lookup rel.
Proof.
  intros H. destruct (process_file_inv _ _ _ _ _ _ _ _ H) as [_ Hcase].
  destruct Hcase as [(status & reason & target & -> & _ & Ht & _)
                    | (av & bv & tv & _ & _ & _ & Hp)].
  - cbn [finish with_playlist_target a_playlist_target]. destruct Ht as [-> | ->]; auto.
  - apply place_inv in Hp.
    destruct Hp as [(status & reason & -> & _) | (fs1 & _ & _ & _ & ->)]; right; reflexivity.
Qed.

Lemma playlist_target_of_inv staging_lookup rel n :
  playlist_target_of staging_lookup rel = Some n ->
  exists first rest,
    rel = PLAYLIST_STAGE_FOLDER :: first :: rest
    /\ staging_lookup !! [PLAYLIST_STAGE_FOLDER; first] = Some n.
Proof.
  unfold playlist_target_of. destruct rel as [|p0 [|first rest]]; try discriminate.
  destruct (bool_decide (p0 = PLAYLIST_STAGE_FOLDER)) eqn:E; [|discriminate].
  apply bool_decide_eq_true in E. subst p0. eauto.
Qed.

Lemma import_loop_targets staging_lookup add_files : forall fs actions fs',
  import_loop unidecode_table env music_root staging_lookup fs add_files
  = Some (actions, fs') ->
  Forall (fun a => forall n, a_playlist_target a = Some n ->
            exists d, staging_lookup !! d = Some n) actions.
Proof.
  induction add_files as [|rel rest IH]; intros fs actions fs' H.
  - injection H as <- <-. constructor.
  - cbn [import_loop] in H.
    destruct (process_file unidecode_table env music_root staging_lookup fs rel)
      as [|a fs1|] eqn:Hp; [exact (IH _ _ _ H) | | discriminate].
    destruct (import_loop unidecode_table env music_root staging_lookup fs1 rest)
      as [[actions1 fs2]|] eqn:Hrest; [|discriminate].
    injection H as <- <-. constructor; [|exact (IH _ _ _ Hrest)].
    intros n Hn. destruct (process_file_target _ _ _ _ _ Hp) as [Ht | Ht];
      [congruence|].
    rewrite Ht in Hn. apply playlist_target_of_inv in Hn.
    destruct Hn as (first & _ & _ & Hl). eauto.
Qed.

(** X22: a playlist target in the log of an import, and every playlist
    name in its summary of playlist updates, is the friendly name of one
    of the manifest files. *)
Theorem import_targets_are_playlists (playlist_csvs : list str) (fs : Library)
    (add_files : list Path) (actions : list ImportAction)
    (updates : list (str * nat)) (fs' : Library) :
  process_new_additions unidecode_table env music_root playlist_csvs fs add_files
  = Some (actions, updates, fs') ->
  Forall (fun a => forall n, a_playlist_target a = Some n ->
            exists csv, In csv playlist_csvs /\ n = friendly_playlist_name csv) actions
  /\ Forall (fun u => exists csv, In csv playlist_csvs
                                  /\ fst u = friendly_playlist_name csv) updates.
Proof.
  unfold process_new_additions. intros H.
  destruct (import_loop unidecode_table env music_root
              (build_staging_lookup unidecode_table playlist_csvs) fs add_files)
    as [[actions0 fs0]|] eqn:Hloop; [|discriminate].
  injection H as <- <- <-.
  pose proof (import_loop_targets _ _ _ _ _ Hloop) as Ht.
  assert (Hnames : forall d n,
            build_staging_lookup unidecode_table playlist_csvs !! d = Some n ->
            exists csv, In csv playlist_csvs /\ n = friendly_playlist_name csv).
  { intros d n Hd. unfold build_staging_lookup in Hd.
    apply (staging_fold_inv unidecode_table playlist_csvs ∅ d n) in Hd.
    destruct Hd as [Hd | (csv & Hin & _ & Hn)];
      [rewrite lookup_empty in Hd; discriminate | eauto]. }
  assert (Hactions : Forall (fun a => forall n, a_playlist_target a = Some n ->
            exists csv, In csv playlist_csvs /\ n = friendly_playlist_name csv) actions0).
  { eapply List.Forall_impl; [|exact Ht]. intros a Ha n Hn.
    destruct (Ha n Hn) as (d & Hd). exact (Hnames d n Hd). }
  split; [exact Hactions|].
  apply List.Forall_forall. intros u Hu. unfold playlist_updates in Hu.
  apply In_sort_by, in_map_iff in Hu. destruct Hu as ([name group] & <- & Hg).
  apply In_groupby in Hg. cbn [fst snd id] in *. destruct Hg as ((t & Ht' & Hname) & _).
  subst t.
  apply list_elem_of_In, list_elem_of_omap in Ht'. destruct Ht' as (a & Ha & Htarget).
  apply list_elem_of_In, filter_In in Ha. destruct Ha as [Ha _].
  rewrite List.Forall_forall in Hactions. exact (Hactions a Ha name Htarget).
Qed.

End ImportTargets.

Lemma import_targets_are_playlists_witness :
  exists actions updates fs',
    process_new_additions latin1_table (quiet_staging tagged_new_song) (lit "/repo/Music")
      [lit "Road_Trip"] library_with_song [staged_new_song; song_flac]
    = Some (actions, updates, fs')
    /\ Forall (fun u => exists csv, In csv [lit "Road_Trip"]
                                    /\ fst u = friendly_playlist_name csv) updates.
Proof.
  destruct (process_new_additions latin1_table (quiet_staging tagged_new_song)
              (lit "/repo/Music") [lit "Road_Trip"] library_with_song
              [staged_new_song; song_flac])
    as [[[actions updates] fs']|] eqn:H; [|vm_compute in H; discriminate].
  exists actions, updates, fs'. split; [reflexivity|].
  exact (proj2 (import_targets_are_playlists latin1_table (quiet_staging tagged_new_song)
                  (lit "/repo/Music") [lit "Road_Trip"] library_with_song
                  [staged_new_song; song_flac] actions updates fs' H)).
Defined.

(** ** The library scanner *)

Lemma inventory_leb_total a b : inventory_leb a b = true \/ inventory_leb b a = true.
Proof.
  unfold inventory_leb.
  rewrite (str_compare_antisym (lib_artist_canonical a) (lib_artist_canonical b)).
  destruct (str_compare (lib_artist_canonical a) (lib_artist_canonical b)); simpl; auto.
  rewrite (str_compare_antisym (lib_title_canonical a) (lib_title_canonical b)).
  destruct (str_compare (lib_title_canonical a) (lib_title_canonical b)); simpl; auto.
  apply str_leb_total.
Qed.

Lemma audio_suffix_name name :
  existsb (str_eqb (lower (suffix name))) AUDIO_EXTENSIONS = true -> stem name <> [].
Proof.
  unfold suffix, stem. destruct (dot_index name) as [i|] eqn:E.
  - intros _. unfold dot_index in E. destruct (rfind_dot name) as [j|]; [|discriminate].
    destruct ((0 <? j)%nat && (j <? List.length name - 1)%nat) eqn:Hj; [|discriminate].
    injection E as <-. apply andb_true_iff in Hj. destruct Hj as [H0 H1].
    apply Nat.ltb_lt in H0, H1.
    intros Hs. apply (f_equal (@List.length N)) in Hs.
    rewrite List.length_firstn in Hs. simpl in Hs. lia.
  - intros H. vm_compute in H. discriminate.
Qed.

Lemma scan_tag_str_none raw : scan_tag_str raw = None <-> empty_frame raw = true.
Proof.
  destruct raw as [[[|t ts] | s |]|]; simpl; split; intros H;
    try discriminate; reflexivity.
Qed.

Section ScanFacts.
Variable unidecode_table : N -> str.
Variable music_folder_name : str.
Variable env : Scanner.

Lemma scan_record_none rel :
  scan_record unidecode_table music_folder_name env rel = None
  <-> exists artist_tag title_tag album_tag,
        scan_read env rel = ReadOk artist_tag title_tag album_tag
        /\ empty_frame artist_tag || empty_frame title_tag || empty_frame album_tag
           = true.
Proof.
  unfold scan_record. destruct (scan_read env rel) as [message | a t al]; cbn [fst snd].
  - cbn [scan_tag_str]. split; [discriminate|]. intros (? & ? & ? & H & _). discriminate.
  - split.
    + intros H. exists a, t, al. split; [reflexivity|].
      destruct (scan_tag_str a) eqn:Ea;
        [|apply scan_tag_str_none in Ea; rewrite Ea; reflexivity].
      destruct (scan_tag_str t) eqn:Et;
        [|apply scan_tag_str_none in Et; rewrite Et; apply orb_true_iff; left;
          apply orb_true_r].
      destruct (scan_tag_str al) eqn:Eal; [discriminate|].
      apply scan_tag_str_none in Eal. rewrite Eal. apply orb_true_r.
    + intros (a' & t' & al' & [= <- <- <-] & H).
      apply orb_true_iff in H. destruct H as [H | H];
        [apply orb_true_iff in H; destruct H as [H | H]|];
        apply scan_tag_str_none in H; rewrite H;
        repeat match goal with |- context [match ?x with _ => _ end] => destruct x end;
        reflexivity.
Qed.

Lemma scan_record_fields rel r :
  is_audio env rel = true ->
  scan_record unidecode_table music_folder_name env rel = Some r ->
  lib_file_path r = as_posix rel
  /\ lib_artist_canonical r = canonicalize_string unidecode_table (Some (lib_artist_raw r))
  /\ lib_title_canonical r = canonicalize_string unidecode_table (Some (lib_title_raw r))
  /\ lib_title_raw r <> [].
Proof.
  intros Ha H. unfold is_audio in Ha. apply andb_true_iff in Ha. destruct Ha as [_ Hs].
  apply audio_suffix_name in Hs. unfold scan_record in H.
  destruct (scan_tag_str _) as [artist_str|]; [|discriminate].
  destruct (scan_tag_str _) as [title_str|]; [|discriminate].
  destruct (scan_tag_str _) as [album_str|]; [|discriminate].
  injection H as <-. cbn [lib_file_path lib_artist_canonical lib_title_canonical
                          lib_artist_raw lib_title_raw].
  repeat split. destruct title_str as [[|c title]|]; simpl; try exact Hs. discriminate.
Qed.

Lemma scan_records_inv listing : forall records,
  scan_records unidecode_table music_folder_name env listing = Some records ->
  List.map lib_file_path records = List.map as_posix (List.filter (is_audio env) listing)
  /\ Forall (fun r =>
       lib_artist_canonical r = canonicalize_string unidecode_table (Some (lib_artist_raw r))
       /\ lib_title_canonical r
          = canonicalize_string unidecode_table (Some (lib_title_raw r))
       /\ lib_title_raw r <> []) records.
Proof.
  induction listing as [|rel rest IH]; intros records H.
  - injection H as <-. split; [reflexivity | constructor].
  - cbn [scan_records List.filter] in *. destruct (is_audio env rel) eqn:Ha; [|auto].
    destruct (scan_record unidecode_table music_folder_name env rel) as [r|] eqn:Hr;
      [|discriminate].
    destruct (scan_records unidecode_table music_folder_name env rest) as [rs|];
      [|discriminate].
    injection H as <-. destruct (IH rs eq_refl) as [Hpaths Hall].
    destruct (scan_record_fields rel r Ha Hr) as (Hp & Hfields).
    split; [cbn [List.map]; rewrite Hp, Hpaths; reflexivity|].
    constructor; assumption.
Qed.

Lemma scan_records_none listing :
  scan_records unidecode_table music_folder_name env listing = None
  <-> exists rel, In rel listing /\ is_audio env rel = true
                  /\ scan_record unidecode_table music_folder_name env rel = None.
Proof.
  induction listing as [|rel rest IH].
  - split; [discriminate | intros (? & [] & _)].
  - cbn [scan_records]. destruct (is_audio env rel) eqn:Ha.
    + destruct (scan_record unidecode_table music_folder_name env rel) as [r|] eqn:Hr.
      * destruct (scan_records unidecode_table music_folder_name env rest) as [rs|].
        -- split; [discriminate|]. intros (rel' & [<- | Hin] & Ha' & Hr'); [congruence|].
           assert (Hn : Some rs = None) by (apply IH; eauto). discriminate.
        -- split; [|reflexivity]. intros _.
           destruct (proj1 IH eq_refl) as (rel' & Hin & Hrest). exists rel'.
           split; [right; exact Hin | exact Hrest].
      * split; [|reflexivity]. intros _. exists rel. split; [left; reflexivity | auto].
    + rewrite IH. split.
      * intros (rel' & Hin & H). exists rel'. split; [right; exact Hin | exact H].
      * intros (rel' & [<- | Hin] & Ha' & Hr'); [congruence | eauto].
Qed.

(** X23: the index of a scan is in the order of its sort; it has one
    record for every path of the listing that is a file with an audio
    suffix, and no other; the keys of a record are the canonical keys of
    its artist and title fields, and its title is never empty. *)
Theorem scan_index_records (listing : list Path) (records : list InventoryRecord) :
  scan_music_library unidecode_table true music_folder_name env listing = Some records ->
  Sorted (fun a b => inventory_leb a b = true) records
  /\ Permutation (List.map lib_file_path records)
       (List.map as_posix (List.filter (is_audio env) listing))
  /\ Forall (fun r =>
       lib_artist_canonical r = canonicalize_string unidecode_table (Some (lib_artist_raw r))
       /\ lib_title_canonical r
          = canonicalize_string unidecode_table (Some (lib_title_raw r))
       /\ lib_title_raw r <> []) records.
Proof.
  unfold scan_music_library. intros H.
  destruct (scan_records unidecode_table music_folder_name env listing) as [rs|] eqn:Hrs;
    [|discriminate].
  injection H as <-. destruct (scan_records_inv listing rs Hrs) as [Hpaths Hall].
  split; [apply (sort_by_Sorted inventory_leb inventory_leb_total)|]. split.
  - rewrite <- Hpaths. apply Permutation_map, sort_by_perm.
  - apply List.Forall_forall. intros r Hr. apply In_sort_by in Hr.
    rewrite List.Forall_forall in Hall. exact (Hall r Hr).
Qed.

(** X24: a scan of a missing root gives the empty index.  A scan of an
    existing root fails exactly when the listing has an audio file whose
    artist, title or album frame has an empty text list: the scanner
    takes the first text of a frame without testing that there is
    one. *)
Theorem scan_fails_on_empty_frame (listing : list Path) :
  scan_music_library unidecode_table false music_folder_name env listing = Some []
  /\ (scan_music_library unidecode_table true music_folder_name env listing = None
      <-> exists rel, In rel listing /\ is_audio env rel = true
            /\ exists artist_tag title_tag album_tag,
                 scan_read env rel = ReadOk artist_tag title_tag album_tag
                 /\ empty_frame artist_tag || empty_frame title_tag
                    || empty_frame album_tag = true).
Proof.
  split; [reflexivity|]. unfold scan_music_library.
  destruct (scan_records unidecode_table music_folder_name env listing) as [rs|] eqn:Hrs.
  - split; [discriminate|]. intros (rel & Hin & Ha & Hr).
    apply scan_record_none in Hr.
    assert (Hn : scan_records unidecode_table music_folder_name env listing = None)
      by (apply scan_records_none; eauto).
    congruence.
  - split; [|reflexivity]. intros _. apply scan_records_none in Hrs.
    destruct Hrs as (rel & Hin & Ha & Hr). apply scan_record_none in Hr. eauto.
Qed.

End ScanFacts.

Lemma scan_index_records_witness :
  exists records,
    scan_music_library latin1_table true (lit "Music") tagged_scanner
      [song_mp3; [lit "notes.txt"]; song_flac]
    = Some records
    /\ Permutation (List.map lib_file_path records)
         [as_posix song_mp3; as_posix song_flac].
Proof.
  destruct (scan_music_library latin1_table true (lit "Music") tagged_scanner
              [song_mp3; [lit "notes.txt"]; song_flac])
    as [records|] eqn:H; [|vm_compute in H; discriminate].
  exists records. split; [reflexivity|].
  exact (proj1 (proj2 (scan_index_records latin1_table (lit "Music") tagged_scanner
                         [song_mp3; [lit "notes.txt"]; song_flac] records H))).
Defined.

(** ** Where a moved file lands *)




Section ImportDestination.
Variable unidecode_table : N -> str.
Variable env : Staging.
Variable music_root : str.



End ImportDestination.


(** ** Paths of the playlist files *)

Lemma replace_char_removes old new s :
  Forall (fun c => c <> old) new -> Forall (fun c => c <> old) (replace_char old new s).
Proof.
  intros Hnew. induction s as [|c s IH]; [constructor|].
  change (replace_char old new (c :: s))
    with ((if (c =? old)%N then new else [c]) ++ replace_char old new s).
  apply Forall_app. split; [|exact IH].
  destruct (N.eqb_spec c old); [exact Hnew | repeat constructor; assumption].
Qed.

Lemma lstrip_slash_Forall (P : N -> Prop) s : Forall P s -> Forall P (lstrip_slash s).
Proof.
  induction 1 as [|c s Hc Hs IH]; [constructor|]. simpl.
  destruct (c =? 47)%N; [exact IH | constructor; assumption].
Qed.

Lemma lstrip_slash_head s t : lstrip_slash s <> 47%N :: t.
Proof.
  induction s as [|c s IH]; [discriminate|]. simpl.
  destruct (N.eqb_spec c 47) as [_ | Hne]; [exact IH|]. intros [= Hc _]. contradiction.
Qed.

Lemma skipn_Forall {A} (P : A -> Prop) n : forall l, Forall P l -> Forall P (skipn n l).
Proof.
  induction n as [|n IH]; intros l H; [exact H|].
  destruct H as [|x l _ Hl]; [constructor | apply IH, Hl].
Qed.

(** X26: the path lines of a playlist use forward slashes only: the
    path written after the music folder holds no backslash, whatever the
    stored path is, and it does not begin with a slash unless the music
    folder prefix was cut off. *)
Theorem export_paths_use_forward_slashes (music_folder_name track_rel : str) :
  Forall (fun c => c <> 92%N) (normalized_rel music_folder_name track_rel)
  /\ (Forall (fun c => c <> 92%N) music_folder_name ->
      Forall (fun c => c <> 92%N) (path_line music_folder_name track_rel))
  /\ (startswith (lower (lstrip_slash (replace_char 92 (lit "/") track_rel)))
        (lower music_folder_name ++ lit "/") = false ->
      forall t, normalized_rel music_folder_name track_rel <> 47%N :: t).
Proof.
  assert (Hrel : Forall (fun c => c <> 92%N)
                   (lstrip_slash (replace_char 92 (lit "/") track_rel))).
  { apply lstrip_slash_Forall, replace_char_removes. repeat constructor. discriminate. }
  assert (Hn : Forall (fun c => c <> 92%N) (normalized_rel music_folder_name track_rel)).
  { unfold normalized_rel. destruct (startswith _ _); [apply skipn_Forall|]; exact Hrel. }
  split; [exact Hn|]. split.
  - intros Hm. unfold path_line.
    repeat (apply Forall_app; split); try assumption; repeat constructor; discriminate.
  - intros Hs t. unfold normalized_rel. rewrite Hs. apply lstrip_slash_head.
Qed.
